(** * Chudnovsky-Pi: binary splitting with factored integers

    A shallow embedding of [pgmp-chudnovsky.h] and [pgmp-chudnovsky.c]:
    the smallest-factor sieve, the factored integers ([fac_t]), the binary
    splitter [bs], the reduction [sum] and the argument handling of [main].

    Conventions of the embedding.
    - [uint_t] is the 32-bit type of the default build; a [uint_t] value is a
      [Z] in [0, 2^32) and every arithmetic operation of the source on
      [uint_t] is followed by [wrap].
    - [mpz_t] is [Z].
    - A [fac_t] is the list of its [(fac[i], pow[i])] pairs for
      [i < num_facs]; its capacity ([max_facs], [fac_resize]) is storage
      management and is not represented.
    - [mpz_clear] frees storage and changes no value: a cleared slot of
      the stacks keeps its entry, and the trace of a run tells which slots
      have been cleared.
    - The sieve is the list of its [n/2] entries; an access outside it, an
      inexact [mpz_divexact] and an out-of-range conversion are undefined
      behaviour, reported as [Undef]; loops and recursions that are not
      structural carry fuel and report [OutOfFuel]. *)

From Stdlib Require Import ZArith Lia List Bool Sorted Ascii.
From stdpp Require Import base tactics option list.
Import ListNotations.

Local Open Scope Z_scope.

(** ** Results of partial computations *)

Inductive res (A : Type) : Type :=
| Ok (x : A)
| Undef
| OutOfFuel.
Arguments Ok {A} x.
Arguments Undef {A}.
Arguments OutOfFuel {A}.

#[global] Instance res_ret : MRet res := λ A x, Ok x.
#[global] Instance res_bind : MBind res := λ A B k m,
  match m with
  | Ok x => k x
  | Undef => Undef
  | OutOfFuel => OutOfFuel
  end.

Definition is_ok {A} (m : res A) : Prop := ∃ x, m = Ok x.

(** ** Machine integers *)

Definition uint_bits : Z := 32.
Definition uint_mod : Z := 2 ^ uint_bits.
Definition wrap (x : Z) : Z := x mod uint_mod.
Definition is_uint (x : Z) : Prop := 0 <= x < uint_mod.

(** ** Factored integers *)

Definition fac_t : Type := list (Z * Z).

(** The integer a factored form stands for. *)
Fixpoint eval (f : fac_t) : Z :=
  match f with
  | [] => 1
  | (p, e) :: f' => p ^ e * eval f'
  end.

(** [fac_mul2]: the three loops of the source are one merge; the first loop
    runs while both inputs have entries left, the other two copy the rest. *)
Fixpoint fac_mul2 (f g : fac_t) {struct f} : fac_t :=
  match f with
  | [] => g
  | (p, e) :: f' =>
      (fix merge_g (g : fac_t) {struct g} : fac_t :=
         match g with
         | [] => f
         | (q, d) :: g' =>
             if p =? q then (p, wrap (e + d)) :: fac_mul2 f' g'
             else if p <? q then (p, e) :: fac_mul2 f' g
             else (q, d) :: merge_g g'
         end) g
  end.

(** [fac_mul]: [f *= g]; the swap with [fmul] only moves buffers. *)
Definition fac_mul (f g : fac_t) : fac_t := fac_mul2 f g.

(** [fac_compact]: drop the entries of power 0. *)
Fixpoint fac_compact (f : fac_t) : fac_t :=
  match f with
  | [] => []
  | (p, e) :: f' => if 0 <? e then (p, e) :: fac_compact f' else fac_compact f'
  end.

(** [mpz_divexact]: defined only when the divisor divides. *)
Definition divexact (n d : Z) : res Z :=
  if (d =? 0) then Undef
  else if (n mod d =? 0) then Ok (n / d) else Undef.

(** Entry [i] of a factored form. *)
Definition fac_get (f : fac_t) (i : Z) : res (Z * Z) :=
  if i <? 0 then Undef
  else match f !! Z.to_nat i with
       | Some x => Ok x
       | None => Undef
       end.

(** The linear branch of [bs_mul]: [r = 1; for i in [a,b): for j < pow[i]:
    r *= fac[i]]. *)
Fixpoint bs_mul_lin (fuel : nat) (a b : Z) (fmul : fac_t) (r : Z) : res Z :=
  match fuel with
  | O => OutOfFuel
  | S fuel =>
      if a <? b then
        x ← fac_get fmul a;
        bs_mul_lin fuel (wrap (a + 1)) b fmul (Z.iter x.2 (λ r, r * x.1) r)
      else Ok r
  end.

(** [bs_mul]: product of the entries [a..b) of [fmul] by a balanced tree. *)
Fixpoint bs_mul (fuel : nat) (a b : Z) (fmul : fac_t) : res Z :=
  match fuel with
  | O => OutOfFuel
  | S fuel =>
      if wrap (b - a) <=? 32 then bs_mul_lin (S (Z.to_nat (b - a))) a b fmul 1
      else
        r2 ← bs_mul fuel a (wrap (a + b) / 2) fmul;
        r ← bs_mul fuel (wrap (a + b) / 2) b fmul;
        Ok (r * r2)
  end.

(** The scan of [fac_remove_gcd]: returns the updated [fp], the updated [fg]
    and the common part [fmul]. *)
Fixpoint gcd_scan (fp fg : fac_t) {struct fp} : fac_t * fac_t * fac_t :=
  match fp with
  | [] => ([], fg, [])
  | (p, e) :: fp' =>
      (fix scan_g (fg : fac_t) {struct fg} : fac_t * fac_t * fac_t :=
         match fg with
         | [] => (fp, [], [])
         | (q, d) :: fg' =>
             if p =? q then
               let c := Z.min e d in
               let '(rp, rg, m) := gcd_scan fp' fg' in
               ((p, wrap (e - c)) :: rp, (q, wrap (d - c)) :: rg, (p, c) :: m)
             else if p <? q then
               let '(rp, rg, m) := gcd_scan fp' fg in
               ((p, e) :: rp, rg, m)
             else
               let '(rp, rg, m) := scan_g fg' in
               (rp, (q, d) :: rg, m)
         end) fg
  end.

(** [fac_remove_gcd (p, fp, g, fg)]: the new [p], [fp], [g], [fg]. *)
Definition fac_remove_gcd (p : Z) (fp : fac_t) (g : Z) (fg : fac_t)
  : res (Z * fac_t * Z * fac_t) :=
  let '(fp1, fg1, fmul) := gcd_scan fp fg in
  if Z.of_nat (length fmul) =? 0 then Ok (p, fp1, g, fg1)
  else
    gcd ← bs_mul (S (length fmul)) 0 (Z.of_nat (length fmul)) fmul;
    p' ← divexact p gcd;
    g' ← divexact g gcd;
    Ok (p', fac_compact fp1, g', fac_compact fg1).

(** ** The smallest-factor sieve *)

Record sieve_t : Type := Sieve { fac : Z; pow : Z; nxt : Z }.

Definition set_fac (x : Z) (e : sieve_t) : sieve_t := Sieve x (pow e) (nxt e).
Definition set_pow (x : Z) (e : sieve_t) : sieve_t := Sieve (fac e) x (nxt e).
Definition set_nxt (x : Z) (e : sieve_t) : sieve_t := Sieve (fac e) (pow e) x.

(** [s[i]] and [s[i].field = x] on a table of [length s] entries. *)
Definition tbl_get (s : list sieve_t) (i : Z) : res sieve_t :=
  if i <? 0 then Undef
  else match s !! Z.to_nat i with
       | Some e => Ok e
       | None => Undef
       end.

Definition tbl_upd (s : list sieve_t) (i : Z) (f : sieve_t → sieve_t)
  : res (list sieve_t) :=
  e ← tbl_get s i; Ok (<[Z.to_nat i := f e]> s).

(** Body of the inner loop of [build_sieve], for one [j] and [k]. *)
Definition mark_step (s : list sieve_t) (i j k : Z) : res (list sieve_t) :=
  ej ← tbl_get s (j / 2);
  if fac ej =? 0 then
    s ← tbl_upd s (j / 2) (set_fac i);
    ek ← tbl_get s k;
    if fac ek =? i then
      s ← tbl_upd s (j / 2) (set_pow (wrap (pow ek + 1)));
      ek ← tbl_get s k;
      tbl_upd s (j / 2) (set_nxt (nxt ek))
    else
      s ← tbl_upd s (j / 2) (set_pow 1);
      tbl_upd s (j / 2) (set_nxt k)
  else Ok s.

(** [for (j=i*i, k=i/2; j<=n; j+=i+i, k++)]. *)
Fixpoint mark_loop (fuel : nat) (n i j k : Z) (s : list sieve_t)
  : res (list sieve_t) :=
  match fuel with
  | O => OutOfFuel
  | S fuel =>
      if j <=? n then
        s ← mark_step s i j k;
        mark_loop fuel n i (wrap (j + wrap (i + i))) (wrap (k + 1)) s
      else Ok s
  end.

(** Body of the outer loop of [build_sieve], for one [i]. *)
Definition sieve_step (fuel : nat) (n m i : Z) (s : list sieve_t)
  : res (list sieve_t) :=
  e ← tbl_get s (i / 2);
  if fac e =? 0 then
    s ← tbl_upd s (i / 2) (set_fac i);
    s ← tbl_upd s (i / 2) (set_pow 1);
    if i <=? m then mark_loop fuel n i (wrap (i * i)) (i / 2) s else Ok s
  else Ok s.

(** [for (i=3; i<=n; i+=2)]. *)
Fixpoint sieve_loop (fuel inner : nat) (n m i : Z) (s : list sieve_t)
  : res (list sieve_t) :=
  match fuel with
  | O => OutOfFuel
  | S fuel =>
      if i <=? n then
        s ← sieve_step inner n m i s;
        sieve_loop fuel inner n m (wrap (i + 2)) s
      else Ok s
  end.

(** [build_sieve (n, s)]: [memset] clears the [n/2] entries of the table;
    [m = (uint_t) sqrt (n)] is the integer square root, which the double
    square root of a 32-bit integer truncates to. *)
Definition build_sieve (fuel : nat) (n : Z) : res (list sieve_t) :=
  let m := Z.sqrt n in
  let s := replicate (Z.to_nat (n / 2)) (Sieve 0 0 0) in
  s ← tbl_upd s (1 / 2) (set_fac 1);
  s ← tbl_upd s (1 / 2) (set_pow 1);
  sieve_loop fuel fuel n m 3 s.

(** The chain walk of [fac_set_bp]:
    [for (i=0, base/=2; base>0; i++, base = sieve[base].nxt)]. *)
Fixpoint chain (fuel : nat) (s : list sieve_t) (base pw : Z) : res fac_t :=
  match fuel with
  | O => OutOfFuel
  | S fuel =>
      if 0 <? base then
        e ← tbl_get s base;
        r ← chain fuel s (nxt e) pw;
        Ok ((fac e, wrap (pow e * pw)) :: r)
      else Ok []
  end.

(** [fac_set_bp]: [f = base^pow].  A walk that takes more steps than the
    table has entries visits an entry twice and so never ends: the fuel
    [S (length s)] is exact. *)
Definition fac_set_bp (s : list sieve_t) (base pw : Z) : res fac_t :=
  chain (S (length s)) s (base / 2) pw.

(** [fac_mul_bp]: [f *= base^pow]. *)
Definition fac_mul_bp (s : list sieve_t) (f : fac_t) (base pw : Z) : res fac_t :=
  ftmp ← fac_set_bp s base pw; Ok (fac_mul f ftmp).

(** ** Double-precision arithmetic on nonnegative values

    A finite nonnegative binary64 number is [man * 2^exp] with
    [man < 2^53]; every operation computes the exact result and rounds it
    to 53 significant bits, ties to even.  The magnitudes that occur are far
    from the overflow and underflow thresholds. *)
Module Double.

Record t : Type := mk { man : Z; exp : Z }.

Definition prec : Z := 53.

Definition round (m e : Z) : t :=
  let s := Z.log2 m + 1 - prec in
  if s <=? 0 then mk m e
  else
    let q := m / 2 ^ s in
    let r := m mod 2 ^ s in
    let half := 2 ^ (s - 1) in
    if (half <? r) || ((r =? half) && Z.odd q) then mk (q + 1) (e + s)
    else mk q (e + s).

Definition of_Z (z : Z) : t := round z 0.

Definition mul (x y : t) : t := round (man x * man y) (exp x + exp y).

Definition add (x y : t) : t :=
  let e := Z.min (exp x) (exp y) in
  round (man x * 2 ^ (exp x - e) + man y * 2 ^ (exp y - e)) e.

(** Quotient with a sticky bit, then rounded. *)
Definition div (x y : t) : t :=
  let k := 56 + Z.log2 (man y) in
  let n := man x * 2 ^ k in
  let q := n / man y in
  let sticky := if n mod man y =? 0 then 0 else 1 in
  round (2 * q + sticky) (exp x - exp y - k - 1).

(** Truncation to an integer. *)
Definition to_Z (x : t) : Z := Z.shiftl (man x) (exp x).

(** Conversion to [uint_t]; out of range is undefined. *)
Definition to_uint (x : t) : res Z :=
  let z := to_Z x in if z <? uint_mod then Ok z else Undef.

(** The value of [x] in units of [2^E], for [E <= exp x]. *)
Definition scaled (x : t) (E : Z) : Z := man x * 2 ^ (exp x - E).

End Double.

(** ** Constants of the series *)

Definition A : Z := 13591409.
Definition B : Z := 545140134.
Definition C : Z := 640320.
Definition D : Z := 12.

(** [0.54] and [DIGITS_PER_ITER = 14.1816474627254776555] as binary64. *)
Definition split_ratio : Double.t := Double.mk 607985949695017 (-50).
Definition DIGITS_PER_ITER : Double.t := Double.mk 7983557778578775 (-49).

Definition MAX_DIGITS : Z := 10000000000.

(** ** The binary splitter *)

Record tmp_t : Type := Tmp { p : Z; q : Z; g : Z; fp : fac_t; fg : fac_t }.

(** [i = b; while ((i & 1) == 0) i >>= 1;]  A nonzero 32-bit [b] needs at
    most 31 shifts, and the loop never ends on 0. *)
Fixpoint odd_part (fuel : nat) (i : Z) : res Z :=
  match fuel with
  | O => OutOfFuel
  | S fuel => if Z.land i 1 =? 0 then odd_part fuel (Z.shiftr i 1) else Ok i
  end.

(** [fp1[0].pow[0]--]. *)
Definition dec_first (f : fac_t) : fac_t :=
  match f with
  | [] => []
  | (x, e) :: f' => (x, wrap (e - 1)) :: f'
  end.

(** [mid = a + (b-a) * 0.54], evaluated in double and converted back. *)
Definition bs_mid (a b : Z) : res Z :=
  Double.to_uint
    (Double.add (Double.of_Z a)
       (Double.mul (Double.of_Z (wrap (b - a))) split_ratio)).

(** The leaf [b - a == 1]. *)
Definition bs_leaf (s : list sieve_t) (b : Z) : res tmp_t :=
  let p1 := b * b * b * ((C / 24) * (C / 24)) * (C * 24) in
  let g1 := wrap (2 * b - 1) * wrap (6 * b - 1) * wrap (6 * b - 5) in
  let q1 := (b * B + A) * g1 in
  let q1 := if b mod 2 =? 0 then q1 else - q1 in
  i ← odd_part (Z.to_nat uint_bits) b;
  fp1 ← fac_set_bp s i 3;
  fp1 ← fac_mul_bp s fp1 (3 * 5 * 23 * 29) 3;
  let fp1 := dec_first fp1 in
  fg1 ← fac_set_bp s (wrap (2 * b - 1)) 1;
  fg1 ← fac_mul_bp s fg1 (wrap (6 * b - 1)) 1;
  fg1 ← fac_mul_bp s fg1 (wrap (6 * b - 5)) 1;
  Ok (Tmp p1 q1 g1 fp1 fg1).

(** The combination step of [bs] at a node with right end [b]; [keep_g]
    forces the product of the two [g] (the source has [b < terms] only). *)
Definition bs_node (keep_g : bool) (b terms level : Z) (l r : tmp_t) : res tmp_t :=
  '(pj, fpj, g1, fg1) ←
     (if 4 <=? level then fac_remove_gcd (p r) (fp r) (g l) (fg l)
      else Ok (p r, fp r, g l, fg l));
  let qj := q r * g1 in
  let fp1 := fac_mul (fp l) fpj in
  let '(g1, fg1) :=
    if keep_g || (b <? terms) then (g1 * g r, fac_mul fg1 (fg r))
    else (g1, fg1) in
  let q1 := q l * pj + qj in
  let p1 := p l * pj in
  Ok (Tmp p1 q1 g1 fp1 fg1).

(** [bs]: the scratch arguments ([gcd], [ftmp], [fmul], [tmp], [j]) and
    [clear_flag] only manage storage: the left half is computed into the
    caller's variables and the right half into [tmp[j]]. *)
Fixpoint bs_gen (keep_g : bool) (fuel : nat) (s : list sieve_t)
    (a b terms level : Z) : res tmp_t :=
  match fuel with
  | O => OutOfFuel
  | S fuel =>
      if wrap (b - a) =? 1 then bs_leaf s b
      else
        mid ← bs_mid a b;
        l ← bs_gen keep_g fuel s a mid terms (wrap (level + 1));
        r ← bs_gen keep_g fuel s mid b terms (wrap (level + 1));
        bs_node keep_g b terms level l r
  end.

Definition bs : nat → list sieve_t → Z → Z → Z → Z → res tmp_t := bs_gen false.

(** The variant of the splitter that multiplies [g] at every node. *)
Definition bs_keep_g : nat → list sieve_t → Z → Z → Z → Z → res tmp_t :=
  bs_gen true.

(** ** The driver: shards, reduction, argument handling *)

(** What the run did, in program order. *)
Inductive event : Type :=
| EvBs (a b terms level : Z)
| EvSum (i k : Z) (gflag : bool).

(** The three stacks and the trace of calls. *)
Record run : Type :=
  Run { trace : list event; pstack : list Z; qstack : list Z; gstack : list Z }.

Definition stk_get (l : list Z) (i : Z) : res Z :=
  if i <? 0 then Undef
  else match l !! Z.to_nat i with
       | Some x => Ok x
       | None => Undef
       end.

Definition stk_set (l : list Z) (i : Z) (x : Z) : res (list Z) :=
  _ ← stk_get l i; Ok (<[Z.to_nat i := x]> l).

(** [sum (i, k, gflag)], in the order of the build without OpenMP; the
    OpenMP build runs the three independent products as tasks and then the
    same addition and the same product of the [g].  The call ends with
    [mpz_clear] on slot [k] of the three stacks: the event [EvSum i k gflag]
    of the trace records it ([cleared] below), and the entries that the
    stacks of the model keep at [k] stand for freed storage from then
    on. *)
Definition sum (i k : Z) (gflag : bool) (r : run) : res run :=
  qk ← stk_get (qstack r) k;
  gi ← stk_get (gstack r) i;
  qs ← stk_set (qstack r) k (qk * gi);
  gs ← (if gflag then
          gi ← stk_get (gstack r) i;
          gk ← stk_get (gstack r) k;
          stk_set (gstack r) i (gi * gk)
        else Ok (gstack r));
  qi ← stk_get qs i;
  pk ← stk_get (pstack r) k;
  qs ← stk_set qs i (qi * pk);
  qi ← stk_get qs i;
  qk ← stk_get qs k;
  qs ← stk_set qs i (qi + qk);
  pi ← stk_get (pstack r) i;
  pk ← stk_get (pstack r) k;
  ps ← stk_set (pstack r) i (pi * pk);
  Ok (Run (trace r ++ [EvSum i k gflag]) ps qs gs).

(** The slots that the calls of [sum] in a trace have cleared. *)
Definition clears (e : event) (j : Z) : bool :=
  match e with
  | EvSum _ k _ => k =? j
  | EvBs _ _ _ _ => false
  end.

Definition cleared (tr : list event) (j : Z) : bool :=
  existsb (λ e, clears e j) tr.

(** Every call of [sum] in the trace gets two slots that no earlier call
    has cleared. *)
Definition sums_live (tr : list event) : Prop :=
  ∀ pre i k gflag post,
    tr = pre ++ EvSum i k gflag :: post →
    cleared pre i = false ∧ cleared pre k = false.

(** In the round of stride [k], before the merge at [i0], the cleared
    slots are not multiples of [k], or are odd multiples of [k] below
    [i0]. *)
Definition round_live (k i0 : Z) (tr : list event) : Prop :=
  sums_live tr ∧
  ∀ j, cleared tr j = true → j mod k ≠ 0 ∨ (j mod (2 * k) = k ∧ j < i0).

(** [bs_init]: one shard; the recursion of [bs] on [a < b] is at most
    [b - a] deep, and never ends on an empty range. *)
Definition bs_init (keep_g : bool) (s : list sieve_t) (a b terms level : Z)
  : res tmp_t :=
  bs_gen keep_g (Z.to_nat (b - a)) s a b terms level.

(** [for (i = 0; i < threads; i++) bs_init (...)]: the shards, in index
    order (the iterations are independent). *)
Fixpoint shards (keep_g : bool) (s : list sieve_t) (fuel : nat)
    (i threads mid terms level : Z) (r : run) : res run :=
  match fuel with
  | O => OutOfFuel
  | S fuel =>
      if i <? threads then
        let a := wrap (i * mid) in
        let b := if i <? threads - 1 then wrap ((i + 1) * mid) else terms in
        x ← bs_init keep_g s a b terms level;
        shards keep_g s fuel (wrap (i + 1)) threads mid terms level
          (Run (trace r ++ [EvBs a b terms level])
               (pstack r ++ [p x]) (qstack r ++ [q x]) (gstack r ++ [g x]))
      else Ok r
  end.

(** [for (i = 0; i < threads; i = i+2*k) if (i+k < threads) sum (...)]. *)
Fixpoint sum_round (keep_g : bool) (fuel : nat) (i k threads : Z) (r : run)
  : res run :=
  match fuel with
  | O => OutOfFuel
  | S fuel =>
      if i <? threads then
        r ← (if wrap (i + k) <? threads then
               let gflag := wrap (i + wrap (2 * k)) <? threads in
               sum i (wrap (i + k)) (keep_g || gflag) r
             else Ok r);
        sum_round keep_g fuel (wrap (i + wrap (2 * k))) k threads r
      else Ok r
  end.

(** [for (k = 1; k < cores_size; k *= 2)]. *)
Fixpoint sum_rounds (keep_g : bool) (fuel : nat) (k cores_size threads : Z)
    (r : run) : res run :=
  match fuel with
  | O => OutOfFuel
  | S fuel =>
      if k <? cores_size then
        r ← sum_round keep_g (S (Z.to_nat threads)) 0 k threads r;
        sum_rounds keep_g fuel (wrap (k * 2)) cores_size threads r
      else Ok r
  end.

(** [d = 0; while ((1L << d) < x) d++;] *)
Fixpoint depth_loop (fuel : nat) (d x : Z) : res Z :=
  match fuel with
  | O => OutOfFuel
  | S fuel => if Z.shiftl 1 d <? x then depth_loop fuel (wrap (d + 1)) x else Ok d
  end.

(** The binary splitting process of [main] from the allocation of the sieve
    to the end of the reduction, for [terms] and the final [threads]. *)
Definition split_gen (keep_g : bool) (terms threads : Z) : res run :=
  cores_depth ← depth_loop 64 0 threads;
  let cores_size := 2 ^ cores_depth in
  if terms <=? 0 then Ok (Run [] [1] [0] [1])
  else
    let sieve_size := Z.max (3 * 5 * 23 * 29 + 1) (wrap (terms * 6)) in
    s ← build_sieve (Z.to_nat sieve_size) sieve_size;
    let mid := terms / threads in
    r ← shards keep_g s (S (Z.to_nat threads)) 0 threads mid terms cores_depth
          (Run [] [] [] []);
    sum_rounds keep_g 64 1 cores_size threads r.

Definition split : Z → Z → res run := split_gen false.

(** The variant that keeps every [g]: [bs_keep_g] in the shards and
    [gflag = 1] in every [sum]. *)
Definition split_keep_g : Z → Z → res run := split_gen true.

(** Command line: [argc], the value [strtoull] reads from [argv[1]], the
    value [atoi] reads from [argv[2]], and [argv[3]]. *)
Inductive thread_arg : Type := Auto | Count (n : Z).

Record args : Type :=
  Args { argc : Z; arg_digits : Z; arg_out : Z; arg_threads : thread_arg }.

(** Messages on the error stream. *)
Inductive diag : Type :=
| Usage
| DigitsReset (to : Z)
| ThreadsReset (from to : Z).

(** [terms = digits/DIGITS_PER_ITER]. *)
Definition terms_of (digits : Z) : res Z :=
  Double.to_uint (Double.div (Double.of_Z digits) DIGITS_PER_ITER).

(** The three-way adjustment of [threads]. *)
Definition clamp_threads (terms threads ncpus : Z) : Z * list diag :=
  if (threads <? 1) || ((terms <=? 0) && (1 <? threads)) then
    (1, [ThreadsReset threads 1])
  else if (0 <? terms) && (terms <? threads) && (threads <=? ncpus) then
    (terms, [ThreadsReset threads terms])
  else if ncpus <? threads then
    (ncpus, [ThreadsReset threads ncpus])
  else (threads, []).

Definition clamp_digits (digits : Z) : Z * list diag :=
  if MAX_DIGITS <? digits then (MAX_DIGITS, [DigitsReset MAX_DIGITS])
  else (digits, []).

(** How [main] ends: [exit (1)] after the usage text, or the integers
    handed to the conversion to floats. *)
Inductive outcome : Type :=
| Exit (status : Z) (err : list diag)
| Convert (err : list diag) (terms threads : Z) (r : run).

(** [main], up to "prepare to convert integers to floats"; [ncpus] is
    [omp_get_num_procs ()]. *)
Definition main (ncpus : Z) (a : args) : res outcome :=
  if argc a =? 1 then Ok (Exit 1 [Usage])
  else
    let digits := if 1 <? argc a then arg_digits a else 100 in
    let threads :=
      if 3 <? argc a then
        match arg_threads a with Auto => ncpus | Count n => n end
      else 1 in
    let '(digits, e1) := clamp_digits digits in
    terms ← terms_of digits;
    let '(threads, e2) := clamp_threads terms threads ncpus in
    r ← split terms threads;
    Ok (Convert (e1 ++ e2) terms threads r).

(** ** The series, term by term

    The triple of one term and the merge of two adjacent triples, from the
    comments of [bs]; [series a b] is the merge of the terms [a+1 .. b] from
    the left. *)
Definition term (b : Z) : Z * Z * Z :=
  let gb := (6 * b - 5) * (2 * b - 1) * (6 * b - 1) in
  (b ^ 3 * (C ^ 3 / 24),
   (if Z.even b then 1 else -1) * gb * (A + B * b),
   gb).

Definition merge (x y : Z * Z * Z) : Z * Z * Z :=
  let '(p1, q1, g1) := x in
  let '(p2, q2, g2) := y in
  (p1 * p2, q1 * p2 + q2 * g1, g1 * g2).

Fixpoint series_from (a : Z) (n : nat) : Z * Z * Z :=
  match n with
  | O => (1, 0, 1)
  | S n => merge (series_from a n) (term (a + Z.of_nat n + 1))
  end.

Definition series (a b : Z) : Z * Z * Z := series_from a (Z.to_nat (b - a)).

(** The triple held by a result of [bs]. *)
Definition triple (x : tmp_t) : Z * Z * Z := (p x, q x, g x).

(** The merge of a list of adjacent triples, and of the [k] triples from
    index [i] on (fewer at the end of the list). *)
Definition fold_merge (ts : list (Z * Z * Z)) : Z * Z * Z :=
  fold_right merge (1, 0, 1) ts.

Definition block (ts : list (Z * Z * Z)) (i k : Z) : Z * Z * Z :=
  fold_merge (take (Z.to_nat k) (drop (Z.to_nat i) ts)).

(** Shard [i] of a run holds the [P] and [Q], or the [G], of [t]. *)
Definition shard_pq (r : run) (i : Z) (t : Z * Z * Z) : Prop :=
  pstack r !! Z.to_nat i = Some t.1.1 ∧ qstack r !! Z.to_nat i = Some t.1.2.

Definition shard_g (r : run) (i : Z) (t : Z * Z * Z) : Prop :=
  gstack r !! Z.to_nat i = Some t.2.

(** The triples of all shards of a run. *)
Definition shards_of (r : run) : list (Z * Z * Z) :=
  zip (zip (pstack r) (qstack r)) (gstack r).

(** The three stacks have [T] entries. *)
Definition stacks_len (r : run) (T : Z) : Prop :=
  Z.of_nat (length (pstack r)) = T ∧ Z.of_nat (length (qstack r)) = T ∧
  Z.of_nat (length (gstack r)) = T.

(** State of the reduction in the round of stride [k], before the merge at
    [i0]: the shards at multiples of [2k] below [i0] hold blocks of [2k]
    triples, those at multiples of [k] from [i0] on hold blocks of [k]. *)
Definition round_inv (ts : list (Z * Z * Z)) (T k i0 : Z) (r : run) : Prop :=
  stacks_len r T ∧
  ∀ i, 0 <= i < T →
       (i mod (2 * k) = 0 → i < i0 →
        shard_pq r i (block ts i (2 * k)) ∧
        (i + 2 * k < T → shard_g r i (block ts i (2 * k)))) ∧
       (i mod k = 0 → i0 <= i →
        shard_pq r i (block ts i k) ∧
        (i + k < T → shard_g r i (block ts i k))).

(** Where shard [j] of [threads] starts; the last shard ends at [terms]. *)
Definition shard_lo (terms threads j : Z) : Z :=
  if j <? threads then j * (terms / threads) else terms.

(** What the stacks hold once the shards [0 .. i) are computed: one
    entry each, and entry [j] is the triple of a [bs] result on shard [j]
    (the property of that result is passed as [ok]). *)
Definition shards_done_with (ok : Z → Z → Z → tmp_t → Prop)
    (terms threads i : Z) (r : run) : Prop :=
  stacks_len r i ∧
  ∀ j, 0 <= j < i →
       ∃ x, ok (shard_lo terms threads j) (shard_lo terms threads (j + 1)) terms x ∧
            shards_of r !! Z.to_nat j = Some (triple x).

(** Two results of the splitter that differ at most in [g] and [fg]. *)
Definition same_upto_g (x y : tmp_t) : Prop :=
  p y = p x ∧ q y = q x ∧ fp y = fp x.

(** Two runs whose stacks differ at most in the last entry of [gstack]. *)
Definition g_last_only (r1 r2 : run) : Prop :=
  pstack r2 = pstack r1 ∧ qstack r2 = qstack r1 ∧
  ∃ gs x y, gstack r1 = gs ++ [x] ∧ gstack r2 = gs ++ [y].

(** Two triples that stand for the same [P/Q]: one is the other with a
    common positive factor [d] removed from all of [P], [Q] and [G]; [G] is
    compared only where [with_g] holds. *)
Definition reduces (with_g : Prop) (d : Z) (full x : Z * Z * Z) : Prop :=
  0 < d ∧ full.1.1 = d * x.1.1 ∧ full.1.2 = d * x.1.2 ∧
  (with_g → full.2 = d * x.2).

(** ** Well-formed factored integers *)

Definition facs (f : fac_t) : list Z := map fst f.

Record fac_wf (f : fac_t) : Prop :=
  FacWf {
    wf_sorted : StronglySorted Z.lt (facs f);
    wf_prime : Forall (λ x, Z.prime x.1 ∧ x.1 < uint_mod) f;
    wf_pow : Forall (λ x, 0 < x.2 < uint_mod) f
  }.

(** No sum of two exponents of one factor leaves [uint_t]. *)
Definition pow_sums_fit (f g : fac_t) : Prop :=
  ∀ x e d, In (x, e) f → In (x, d) g → e + d < uint_mod.

Definition pows_nonneg (f : fac_t) : Prop := Forall (λ x, 0 <= x.2) f.

(** Exponents as [uint_t] values. *)
Definition pows_uint (f : fac_t) : Prop := Forall (λ x, is_uint x.2) f.

(** The exponent of [x] in [f], 0 when [x] is not a factor. *)
Fixpoint pow_of (x : Z) (f : fac_t) : Z :=
  match f with
  | [] => 0
  | (y, e) :: f' => if x =? y then e else pow_of x f'
  end.

(** The factors that [fp] and [fg] share, each with the smaller of its two
    exponents. *)
Fixpoint shared (fp fg : fac_t) : fac_t :=
  match fp with
  | [] => []
  | (x, e) :: fp' =>
      if 0 <? pow_of x fg then (x, Z.min e (pow_of x fg)) :: shared fp' fg
      else shared fp' fg
  end.

(** The entries [a..b) of a factored form. *)
Definition sub (l : fac_t) (a b : Z) : fac_t :=
  take (Z.to_nat (b - a)) (drop (Z.to_nat a) l).

(** ** What the sieve table holds

    [entry_ok v e]: [e] describes the odd number [v]: its smallest factor
    above 1, the multiplicity of that factor, and the index of what is left
    of [v] without it. *)
Definition entry_ok (v : Z) (e : sieve_t) : Prop :=
  1 < fac e ∧ (fac e | v) ∧ (∀ d, 1 < d < fac e → ¬ (d | v)) ∧
  0 < pow e ∧
  ∃ c, v = fac e ^ pow e * c ∧ ¬ (fac e | c) ∧ nxt e = c / 2.

(** A table of [n/2] entries in which the entries of the odd numbers of
    [M] are filled in and the others are still clear. *)
Definition tbl_inv (n : Z) (s : list sieve_t) (M : Z → Prop) : Prop :=
  Z.of_nat (length s) = n / 2 ∧
  s !! 0%nat = Some (Sieve 1 1 0) ∧
  ∀ v, 3 <= v <= n → Z.odd v = true →
       ∃ e, s !! Z.to_nat (v / 2) = Some e ∧
            ((M v ∧ entry_ok v e) ∨ (¬ M v ∧ e = Sieve 0 0 0)).

(** The numbers filled in when the outer loop reaches [i], and when the
    inner loop of [i] reaches [j]. *)
Definition outer_marked (i v : Z) : Prop :=
  v < i ∨ ∃ d, 1 < d < i ∧ (d | v).

Definition inner_marked (i j v : Z) : Prop :=
  v <= i ∨ (∃ d, 1 < d < i ∧ (d | v)) ∨ ((i | v) ∧ v < j).

(** The finished table. *)
Definition sieve_ok (n : Z) (s : list sieve_t) : Prop :=
  tbl_inv n s (λ _, True).

(** What the chain walk from [v] with exponent [pw] yields: the factored
    form of [v^pw]. *)
Definition chain_post (v pw : Z) (f : fac_t) : Prop :=
  fac_wf f ∧ eval f = v ^ pw ∧
  Forall (λ x, 1 < x.1 ∧ (x.1 | v) ∧ pw <= x.2 < 32 * pw) f.

(** The largest power of 2 dividing [n] has been removed from [n]. *)
Definition odd_part_of (n m : Z) : Prop :=
  Z.odd m = true ∧ ∃ k, 0 <= k ∧ n = 2 ^ k * m.

(** What holds of the result [x] of [bs] on [a, b). *)
Record bs_inv (a b terms : Z) (x : tmp_t) : Prop :=
  BsInv {
    inv_fp_wf : fac_wf (fp x);
    inv_fg_wf : fac_wf (fg x);
    inv_p_pos : 0 < p x;
    inv_fp : odd_part_of (p x) (eval (fp x));
    inv_fg : g x = eval (fg x);
    inv_g_odd : Z.odd (g x) = true;
    inv_series : ∃ d, reduces (b < terms) d (series a b) (triple x)
  }.

(** The factored twins of a result of [bs]: [fg] stands for [g], which is
    odd, and [fp] for [p] without its factors of 2. *)
Definition twins_ok (x : tmp_t) : Prop :=
  g x = eval (fg x) ∧ Z.odd (g x) = true ∧ odd_part_of (p x) (eval (fp x)).

(** [sieve_size] as [main] computes it. *)
Definition sieve_size_of (terms : Z) : Z :=
  Z.max (3 * 5 * 23 * 29 + 1) (wrap (terms * 6)).

(** ** The factored half of the splitter

    The factored twins that [bs] returns do not depend on the integers
    [p], [q] and [g]: [leaf_facs], [gcd_facs], [node_facs] and [bs_fac] are
    [bs_leaf], [fac_remove_gcd], [bs_node] and [bs] with the integers left
    out.  They take the function that factors [base^pow] as [fset]; in the
    program it is [fac_set_bp] on the shared sieve. *)
Definition leaf_facs (fset : Z → Z → res fac_t) (b : Z)
  : res (fac_t * fac_t) :=
  i ← odd_part (Z.to_nat uint_bits) b;
  fp1 ← fset i 3;
  ftmp ← fset (3 * 5 * 23 * 29) 3;
  let fp1 := dec_first (fac_mul fp1 ftmp) in
  fg1 ← fset (wrap (2 * b - 1)) 1;
  ftmp ← fset (wrap (6 * b - 1)) 1;
  let fg1 := fac_mul fg1 ftmp in
  ftmp ← fset (wrap (6 * b - 5)) 1;
  let fg1 := fac_mul fg1 ftmp in
  Ok (fp1, fg1).

Definition gcd_facs (fp fg : fac_t) : fac_t * fac_t :=
  let '(fp1, fg1, fmul) := gcd_scan fp fg in
  if Z.of_nat (length fmul) =? 0 then (fp1, fg1)
  else (fac_compact fp1, fac_compact fg1).

Definition node_facs (b terms level : Z) (l r : fac_t * fac_t)
  : fac_t * fac_t :=
  let '(fpj, fg1) := if 4 <=? level then gcd_facs r.1 l.2 else (r.1, l.2) in
  (fac_mul l.1 fpj, if b <? terms then fac_mul fg1 r.2 else fg1).

Fixpoint bs_fac (fset : Z → Z → res fac_t) (fuel : nat)
    (a b terms level : Z) : res (fac_t * fac_t) :=
  match fuel with
  | O => OutOfFuel
  | S fuel =>
      if wrap (b - a) =? 1 then leaf_facs fset b
      else
        mid ← bs_mid a b;
        l ← bs_fac fset fuel a mid terms (wrap (level + 1));
        r ← bs_fac fset fuel mid b terms (wrap (level + 1));
        Ok (node_facs b terms level l r)
  end.

(** ** Factoring without the sieve

    [is_prime] tests by trial division up to the square root; [fac_wf_b]
    decides [fac_wf]; [trial] factors an odd number by trial division, and
    [fac_canon] returns the factored form of [v^pw] after checking it, for
    an odd [v] in [1, n] and an exponent that the chain walk can scale. *)
Definition is_prime (x : Z) : bool :=
  (1 <? x) &&
  forallb (λ k, negb (x mod k =? 0)) (seqZ 2 (Z.sqrt x - 1)).

Fixpoint increasing (l : list Z) : bool :=
  match l with
  | x :: (y :: _) as l' => (x <? y) && increasing l'
  | _ => true
  end.

Definition fac_wf_b (f : fac_t) : bool :=
  increasing (facs f) &&
  forallb (λ x, is_prime x.1 && (x.1 <? uint_mod) &&
                (0 <? x.2) && (x.2 <? uint_mod)) f.

Definition bump (d : Z) (f : fac_t) : fac_t :=
  match f with
  | (x, e) :: f' => if x =? d then (x, e + 1) :: f' else (d, 1) :: f
  | [] => [(d, 1)]
  end.

Fixpoint trial (fuel : nat) (v d : Z) : fac_t :=
  match fuel with
  | O => []
  | S fuel =>
      if v <=? 1 then []
      else if v <? d * d then [(v, 1)]
      else if v mod d =? 0 then bump d (trial fuel (v / d) d)
      else trial fuel v (d + 2)
  end.

Definition fac_canon (n v pw : Z) : res fac_t :=
  let f := map (λ x, (x.1, x.2 * pw)) (trial (Z.to_nat v) v 3) in
  if Z.odd v && (1 <=? v) && (v <=? n) && (0 <? pw) && (pw <=? 2 ^ 27) &&
     fac_wf_b f && (eval f =? v ^ pw)
  then Ok f else Undef.

(** The exponent of [x] in the [fp] of each of the shards [js] of a run on
    [threads] shards, by [bs_fac] on [fac_canon]. *)
Fixpoint shard_pows (x n terms threads level : Z) (js : list Z)
  : res (list Z) :=
  match js with
  | [] => Ok []
  | j :: js =>
      let a := shard_lo terms threads j in
      let b := shard_lo terms threads (j + 1) in
      f ← bs_fac (fac_canon n) (Z.to_nat (b - a)) a b terms level;
      r ← shard_pows x n terms threads level js;
      Ok (pow_of x f.1 :: r)
  end.

Definition sum_list (l : list Z) : Z := fold_right Z.add 0 l.

(** [n!], for the bounds on exponents. *)
Fixpoint zfact (n : nat) : Z :=
  match n with
  | O => 1
  | S m => Z.of_nat (S m) * zfact m
  end.

(** [n] is [x^e] times a number that [x] does not divide. *)
Definition has_val (x n e : Z) : Prop :=
  0 <= e ∧ ∃ c, n = x ^ e * c ∧ ¬ (x | c).

(** A result of [bs_init] on a range, with what holds of it. *)
Definition bs_result (s : list sieve_t) (level : Z) (a b terms : Z)
    (x : tmp_t) : Prop :=
  bs_init false s a b terms level = Ok x ∧ bs_inv a b terms x.

(** ** Storage of a factored integer

    A [fac_t] of the source is a buffer of [max_facs] entries, of which the
    first [num_facs] are in use.  [fac_buf] keeps the capacity beside the
    entries in use.  A store at an index that is not below the capacity of
    the buffer is undefined behaviour; [malloc] is taken to succeed.  The
    functions [.._in] are those of the source with their stores checked. *)
Definition INIT_FACS : Z := 32.

Record fac_buf : Type := FacBuf { max_facs : Z; ents : fac_t }.

Definition num_facs (f : fac_buf) : Z := Z.of_nat (length (ents f)).

Definition fac_reset (f : fac_buf) : fac_buf := FacBuf (max_facs f) [].

Definition fac_init_size (s : Z) : fac_buf :=
  let s := if s <? INIT_FACS then INIT_FACS else s in
  fac_reset (FacBuf s []).

Definition fac_init : fac_buf := fac_init_size INIT_FACS.

(** [fac_resize]: a buffer that is too small is freed and allocated anew,
    which empties it. *)
Definition fac_resize (f : fac_buf) (s : Z) : fac_buf :=
  if max_facs f <? s then fac_init_size s else f.

(** A store into entry [k] of a buffer of capacity [cap]. *)
Definition store (cap k : Z) : res unit :=
  if (0 <=? k) && (k <? cap) then Ok () else Undef.

(** The chain walk of [fac_set_bp], storing entry [i] at each step. *)
Fixpoint chain_in (fuel : nat) (s : list sieve_t) (cap i base pw : Z)
  : res fac_t :=
  match fuel with
  | O => OutOfFuel
  | S fuel =>
      if 0 <? base then
        e ← tbl_get s base;
        _ ← store cap i;
        r ← chain_in fuel s cap (wrap (i + 1)) (nxt e) pw;
        Ok ((fac e, wrap (pow e * pw)) :: r)
      else Ok []
  end.

Definition fac_set_bp_in (s : list sieve_t) (f : fac_buf) (base pw : Z)
  : res fac_buf :=
  r ← chain_in (S (length s)) s (max_facs f) 0 (base / 2) pw;
  Ok (FacBuf (max_facs f) r).

(** The second and third loop of [fac_mul2]: the rest of one input is
    copied to the entries from [k] on. *)
Fixpoint copy_in (cap k : Z) (l : fac_t) : res fac_t :=
  match l with
  | [] => Ok []
  | x :: l' =>
      _ ← store cap k; r ← copy_in cap (wrap (k + 1)) l'; Ok (x :: r)
  end.

(** [fac_mul2] into a buffer of capacity [cap], from entry [k] on. *)
Fixpoint fac_mul2_in (cap k : Z) (f g : fac_t) {struct f} : res fac_t :=
  match f with
  | [] => copy_in cap k g
  | (p, e) :: f' =>
      (fix merge_g (k : Z) (g : fac_t) {struct g} : res fac_t :=
         match g with
         | [] => copy_in cap k f
         | (q, d) :: g' =>
             _ ← store cap k;
             if p =? q then
               r ← fac_mul2_in cap (wrap (k + 1)) f' g';
               Ok ((p, wrap (e + d)) :: r)
             else if p <? q then
               r ← fac_mul2_in cap (wrap (k + 1)) f' g;
               Ok ((p, e) :: r)
             else
               r ← merge_g (wrap (k + 1)) g';
               Ok ((q, d) :: r)
         end) k g
  end.

(** [fac_mul (f, g, fmul)]: [fmul] is resized to the sum of the two
    lengths, receives the product, and is swapped with [f]; the result is
    the new [f] and the new [fmul]. *)
Definition fac_mul_in (f g fmul : fac_buf) : res (fac_buf * fac_buf) :=
  let fmul := fac_resize fmul (wrap (num_facs f + num_facs g)) in
  r ← fac_mul2_in (max_facs fmul) 0 (ents f) (ents g);
  Ok (FacBuf (max_facs fmul) r, f).

(** [fac_mul_bp (f, base, pow, ftmp, fmul)]: the new [f], [ftmp] and
    [fmul]. *)
Definition fac_mul_bp_in (s : list sieve_t) (f : fac_buf) (base pw : Z)
    (ftmp fmul : fac_buf) : res (fac_buf * fac_buf * fac_buf) :=
  ftmp ← fac_set_bp_in s ftmp base pw;
  '(f, fmul) ← fac_mul_in f ftmp fmul;
  Ok (f, ftmp, fmul).

(** ** [commify]: a number with thousands separators

    [retbuf] has [__MAXDIGITS] bytes; [p] starts at its last byte, which
    holds the terminator, and every [*--p = c] moves it one byte down: the
    text is built from its last character to its first, and a store below
    the buffer is undefined.  [comma] is the separator of the locale, or a
    comma. *)
Definition MAXDIGITS : Z := 8 * 8 * 1 / 3 + 2.

Definition digit_char (d : Z) : ascii := ascii_of_nat (48 + Z.to_nat d).

(** [*--p = c], [p] being an index into [retbuf] and [out] the text from
    [p] on. *)
Definition push (p : Z) (c : ascii) (out : list ascii)
  : res (Z * list ascii) :=
  if 0 <? p then Ok (p - 1, c :: out) else Undef.

(** [do { ... } while (n != 0)]. *)
Fixpoint commify_loop (fuel : nat) (comma : ascii) (p i n : Z)
    (out : list ascii) : res (list ascii) :=
  match fuel with
  | O => OutOfFuel
  | S fuel =>
      '(p, out) ← (if (i mod 3 =? 0) && negb (i =? 0) then push p comma out
                   else Ok (p, out));
      '(p, out) ← push p (digit_char (n mod 10)) out;
      if n / 10 =? 0 then Ok out
      else commify_loop fuel comma p (i + 1) (n / 10) out
  end.

(** [commify (n)] for a 64-bit [n], which has 20 digits at most. *)
Definition commify (comma : ascii) (n : Z) : res (list ascii) :=
  commify_loop 20 comma (MAXDIGITS - 1) 0 n [].

(** Reading a text back: the number that its digits spell, the separators
    left out. *)
Definition digit_val (c : ascii) : Z := Z.of_nat (nat_of_ascii c) - 48.

Fixpoint decimal (comma : ascii) (s : list ascii) (acc : Z) : Z :=
  match s with
  | [] => acc
  | c :: s =>
      if Ascii.eqb c comma then decimal comma s acc
      else decimal comma s (10 * acc + digit_val c)
  end.

(** * Proofs *)

(** ** The result monad *)

Lemma bind_ok {X Y} (m : res X) (k : X → res Y) y :
  (x ← m; k x) = Ok y ↔ ∃ x, m = Ok x ∧ k x = Ok y.
Proof.
  destruct m; cbn; split; try (intros (? & [=] & _); fail); try discriminate.
  - intros H. eauto.
  - intros (? & [= <-] & H). exact H.
Qed.

(** No digit count gives more than [MAX_DIGITS / 14] terms. *)
Lemma terms_small terms :
  150 * terms < uint_mod → terms <= MAX_DIGITS / 14.
Proof.
  change (MAX_DIGITS / 14) with 714285714. change uint_mod with 4294967296.
  lia.
Qed.

Lemma wrap_small x : is_uint x → wrap x = x.
Proof. intros H. apply Z.mod_small. exact H. Qed.

Lemma wrap_range x : is_uint (wrap x).
Proof. apply Z.mod_pos_bound. reflexivity. Qed.

Lemma uint_mod_eq : uint_mod = 4294967296.
Proof. reflexivity. Qed.

(** ** Factored integers: [fac_mul2] *)

(** An induction principle that follows the merge. *)
Lemma fac_merge_ind (P : fac_t → fac_t → Prop) :
  (∀ g, P [] g) →
  (∀ f, P f []) →
  (∀ p e f q d g,
      (p = q → P f g) →
      (p < q → P f ((q, d) :: g)) →
      (q < p → P ((p, e) :: f) g) →
      P ((p, e) :: f) ((q, d) :: g)) →
  ∀ f g, P f g.
Proof.
  intros Hnil_l Hnil_r Hstep.
  intros f. induction f as [|[p e] f IHf]; [exact Hnil_l|].
  intros g. induction g as [|[q d] g IHg]; [apply Hnil_r|].
  apply Hstep; intros; [apply IHf | apply IHf | apply IHg].
Qed.

Ltac merge_induction f g :=
  revert f g;
  match goal with |- ∀ f g, @?P f g => apply (fac_merge_ind P) end.

Section FacMul.

Lemma fac_mul2_nil_r f : fac_mul2 f [] = f.
Proof. destruct f as [|[p e] f]; reflexivity. Qed.

Lemma fac_mul2_cons p e f q d g :
  fac_mul2 ((p, e) :: f) ((q, d) :: g) =
    if p =? q then (p, wrap (e + d)) :: fac_mul2 f g
    else if p <? q then (p, e) :: fac_mul2 f ((q, d) :: g)
    else (q, d) :: fac_mul2 ((p, e) :: f) g.
Proof. reflexivity. Qed.

Lemma fac_mul2_comm f g : fac_mul2 f g = fac_mul2 g f.
Proof.
  merge_induction f g.
  - intros g. symmetry. apply fac_mul2_nil_r.
  - intros f. apply fac_mul2_nil_r.
  - intros p e f q d g Heq Hlt Hgt.
    rewrite !fac_mul2_cons.
    destruct (Z.eqb_spec p q) as [->|Hne].
    + rewrite Z.eqb_refl, (Z.add_comm d e), Heq by reflexivity. reflexivity.
    + destruct (Z.eqb_spec q p) as [->|_]; [congruence|].
      destruct (Z.ltb_spec p q) as [Hpq|Hpq].
      * destruct (Z.ltb_spec q p); [lia|]. rewrite Hlt by lia. reflexivity.
      * destruct (Z.ltb_spec q p); [|lia]. rewrite Hgt by lia. reflexivity.
Qed.

Lemma pow_sums_fit_tl_l x f g : pow_sums_fit (x :: f) g → pow_sums_fit f g.
Proof. intros H y e d Hf Hg. apply (H y); [right|]; assumption. Qed.

Lemma pow_sums_fit_tl_r x f g : pow_sums_fit f (x :: g) → pow_sums_fit f g.
Proof. intros H y e d Hf Hg. apply (H y); [|right]; assumption. Qed.

Lemma eval_fac_mul2 f g :
  pows_nonneg f → pows_nonneg g → pow_sums_fit f g →
  eval (fac_mul2 f g) = eval f * eval g.
Proof.
  merge_induction f g.
  - intros g ? ? ?. cbn [fac_mul2 eval]. lia.
  - intros f ? ? ?. rewrite fac_mul2_nil_r. cbn [eval]. lia.
  - intros p e f q d g Heq Hlt Hgt Hf Hg Hfit.
    pose proof (Forall_inv Hf) as He. pose proof (Forall_inv Hg) as Hd.
    pose proof (Forall_inv_tail Hf) as Hf'.
    pose proof (Forall_inv_tail Hg) as Hg'.
    cbn [fst snd] in He, Hd.
    rewrite fac_mul2_cons.
    destruct (Z.eqb_spec p q) as [->|Hne].
    + cbn [eval]. rewrite Heq; auto.
      * rewrite wrap_small, Z.pow_add_r by
          (first [lia | split; [lia | apply (Hfit q); left; reflexivity]]).
        ring.
      * eapply pow_sums_fit_tl_l, pow_sums_fit_tl_r, Hfit.
    + destruct (Z.ltb_spec p q) as [Hpq|Hpq]; cbn [eval].
      * rewrite Hlt; auto; [cbn [eval]; ring|].
        eapply pow_sums_fit_tl_l, Hfit.
      * rewrite Hgt; auto; [cbn [eval]; ring|lia|].
        eapply pow_sums_fit_tl_r, Hfit.
Qed.

(** Every entry of the product comes from an input, or is the sum of two
    entries with the same factor. *)
Lemma in_fac_mul2 f g x c :
  In (x, c) (fac_mul2 f g) →
  In (x, c) f ∨ In (x, c) g ∨
  ∃ e d, In (x, e) f ∧ In (x, d) g ∧ c = wrap (e + d).
Proof.
  merge_induction f g.
  - intros g H. cbn in H. auto.
  - intros f H. rewrite fac_mul2_nil_r in H. auto.
  - intros p e f q d g Heq Hlt Hgt. rewrite fac_mul2_cons.
    destruct (Z.eqb_spec p q) as [->|Hne].
    + intros [[= <- <-]|H].
      * right; right. exists e, d. cbn. auto.
      * destruct (Heq eq_refl H) as [?|[?|(e' & d' & ? & ? & ?)]];
          cbn; eauto 10.
    + destruct (Z.ltb_spec p q) as [Hpq|Hpq].
      * intros [[= <- <-]|H]; [cbn; auto|].
        destruct (Hlt Hpq H) as [?|[?|(e' & d' & ? & ? & ?)]];
          cbn; eauto 10.
      * intros [[= <- <-]|H]; [cbn; auto|].
        destruct (Hgt ltac:(lia) H) as [?|[?|(e' & d' & ? & ? & ?)]];
          cbn; eauto 10.
Qed.

Lemma facs_fac_mul2_lb x f g :
  Forall (Z.lt x) (facs f) → Forall (Z.lt x) (facs g) →
  Forall (Z.lt x) (facs (fac_mul2 f g)).
Proof.
  intros Hf Hg. apply List.Forall_forall. intros y Hy.
  apply in_map_iff in Hy as ([y' c] & <- & Hin).
  rewrite List.Forall_forall in Hf, Hg.
  apply in_fac_mul2 in Hin as [H|[H|(e & d & H & _ & _)]].
  - apply Hf, in_map_iff. exists (y', c). auto.
  - apply Hg, in_map_iff. exists (y', c). auto.
  - apply Hf, in_map_iff. exists (y', e). auto.
Qed.

Lemma sorted_fac_mul2 f g :
  StronglySorted Z.lt (facs f) → StronglySorted Z.lt (facs g) →
  StronglySorted Z.lt (facs (fac_mul2 f g)).
Proof.
  merge_induction f g.
  - intros g ? H. exact H.
  - intros f H ?. rewrite fac_mul2_nil_r. exact H.
  - intros p e f q d g Heq Hlt Hgt Hf Hg.
    pose proof Hf as Hf0. pose proof Hg as Hg0.
    cbn [facs map fst] in Hf, Hg.
    apply StronglySorted_inv in Hf as [Hf Hpf].
    apply StronglySorted_inv in Hg as [Hg Hqg].
    rewrite fac_mul2_cons.
    destruct (Z.eqb_spec p q) as [->|Hne].
    + cbn [facs map fst]. constructor; [auto|].
      apply facs_fac_mul2_lb; assumption.
    + destruct (Z.ltb_spec p q) as [Hpq|Hpq]; cbn [facs map fst]; constructor.
      * apply Hlt; assumption.
      * apply facs_fac_mul2_lb; [assumption|].
        cbn [facs map fst]. constructor; [assumption|].
        eapply List.Forall_impl; [|exact Hqg]. cbn beta. intros; lia.
      * apply Hgt; [lia | assumption..].
      * apply facs_fac_mul2_lb; [|assumption].
        cbn [facs map fst]. constructor; [lia|].
        eapply List.Forall_impl; [|exact Hpf]. cbn beta. intros; lia.
Qed.

Lemma fac_wf_mul2 f g :
  fac_wf f → fac_wf g → pow_sums_fit f g → fac_wf (fac_mul2 f g).
Proof.
  intros [Sf Pf Ef] [Sg Pg Eg] Hfit. split.
  - apply sorted_fac_mul2; assumption.
  - apply List.Forall_forall. intros [x c] Hin.
    rewrite List.Forall_forall in Pf, Pg.
    apply in_fac_mul2 in Hin as [H|[H|(e & d & H & _ & _)]].
    + apply (Pf _ H).
    + apply (Pg _ H).
    + apply (Pf _ H).
  - apply List.Forall_forall. intros [x c] Hin.
    rewrite List.Forall_forall in Ef, Eg.
    apply in_fac_mul2 in Hin as [H|[H|(e & d & H1 & H2 & ->)]].
    + apply (Ef _ H).
    + apply (Eg _ H).
    + specialize (Ef _ H1). specialize (Eg _ H2). cbn in *.
      specialize (Hfit _ _ _ H1 H2).
      rewrite wrap_small by (split; lia). lia.
Qed.

Lemma fac_wf_pows_nonneg f : fac_wf f → pows_nonneg f.
Proof.
  intros [_ _ H]. eapply List.Forall_impl; [|exact H]. cbn. intros; lia.
Qed.

End FacMul.
(** ** Factored integers: evaluation, compaction, tree product *)

Section FacEval.

Lemma eval_app f g : eval (f ++ g) = eval f * eval g.
Proof.
  induction f as [|[x e] f IH]; cbn [eval app]; [lia|]. rewrite IH. ring.
Qed.

Lemma eval_pos f :
  Forall (λ x, 0 < x.1) f → pows_nonneg f → 0 < eval f.
Proof.
  induction 1 as [|[x e] f Hx _ IH]; cbn [eval]; [lia|].
  intros He. cbn in Hx. pose proof (Forall_inv He) as He0. cbn in He0.
  apply Z.mul_pos_pos; [|apply IH, (Forall_inv_tail He)].
  apply Z.pow_pos_nonneg; lia.
Qed.

Lemma fac_wf_facs_pos f : fac_wf f → Forall (λ x, 0 < x.1) f.
Proof.
  intros [_ H _]. eapply List.Forall_impl; [|exact H].
  intros x [Hx _]. apply Z.prime_ge_2 in Hx. lia.
Qed.

Lemma iter_mul (x e r : Z) :
  0 <= e → Z.iter e (λ r, r * x) r = r * x ^ e.
Proof.
  intros He. destruct e as [|e|e]; [cbn; lia| |lia].
  unfold Z.iter. induction e as [|e IH] using Pos.peano_ind.
  - cbn. lia.
  - rewrite Pos.iter_succ, IH by lia.
    rewrite Pos2Z.inj_succ, Z.pow_succ_r by lia. ring.
Qed.

Lemma in_fac_compact f x e :
  In (x, e) (fac_compact f) ↔ In (x, e) f ∧ 0 < e.
Proof.
  induction f as [|[y d] f IH]; cbn [fac_compact In]; [tauto|].
  destruct (Z.ltb_spec 0 d); cbn [In]; rewrite IH; split.
  - intros [[= <- <-]|[? ?]]; auto.
  - intros [[[= <- <-]|?] ?]; auto.
  - intros [? ?]; auto.
  - intros [[[= <- <-]|?] ?]; [lia|auto].
Qed.

Lemma eval_fac_compact f : pows_nonneg f → eval (fac_compact f) = eval f.
Proof.
  induction 1 as [|[y d] f Hd _ IH]; cbn [fac_compact eval]; [reflexivity|].
  cbn in Hd.
  destruct (Z.ltb_spec 0 d); cbn [eval]; rewrite IH; [reflexivity|].
  replace d with 0 by lia. rewrite Z.pow_0_r. lia.
Qed.

Lemma facs_fac_compact_sorted f :
  StronglySorted Z.lt (facs f) → StronglySorted Z.lt (facs (fac_compact f)).
Proof.
  induction f as [|[y d] f IH]; cbn [fac_compact facs map fst]; [auto|].
  intros H. apply StronglySorted_inv in H as [Hs Hy].
  destruct (Z.ltb_spec 0 d); [|auto].
  cbn [facs map fst]. constructor; [auto|].
  apply List.Forall_forall. intros x Hx.
  apply in_map_iff in Hx as ([x' e] & <- & Hin).
  apply in_fac_compact in Hin as [Hin _].
  rewrite List.Forall_forall in Hy. apply Hy.
  apply in_map_iff. exists (x', e). auto.
Qed.

End FacEval.

(** ** Factored integers: the tree product [bs_mul] *)

Section BsMul.

Lemma fac_get_ok (l : fac_t) a x :
  0 <= a → l !! Z.to_nat a = Some x → fac_get l a = Ok x.
Proof.
  intros Ha Hx. unfold fac_get.
  destruct (Z.ltb_spec a 0); [lia|]. rewrite Hx. reflexivity.
Qed.

Lemma sub_nil l a : sub l a a = [].
Proof. unfold sub. rewrite Z.sub_diag. reflexivity. Qed.

Lemma sub_cons (l : fac_t) a b x :
  0 <= a < b → l !! Z.to_nat a = Some x → sub l a b = x :: sub l (a + 1) b.
Proof.
  intros Hab Hx. unfold sub.
  replace (Z.to_nat (b - a)) with (S (Z.to_nat (b - (a + 1)))) by lia.
  replace (Z.to_nat (a + 1)) with (S (Z.to_nat a)) by lia.
  rewrite (drop_S _ _ _ Hx). reflexivity.
Qed.

Lemma sub_split l a m b :
  0 <= a <= m → m <= b → sub l a b = sub l a m ++ sub l m b.
Proof.
  intros Ham Hmb. unfold sub.
  replace (drop (Z.to_nat m) l)
    with (drop (Z.to_nat (m - a)) (drop (Z.to_nat a) l)).
  - rewrite take_take_drop. f_equal. lia.
  - rewrite drop_drop. f_equal. lia.
Qed.

Lemma sub_all l : sub l 0 (Z.of_nat (length l)) = l.
Proof.
  unfold sub. cbn [Z.to_nat drop]. apply take_ge. lia.
Qed.

Lemma bs_mul_lin_ok (l : fac_t) :
  pows_nonneg l →
  ∀ fuel a b r,
    0 <= a <= b → b <= Z.of_nat (length l) → b < uint_mod →
    (Z.to_nat (b - a) < fuel)%nat →
    bs_mul_lin fuel a b l r = Ok (r * eval (sub l a b)).
Proof.
  intros Hl fuel. induction fuel as [|fuel IH]; intros a b r Hab Hb Hu Hf.
  - lia.
  - cbn [bs_mul_lin]. destruct (Z.ltb_spec a b) as [Hlt|Hge].
    + destruct (lookup_lt_is_Some_2 l (Z.to_nat a)) as [x Hx]; [lia|].
      rewrite (fac_get_ok _ _ _ (proj1 Hab) Hx). cbn [mbind res_bind].
      rewrite wrap_small by (unfold is_uint; lia).
      rewrite IH by lia.
      rewrite (sub_cons _ _ _ _ (conj (proj1 Hab) Hlt) Hx).
      assert (0 <= x.2) as Hx2.
      { unfold pows_nonneg in Hl. rewrite List.Forall_forall in Hl.
        apply Hl. eapply list_elem_of_In, list_elem_of_lookup_2, Hx. }
      rewrite iter_mul by exact Hx2.
      destruct x as [y e]. cbn [eval fst snd]. f_equal. ring.
    + replace b with a by lia. rewrite sub_nil. cbn [eval]. f_equal. lia.
Qed.

Lemma bs_mul_ok (l : fac_t) :
  pows_nonneg l →
  ∀ fuel a b,
    0 <= a <= b → b <= Z.of_nat (length l) → b <= 2 ^ 31 →
    (Z.to_nat (b - a) < fuel)%nat →
    bs_mul fuel a b l = Ok (eval (sub l a b)).
Proof.
  intros Hl fuel. induction fuel as [|fuel IH]; intros a b Hab Hb Hu Hf.
  - lia.
  - cbn [bs_mul]. pose proof uint_mod_eq as HU.
    rewrite (wrap_small (b - a)) by (unfold is_uint; lia).
    destruct (Z.leb_spec (b - a) 32) as [Hs|Hs].
    + rewrite bs_mul_lin_ok by (first [assumption | lia]).
      f_equal. lia.
    + rewrite (wrap_small (a + b)) by (unfold is_uint; lia).
      assert (a < (a + b) / 2 < b) as Hm
          by (Z.to_euclidean_division_equations; lia).
      rewrite !IH by lia. cbn [mbind res_bind].
      rewrite (sub_split l a ((a + b) / 2) b) by lia.
      rewrite eval_app. f_equal. ring.
Qed.

End BsMul.

(** ** Factored integers: the scan of [fac_remove_gcd] *)

Lemma gcd_scan_nil_r fp : gcd_scan fp [] = (fp, [], []).
Proof. destruct fp as [|[x e] fp]; reflexivity. Qed.

Lemma gcd_scan_cons x e f y d h :
  gcd_scan ((x, e) :: f) ((y, d) :: h) =
    if x =? y then
      let c := Z.min e d in
      let '(rp, rg, m) := gcd_scan f h in
      ((x, wrap (e - c)) :: rp, (y, wrap (d - c)) :: rg, (x, c) :: m)
    else if x <? y then
      let '(rp, rg, m) := gcd_scan f ((y, d) :: h) in
      ((x, e) :: rp, rg, m)
    else
      let '(rp, rg, m) := gcd_scan ((x, e) :: f) h in
      (rp, (y, d) :: rg, m).
Proof. reflexivity. Qed.

(** Case analysis on one step of the scan. *)
Ltac scan_step Heq Hlt Hgt H :=
  rewrite gcd_scan_cons in H;
  match type of H with
  | context [?x =? ?y] =>
      destruct (Z.eqb_spec x y) as [?|?];
      [ subst;
        match type of H with
        | context [gcd_scan ?f ?h] =>
            destruct (gcd_scan f h) as [[? ?] ?] eqn:?
        end;
        specialize (Heq eq_refl _ _ _ eq_refl)
      | destruct (Z.ltb_spec x y);
        [ match type of H with
          | context [gcd_scan ?f ?h] =>
              destruct (gcd_scan f h) as [[? ?] ?] eqn:?
          end;
          specialize (Hlt ltac:(lia) _ _ _ eq_refl)
        | match type of H with
          | context [gcd_scan ?f ?h] =>
              destruct (gcd_scan f h) as [[? ?] ?] eqn:?
          end;
          specialize (Hgt ltac:(lia) _ _ _ eq_refl) ] ]
  end;
  cbn zeta in H; injection H as <- <- <-.

Section FacGcd.

Lemma gcd_scan_facs fp fg rp rg m :
  gcd_scan fp fg = (rp, rg, m) →
  facs rp = facs fp ∧ facs rg = facs fg ∧
  (∀ x c, In (x, c) m → In x (facs fp)) ∧
  (length m <= length fp)%nat.
Proof.
  revert rp rg m. merge_induction fp fg.
  - intros h rp rg m [= <- <- <-]. cbn. intuition lia.
  - intros f rp rg m H. rewrite gcd_scan_nil_r in H.
    injection H as <- <- <-. cbn. intuition lia.
  - intros x e f y d h Heq Hlt Hgt rp rg m H.
    scan_step Heq Hlt Hgt H.
    + destruct Heq as (E1 & E2 & Hm & Hlen).
      unfold facs in *; cbn [map fst length] in *. rewrite E1, E2.
      repeat split; [|lia]. intros z c [[= <- <-]|Hin]; cbn; eauto.
    + destruct Hlt as (E1 & E2 & Hm & Hlen).
      unfold facs in *; cbn [map fst length] in *. rewrite E1, E2.
      repeat split; [|lia]. intros z c Hin; cbn; eauto.
    + destruct Hgt as (E1 & E2 & Hm & Hlen).
      unfold facs in *; cbn [map fst length] in *. rewrite E1, E2.
      repeat split; [|lia]. exact Hm.
Qed.

Lemma gcd_scan_unchanged fp fg rp rg :
  gcd_scan fp fg = (rp, rg, []) → rp = fp ∧ rg = fg.
Proof.
  revert rp rg. merge_induction fp fg.
  - intros h rp rg [= <- <-]. auto.
  - intros f rp rg H. rewrite gcd_scan_nil_r in H.
    injection H as <- <-. auto.
  - intros x e f y d h Heq Hlt Hgt rp rg H.
    rewrite gcd_scan_cons in H.
    destruct (Z.eqb_spec x y) as [->|Hne].
    + destruct (gcd_scan f h) as [[? ?] ?]. discriminate.
    + destruct (Z.ltb_spec x y).
      * destruct (gcd_scan f ((y, d) :: h)) as [[rp' rg'] m'] eqn:E.
        injection H as <- <- ->.
        destruct (Hlt ltac:(lia) _ _ eq_refl) as [-> ->]. auto.
      * destruct (gcd_scan ((x, e) :: f) h) as [[rp' rg'] m'] eqn:E.
        injection H as <- <- ->.
        destruct (Hgt ltac:(lia) _ _ eq_refl) as [-> ->]. auto.
Qed.

Lemma pows_uint_nonneg f : pows_uint f → pows_nonneg f.
Proof.
  intros H. eapply List.Forall_impl; [|exact H].
  unfold is_uint. cbn beta. intros; lia.
Qed.

Lemma gcd_scan_eval fp fg rp rg m :
  gcd_scan fp fg = (rp, rg, m) →
  pows_uint fp → pows_uint fg →
  eval fp = eval rp * eval m ∧ eval fg = eval rg * eval m ∧
  pows_uint rp ∧ pows_uint rg ∧ pows_nonneg m.
Proof.
  revert rp rg m. merge_induction fp fg.
  - intros h rp rg m [= <- <- <-] ? ?. cbn [eval].
    repeat split; try lia; auto; constructor.
  - intros f rp rg m H ? ?. rewrite gcd_scan_nil_r in H.
    injection H as <- <- <-. cbn [eval].
    repeat split; try lia; auto; constructor.
  - intros x e f y d h Heq Hlt Hgt rp rg m H Hf Hh.
    pose proof (Forall_inv Hf) as He. pose proof (Forall_inv Hh) as Hd.
    pose proof (Forall_inv_tail Hf) as Hf'.
    pose proof (Forall_inv_tail Hh) as Hh'.
    cbn [fst snd] in He, Hd. unfold is_uint in He, Hd.
    scan_step Heq Hlt Hgt H.
    + destruct (Heq Hf' Hh') as (E1 & E2 & U1 & U2 & N).
      rewrite !wrap_small by (unfold is_uint; lia).
      cbn [eval]. rewrite E1, E2.
      repeat split.
      * replace (y ^ e) with (y ^ (e - Z.min e d) * y ^ Z.min e d)
          by (rewrite <- Z.pow_add_r by lia; f_equal; lia).
        ring.
      * replace (y ^ d) with (y ^ (d - Z.min e d) * y ^ Z.min e d)
          by (rewrite <- Z.pow_add_r by lia; f_equal; lia).
        ring.
      * constructor; [cbn; unfold is_uint; lia | exact U1].
      * constructor; [cbn; unfold is_uint; lia | exact U2].
      * constructor; [cbn; lia | exact N].
    + destruct (Hlt Hf' Hh) as (E1 & E2 & U1 & U2 & N).
      cbn [eval]. rewrite E1.
      repeat split; [ring | exact E2 | | exact U2 | exact N].
      constructor; [exact (Forall_inv Hf) | exact U1].
    + destruct (Hgt Hf Hh') as (E1 & E2 & U1 & U2 & N).
      cbn [eval]. rewrite E2.
      repeat split; [exact E1 | ring | exact U1 | | exact N].
      constructor; [exact (Forall_inv Hh) | exact U2].
Qed.

Lemma in_facs (f : fac_t) x e : In (x, e) f → In x (facs f).
Proof. intros H. apply in_map_iff. exists (x, e). auto. Qed.

Lemma sorted_head_lt x (l : list Z) y :
  StronglySorted Z.lt (x :: l) → In y l → x < y.
Proof.
  intros H Hy. apply StronglySorted_inv in H as [_ H].
  rewrite List.Forall_forall in H. auto.
Qed.

Lemma gcd_scan_disjoint fp fg rp rg m :
  gcd_scan fp fg = (rp, rg, m) →
  StronglySorted Z.lt (facs fp) → StronglySorted Z.lt (facs fg) →
  pows_uint fp → pows_uint fg →
  ∀ x e' d', In (x, e') rp → In (x, d') rg → e' = 0 ∨ d' = 0.
Proof.
  revert rp rg m. merge_induction fp fg.
  - intros h rp rg m [= <- <- <-] ? ? ? ? x e' d' [].
  - intros f rp rg m H ? ? ? ?. rewrite gcd_scan_nil_r in H.
    injection H as <- <- <-. intros x e' d' _ [].
  - intros x e f y d h Heq Hlt Hgt rp rg m H Sf Sh Uf Uh.
    pose proof (Forall_inv Uf) as He. pose proof (Forall_inv Uh) as Hd.
    pose proof (Forall_inv_tail Uf) as Uf'.
    pose proof (Forall_inv_tail Uh) as Uh'.
    cbn [fst snd] in He, Hd. unfold is_uint in He, Hd.
    pose proof Sf as Sf0. pose proof Sh as Sh0.
    cbn [facs map fst] in Sf, Sh.
    pose proof (StronglySorted_inv Sf) as [Sf' _].
    pose proof (StronglySorted_inv Sh) as [Sh' _].
    scan_step Heq Hlt Hgt H.
    + match goal with E : gcd_scan f h = _ |- _ =>
        destruct (gcd_scan_facs _ _ _ _ _ E) as (F1 & F2 & _) end.
      rewrite !wrap_small by (unfold is_uint; lia).
      intros z e' d' [E1|H1] [E2|H2].
      * injection E1 as <- <-. injection E2 as <-. lia.
      * injection E1 as <- <-. apply in_facs in H2. rewrite F2 in H2.
        pose proof (sorted_head_lt _ _ _ Sh H2). lia.
      * injection E2 as <- <-. apply in_facs in H1. rewrite F1 in H1.
        pose proof (sorted_head_lt _ _ _ Sf H1). lia.
      * eapply Heq; eauto.
    + match goal with E : gcd_scan f _ = _ |- _ =>
        destruct (gcd_scan_facs _ _ _ _ _ E) as (F1 & F2 & _) end.
      intros z e' d' [[= <- <-]|H1] H2.
      * apply in_facs in H2. rewrite F2 in H2. cbn [facs map fst] in H2.
        destruct H2 as [<-|H2]; [lia|].
        pose proof (sorted_head_lt _ _ _ Sh H2). lia.
      * eapply Hlt; eauto.
    + match goal with E : gcd_scan _ h = _ |- _ =>
        destruct (gcd_scan_facs _ _ _ _ _ E) as (F1 & F2 & _) end.
      intros z e' d' H1 [[= <- <-]|H2].
      * apply in_facs in H1. rewrite F1 in H1. cbn [facs map fst] in H1.
        destruct H1 as [<-|H1]; [lia|].
        pose proof (sorted_head_lt _ _ _ Sf H1). lia.
      * eapply Hgt; eauto.
Qed.

End FacGcd.

(** ** Factored integers: [fac_remove_gcd] *)

Section FacRemoveGcd.

Lemma pow_of_notin x f : ¬ In x (facs f) → pow_of x f = 0.
Proof.
  induction f as [|[y e] f IH]; cbn [pow_of facs map fst In]; [reflexivity|].
  intros H. destruct (Z.eqb_spec x y) as [->|_]; [tauto|]. apply IH. tauto.
Qed.

Lemma shared_skip f y d h :
  (∀ x, In x (facs f) → x ≠ y) → shared f ((y, d) :: h) = shared f h.
Proof.
  induction f as [|[x e] f IH]; cbn [shared]; [reflexivity|].
  intros H. cbn [pow_of].
  destruct (Z.eqb_spec x y) as [->|_].
  - exfalso. apply (H y); [left|]; reflexivity.
  - rewrite IH; [reflexivity|]. intros z Hz. apply H. right. exact Hz.
Qed.

Lemma gcd_scan_shared fp fg rp rg m :
  gcd_scan fp fg = (rp, rg, m) →
  StronglySorted Z.lt (facs fp) → StronglySorted Z.lt (facs fg) →
  Forall (λ x, 0 < x.2) fg →
  m = shared fp fg.
Proof.
  revert rp rg m. merge_induction fp fg.
  - intros h rp rg m [= <- <- <-] ? ? ?. reflexivity.
  - intros f rp rg m H ? ? ?. rewrite gcd_scan_nil_r in H.
    injection H as <- <- <-.
    induction f as [|[x e] f IH]; [reflexivity|]. cbn [shared pow_of].
    apply IH. match goal with S : StronglySorted _ _ |- _ =>
      apply StronglySorted_inv in S as [S _]; exact S end.
  - intros x e f y d h Heq Hlt Hgt rp rg m H Sf Sh Ph.
    pose proof (Forall_inv Ph) as Hd. cbn [snd] in Hd.
    pose proof (Forall_inv_tail Ph) as Ph'.
    pose proof Sf as Sf0. pose proof Sh as Sh0.
    cbn [facs map fst] in Sf, Sh.
    pose proof (StronglySorted_inv Sf) as [Sf' _].
    pose proof (StronglySorted_inv Sh) as [Sh' _].
    scan_step Heq Hlt Hgt H.
    + cbn [shared pow_of].
      rewrite Z.eqb_refl. destruct (Z.ltb_spec 0 d); [|lia].
      rewrite shared_skip.
      * f_equal. apply Heq; assumption.
      * intros z Hz. pose proof (sorted_head_lt _ _ _ Sf Hz). lia.
    + cbn [shared pow_of].
      destruct (Z.eqb_spec x y); [lia|].
      rewrite pow_of_notin.
      * cbn. apply Hlt; assumption.
      * intros Hin. pose proof (sorted_head_lt _ _ _ Sh Hin). lia.
    + rewrite (shared_skip ((x, e) :: f) y d h).
      * apply Hgt; assumption.
      * intros z [<-|Hz]; [cbn [fst]; lia|].
        pose proof (sorted_head_lt _ _ _ Sf Hz). lia.
Qed.

Lemma prime_odd x : Z.prime x → x = 2 ∨ Z.odd x = true.
Proof.
  intros [H1 H]. destruct (Z.odd x) eqn:E; [auto|left].
  destruct (Z.eq_dec x 2) as [|Hne]; [assumption|exfalso].
  apply (H 2); [lia|].
  rewrite <- Z.negb_even in E. apply negb_false_iff, Z.even_spec in E.
  destruct E as [k ->]. exists k. lia.
Qed.

Lemma sorted_odd_length hi (l : list Z) :
  ∀ lo, StronglySorted Z.lt l →
        Forall (λ x, lo <= x < hi ∧ Z.odd x = true) l →
        2 * Z.of_nat (length l) <= Z.max 0 (hi - lo + 1).
Proof.
  induction l as [|x l IH]; intros lo Hs Hl; cbn [length]; [lia|].
  apply StronglySorted_inv in Hs as [Hs Hx].
  pose proof (Forall_inv Hl) as [Hr Ho].
  apply Forall_inv_tail in Hl.
  specialize (IH (x + 2) Hs).
  assert (Forall (λ y, x + 2 <= y < hi ∧ Z.odd y = true) l) as Hl'.
  { rewrite List.Forall_forall in *. intros y Hy.
    destruct (Hl y Hy) as [Hyr Hyo]. specialize (Hx y Hy).
    apply Z.odd_spec in Ho as [a ->], Hyo as [b ->]. split; [lia|].
    rewrite Z.add_comm, Z.odd_add_mul_2. reflexivity. }
  specialize (IH Hl'). lia.
Qed.

Lemma fac_wf_length f : fac_wf f → Z.of_nat (length f) <= 2 ^ 31.
Proof.
  intros [Hs Hp _]. destruct f as [|[x e] f]; [cbn; lia|].
  cbn [facs map fst] in Hs. apply StronglySorted_inv in Hs as [Hs Hx].
  pose proof (Forall_inv Hp) as [Hx2 _]. apply Z.prime_ge_2 in Hx2.
  apply Forall_inv_tail in Hp. cbn [fst] in Hx2.
  pose proof (sorted_odd_length uint_mod (facs f) 3 Hs) as H.
  unfold facs in H. rewrite length_map in H.
  cbn [length]. rewrite uint_mod_eq in H.
  assert (2 * Z.of_nat (length f) <= 4294967296 - 3 + 1); [|lia].
  etransitivity; [apply H|lia].
  rewrite List.Forall_forall in *. intros y Hy.
  specialize (Hx y Hy). apply in_map_iff in Hy as ([y' c] & <- & Hin).
  destruct (Hp _ Hin) as [Hyp Hyr]. cbn [fst] in *.
  destruct (prime_odd _ Hyp); [lia|]. rewrite uint_mod_eq in Hyr.
  split; [lia|assumption].
Qed.

Lemma divexact_ok n d : d ≠ 0 → (d | n) → divexact n d = Ok (n / d).
Proof.
  intros Hd Hdiv. unfold divexact.
  destruct (Z.eqb_spec d 0); [contradiction|].
  rewrite (Z.mod0_divide _ _ Hdiv). reflexivity.
Qed.

Lemma fac_wf_compact f rp :
  fac_wf f → facs rp = facs f → pows_uint rp → fac_wf (fac_compact rp).
Proof.
  intros [Hs Hp _] Hfacs Hu. split.
  - apply facs_fac_compact_sorted. rewrite Hfacs. exact Hs.
  - apply List.Forall_forall. intros [x e] Hin.
    apply in_fac_compact in Hin as [Hin _]. apply in_facs in Hin.
    rewrite Hfacs in Hin. apply in_map_iff in Hin as ([x' e'] & Hx & Hin).
    cbn [fst] in Hx. subst x'.
    rewrite List.Forall_forall in Hp. apply (Hp _ Hin).
  - apply List.Forall_forall. intros [x e] Hin.
    apply in_fac_compact in Hin as [Hin He].
    unfold pows_uint in Hu. rewrite List.Forall_forall in Hu.
    specialize (Hu _ Hin). unfold is_uint in Hu. cbn [snd] in *. lia.
Qed.

Lemma fac_wf_pows_uint f : fac_wf f → pows_uint f.
Proof.
  intros [_ _ H]. eapply List.Forall_impl; [|exact H].
  unfold is_uint. cbn beta. intros; lia.
Qed.

Lemma fac_wf_pows_pos f : fac_wf f → Forall (λ x, 0 < x.2) f.
Proof.
  intros [_ _ H]. eapply List.Forall_impl; [|exact H].
  cbn beta. intros; lia.
Qed.

Lemma eval_shared_pos fp0 m :
  fac_wf fp0 → (∀ x c, In (x, c) m → In x (facs fp0)) → pows_nonneg m →
  0 < eval m.
Proof.
  intros Hwf Hin Hn. apply eval_pos; [|exact Hn].
  apply List.Forall_forall. intros [x c] Hx.
  apply Hin, in_map_iff in Hx as ([x' e] & <- & Hx).
  pose proof (fac_wf_facs_pos _ Hwf) as Hp.
  rewrite List.Forall_forall in Hp. apply (Hp _ Hx).
Qed.

Lemma in_facs_inv (f : fac_t) x : In x (facs f) → ∃ e, In (x, e) f.
Proof.
  intros H. apply in_map_iff in H as ([x' e] & <- & H). eauto.
Qed.

(** What [fac_remove_gcd] returns on well-formed inputs. *)
Lemma fac_remove_gcd_spec p0 fp0 g0 fg0 :
  fac_wf fp0 → fac_wf fg0 → (eval fp0 | p0) → (eval fg0 | g0) →
  ∃ p' fp' g' fg',
    fac_remove_gcd p0 fp0 g0 fg0 = Ok (p', fp', g', fg') ∧
    0 < eval (shared fp0 fg0) ∧
    p0 = eval (shared fp0 fg0) * p' ∧ g0 = eval (shared fp0 fg0) * g' ∧
    eval fp0 = eval (shared fp0 fg0) * eval fp' ∧
    eval fg0 = eval (shared fp0 fg0) * eval fg' ∧
    fac_wf fp' ∧ fac_wf fg' ∧
    (∀ x, In x (facs fp') → In x (facs fg') → False).
Proof.
  intros Wp Wg Dp Dg. unfold fac_remove_gcd.
  destruct (gcd_scan fp0 fg0) as [[rp rg] m] eqn:E.
  pose proof (fac_wf_pows_uint _ Wp) as Up.
  pose proof (fac_wf_pows_uint _ Wg) as Ug.
  destruct (gcd_scan_facs _ _ _ _ _ E) as (F1 & F2 & Hm & Hlen).
  destruct (gcd_scan_eval _ _ _ _ _ E Up Ug) as (E1 & E2 & U1 & U2 & Nm).
  pose proof (gcd_scan_disjoint _ _ _ _ _ E (wf_sorted _ Wp)
                (wf_sorted _ Wg) Up Ug) as Hdisj.
  pose proof (gcd_scan_shared _ _ _ _ _ E (wf_sorted _ Wp)
                (wf_sorted _ Wg) (fac_wf_pows_pos _ Wg)) as <-.
  pose proof (eval_shared_pos _ _ Wp Hm Nm) as Hpos.
  destruct (Z.eqb_spec (Z.of_nat (length m)) 0) as [Hz|Hnz].
  - destruct m; [|discriminate Hz].
    apply gcd_scan_unchanged in E as [-> ->].
    exists p0, fp0, g0, fg0. cbn [eval].
    repeat match goal with |- _ ∧ _ => split end;
      try reflexivity; try lia; try assumption.
    intros x [e He]%in_facs_inv [d Hd]%in_facs_inv.
    pose proof (fac_wf_pows_pos _ Wp) as Pp.
    pose proof (fac_wf_pows_pos _ Wg) as Pg.
    rewrite List.Forall_forall in Pp, Pg.
    specialize (Pp _ He). specialize (Pg _ Hd). cbn [snd] in Pp, Pg.
    destruct (Hdisj _ _ _ He Hd); lia.
  - pose proof (fac_wf_length _ Wp) as Lp.
    rewrite bs_mul_ok by (first [assumption | lia]).
    rewrite sub_all. cbn [mbind res_bind].
    assert (eval m | p0) as Dmp.
    { etransitivity; [|exact Dp]. exists (eval rp). exact E1. }
    assert (eval m | g0) as Dmg.
    { etransitivity; [|exact Dg]. exists (eval rg). exact E2. }
    rewrite !divexact_ok by (first [assumption | lia]).
    cbn [mbind res_bind].
    exists (p0 / eval m), (fac_compact rp), (g0 / eval m), (fac_compact rg).
    rewrite !eval_fac_compact by (apply pows_uint_nonneg; assumption).
    repeat match goal with |- _ ∧ _ => split end.
    + reflexivity.
    + exact Hpos.
    + destruct Dmp as [k ->]. rewrite Z.div_mul by lia. ring.
    + destruct Dmg as [k ->]. rewrite Z.div_mul by lia. ring.
    + rewrite E1. ring.
    + rewrite E2. ring.
    + apply (fac_wf_compact _ _ Wp F1 U1).
    + apply (fac_wf_compact _ _ Wg F2 U2).
    + intros x [e He]%in_facs_inv [d Hd]%in_facs_inv.
      apply in_fac_compact in He as [He He0], Hd as [Hd Hd0].
      destruct (Hdisj _ _ _ He Hd); lia.
Qed.

End FacRemoveGcd.

(** ** Double-precision arithmetic: rounding is monotone around the
    representable numbers *)

Module DoubleFacts.
Import Double.

(** No multiple of [2^k] by a 53-bit integer lies strictly between two
    neighbours of a grid of step [2^j] above [2^52 * 2^j]. *)
Lemma grid_gap j k Jm c :
  0 <= j → 0 <= k → 0 <= Jm < 2 ^ 53 → 2 ^ 52 <= c →
  c * 2 ^ j < Jm * 2 ^ k → Jm * 2 ^ k < (c + 1) * 2 ^ j → False.
Proof.
  intros Hj Hk HJ Hc H1 H2.
  assert (0 < 2 ^ j) by (apply Z.pow_pos_nonneg; lia).
  assert (0 < 2 ^ k) by (apply Z.pow_pos_nonneg; lia).
  destruct (Z.le_gt_cases j k) as [Hjk|Hjk].
  - assert (2 ^ k = 2 ^ j * 2 ^ (k - j)) as Hk'
        by (rewrite <- Z.pow_add_r by lia; f_equal; lia).
    rewrite Hk' in H1, H2.
    set (X := 2 ^ j) in *. set (Y := Jm * 2 ^ (k - j)).
    assert (c * X < Y * X) as H1' by (unfold Y; lia).
    assert (Y * X < (c + 1) * X) as H2' by (unfold Y; lia).
    apply Z.mul_lt_mono_pos_r in H1', H2'; lia.
  - assert (2 ^ (53 + k) <= 2 ^ (52 + j)) as Hp
      by (apply Z.pow_le_mono_r; lia).
    rewrite !Z.pow_add_r in Hp by lia.
    assert (Jm * 2 ^ k < 2 ^ 53 * 2 ^ k) by (apply Z.mul_lt_mono_pos_r; lia).
    assert (2 ^ 52 * 2 ^ j <= c * 2 ^ j) by (apply Z.mul_le_mono_nonneg_r; lia).
    lia.
Qed.

Lemma round_cases m e :
  0 <= m →
  round m e = mk m e ∨
  ∃ s, 0 < s ∧ 2 ^ 52 <= m / 2 ^ s ∧
       (round m e = mk (m / 2 ^ s) (e + s) ∨
        (round m e = mk (m / 2 ^ s + 1) (e + s) ∧ 0 < m mod 2 ^ s)).
Proof.
  intros Hm. unfold round.
  set (s := Z.log2 m + 1 - prec).
  destruct (Z.leb_spec s 0) as [Hs|Hs]; [left; reflexivity|right].
  exists s. split; [exact Hs|].
  assert (0 < m) as Hm0.
  { destruct (Z.eq_dec m 0) as [->|]; [|lia]. cbn in s. unfold prec in s. lia. }
  assert (0 < 2 ^ s) as Hp by (apply Z.pow_pos_nonneg; lia).
  split.
  - apply Z.div_le_lower_bound; [exact Hp|].
    rewrite <- Z.pow_add_r by lia.
    replace (s + 52) with (Z.log2 m) by (unfold s, prec; lia).
    apply Z.log2_spec. exact Hm0.
  - assert (0 < 2 ^ (s - 1)) by (apply Z.pow_pos_nonneg; lia).
    destruct (Z.ltb_spec (2 ^ (s - 1)) (m mod 2 ^ s)); cbn [orb].
    + right. split; [reflexivity|lia].
    + destruct (Z.eqb_spec (m mod 2 ^ s) (2 ^ (s - 1))); cbn [andb];
        [|left; reflexivity].
      destruct (Z.odd (m / 2 ^ s)); [right|left; reflexivity].
      split; [reflexivity|lia].
Qed.

Section Mono.
  Variables (m e Jm Je E : Z).
  Hypothesis Hm : 0 <= m.
  Hypothesis HJ : 0 <= Jm < 2 ^ 53.
  Hypothesis HEe : E <= e.
  Hypothesis HEJ : E <= Je.

Lemma round_exp_ge : e <= exp (round m e).
  Proof.
    destruct (round_cases m e Hm) as [->|(s & Hs & _ & [->|[-> _]])];
      cbn [exp]; lia.
  Qed.

Lemma round_le :
    m * 2 ^ (e - E) <= Jm * 2 ^ (Je - E) →
    scaled (round m e) E <= Jm * 2 ^ (Je - E).
  Proof.
    intros H. unfold scaled.
    destruct (round_cases m e Hm) as [->|(s & Hs & Hq & Hr)];
      cbn [man exp]; [exact H|].
    assert (0 < 2 ^ s) as Hp by (apply Z.pow_pos_nonneg; lia).
    assert (0 < 2 ^ (e - E)) as HF by (apply Z.pow_pos_nonneg; lia).
    pose proof (Z.div_mod m (2 ^ s) ltac:(lia)) as Hdm.
    pose proof (Z.mod_pos_bound m (2 ^ s) Hp) as Hmod.
    assert (2 ^ (e + s - E) = 2 ^ s * 2 ^ (e - E)) as Hsplit
        by (rewrite <- Z.pow_add_r by lia; f_equal; lia).
    destruct Hr as [->|[-> Hr]]; cbn [man exp].
    - rewrite Hsplit. nia.
    - destruct (Z.le_gt_cases ((m / 2 ^ s + 1) * 2 ^ (e + s - E))
                  (Jm * 2 ^ (Je - E))) as [|Hgt]; [assumption|exfalso].
      apply (grid_gap (e + s - E) (Je - E) Jm (m / 2 ^ s));
        try lia; try exact Hgt; rewrite Hsplit; nia.
  Qed.

Lemma round_ge :
    Jm * 2 ^ (Je - E) <= m * 2 ^ (e - E) →
    Jm * 2 ^ (Je - E) <= scaled (round m e) E.
  Proof.
    intros H. unfold scaled.
    destruct (round_cases m e Hm) as [->|(s & Hs & Hq & Hr)];
      cbn [man exp]; [exact H|].
    assert (0 < 2 ^ s) as Hp by (apply Z.pow_pos_nonneg; lia).
    assert (0 < 2 ^ (e - E)) as HF by (apply Z.pow_pos_nonneg; lia).
    pose proof (Z.div_mod m (2 ^ s) ltac:(lia)) as Hdm.
    pose proof (Z.mod_pos_bound m (2 ^ s) Hp) as Hmod.
    assert (2 ^ (e + s - E) = 2 ^ s * 2 ^ (e - E)) as Hsplit
        by (rewrite <- Z.pow_add_r by lia; f_equal; lia).
    assert (0 < 2 ^ (e + s - E)) as HU by (apply Z.pow_pos_nonneg; lia).
    assert (Jm * 2 ^ (Je - E) <= m / 2 ^ s * 2 ^ (e + s - E)) as Hle.
    { destruct (Z.le_gt_cases (Jm * 2 ^ (Je - E))
                  (m / 2 ^ s * 2 ^ (e + s - E))) as [|Hgt];
        [assumption|exfalso].
      apply (grid_gap (e + s - E) (Je - E) Jm (m / 2 ^ s));
        try lia; try exact Hgt; rewrite Hsplit; nia. }
    destruct Hr as [->|[-> Hr]]; cbn [man exp]; nia.
  Qed.

End Mono.

Lemma of_Z_small z : 0 <= z < 2 ^ 53 → of_Z z = mk z 0.
Proof.
  intros Hz. unfold of_Z, round.
  destruct (Z.leb_spec (Z.log2 z + 1 - prec) 0) as [|Hs]; [reflexivity|].
  exfalso. unfold prec in Hs.
  destruct (Z.eq_dec z 0) as [->|]; [cbn in Hs; lia|].
  assert (Z.log2 z < 53) by (apply Z.log2_lt_pow2; lia). lia.
Qed.

(** Truncation, from the value in units of [2^E]. *)
Lemma to_Z_scaled x E :
  E <= 0 → E <= exp x → to_Z x = scaled x E / 2 ^ (- E).
Proof.
  intros HE Hx. unfold to_Z, scaled.
  assert (0 < 2 ^ (exp x - E)) by (apply Z.pow_pos_nonneg; lia).
  destruct (Z.le_gt_cases 0 (exp x)) as [Hpos|Hneg].
  - rewrite Z.shiftl_mul_pow2 by exact Hpos.
    replace (exp x - E) with (exp x + - E) by lia.
    rewrite Z.pow_add_r, Z.mul_assoc by lia.
    rewrite Z.div_mul; [reflexivity|].
    apply Z.pow_nonzero; lia.
  - rewrite Z.shiftl_div_pow2 by lia.
    replace (- E) with (exp x - E + - exp x) by lia.
    rewrite Z.pow_add_r by lia.
    rewrite (Z.mul_comm (2 ^ (exp x - E))).
    rewrite Z.div_mul_cancel_r; [reflexivity| |lia].
    apply Z.pow_nonzero; lia.
Qed.

End DoubleFacts.

(** ** The split point of [bs] *)

Lemma bs_mid_bounds a b :
  0 <= a → a + 2 <= b → b < uint_mod →
  ∃ mid, bs_mid a b = Ok mid ∧ a < mid < b.
Proof.
  intros Ha Hab Hb. pose proof uint_mod_eq as HU. unfold bs_mid.
  rewrite (wrap_small (b - a)) by (unfold is_uint; lia).
  rewrite !DoubleFacts.of_Z_small by lia.
  unfold Double.mul, split_ratio. cbn [Double.man Double.exp].
  set (n := b - a). set (c := 607985949695017).
  set (x := Double.round (n * c) (0 + -50)).
  assert (0 <= n * c) as Hnc by (unfold c; lia).
  pose proof (DoubleFacts.round_exp_ge (n * c) (0 + -50) Hnc) as Hex.
  fold x in Hex.
  assert (1 * 2 ^ (0 - -50) <= Double.scaled x (-50)) as Hx1.
  { apply DoubleFacts.round_ge; unfold c; lia. }
  assert (Double.scaled x (-50) <= (2 * n - 1) * 2 ^ (-1 - -50)) as Hx2.
  { apply DoubleFacts.round_le; unfold c; lia. }
  change (2 ^ (0 - -50)) with 1125899906842624 in Hx1.
  change (2 ^ (-1 - -50)) with 562949953421312 in Hx2.
  unfold Double.add. cbn [Double.man Double.exp].
  set (e' := Z.min 0 (Double.exp x)).
  set (M := a * 2 ^ (0 - e') + Double.man x * 2 ^ (Double.exp x - e')).
  assert (0 <= Double.man x) as Hmx.
  { unfold x. destruct (DoubleFacts.round_cases (n * c) (0 + -50) Hnc)
      as [->|(s & Hs & Hq & [->|[-> _]])]; cbn [Double.man]; lia. }
  assert (0 < 2 ^ (0 - e')) by (apply Z.pow_pos_nonneg; lia).
  assert (0 < 2 ^ (Double.exp x - e')) by (apply Z.pow_pos_nonneg; lia).
  assert (0 <= M) as HM by (unfold M; nia).
  assert (M * 2 ^ (e' - -50) =
            a * 1125899906842624 + Double.scaled x (-50)) as HMs.
  { unfold M, Double.scaled. rewrite Z.mul_add_distr_r.
    rewrite <- !Z.mul_assoc, <- !Z.pow_add_r by lia.
    replace (0 - e' + (e' - -50)) with 50 by lia.
    replace (Double.exp x - e' + (e' - -50)) with (Double.exp x - -50) by lia.
    reflexivity. }
  set (y := Double.round M e').
  pose proof (DoubleFacts.round_exp_ge M e' HM) as Hey. fold y in Hey.
  assert ((a + 1) * 2 ^ (0 - -50) <= Double.scaled y (-50)) as Hy1.
  { apply DoubleFacts.round_ge; try rewrite HMs; lia. }
  assert (Double.scaled y (-50) <= (2 * b - 1) * 2 ^ (-1 - -50)) as Hy2.
  { apply DoubleFacts.round_le; try rewrite HMs; unfold n in Hx2; lia. }
  change (2 ^ (0 - -50)) with 1125899906842624 in Hy1.
  change (2 ^ (-1 - -50)) with 562949953421312 in Hy2.
  unfold Double.to_uint.
  rewrite (DoubleFacts.to_Z_scaled y (-50)) by lia.
  change (2 ^ (- -50)) with 1125899906842624.
  assert (a + 1 <= Double.scaled y (-50) / 1125899906842624 < b) as Hz.
  { split.
    - apply Z.div_le_lower_bound; lia.
    - apply Z.div_lt_upper_bound; lia. }
  destruct (Z.ltb_spec (Double.scaled y (-50) / 1125899906842624) uint_mod);
    [|lia].
  eexists. split; [reflexivity|lia].
Qed.

(** ** The sieve: table accesses *)

Section Table.

Lemma tbl_get_ok (s : list sieve_t) i e :
  0 <= i → s !! Z.to_nat i = Some e → tbl_get s i = Ok e.
Proof.
  intros Hi He. unfold tbl_get.
  destruct (Z.ltb_spec i 0); [lia|]. rewrite He. reflexivity.
Qed.

Lemma tbl_upd_ok (s : list sieve_t) i e f :
  0 <= i → s !! Z.to_nat i = Some e →
  tbl_upd s i f = Ok (<[Z.to_nat i := f e]> s).
Proof.
  intros Hi He. unfold tbl_upd. rewrite (tbl_get_ok _ _ _ Hi He).
  reflexivity.
Qed.

Lemma tbl_upd_twice (s : list sieve_t) i e f h :
  0 <= i → s !! Z.to_nat i = Some e →
  (s' ← tbl_upd s i f; tbl_upd s' i h) = Ok (<[Z.to_nat i := h (f e)]> s).
Proof.
  intros Hi He. rewrite (tbl_upd_ok _ _ _ _ Hi He). cbn [mbind res_bind].
  assert (Z.to_nat i < length s)%nat as Hlen
      by (apply lookup_lt_is_Some; eauto).
  rewrite (tbl_upd_ok _ _ (f e)); [|exact Hi|].
  - rewrite list_insert_insert_eq. reflexivity.
  - apply list_lookup_insert_eq. exact Hlen.
Qed.

(** [mark_step] without the plumbing. *)
Lemma mark_step_eq (s : list sieve_t) i j k ej ek :
  0 <= j → 0 <= k → k ≠ j / 2 →
  s !! Z.to_nat (j / 2) = Some ej → s !! Z.to_nat k = Some ek →
  mark_step s i j k =
    if fac ej =? 0 then
      Ok (<[Z.to_nat (j / 2) :=
              if fac ek =? i then Sieve i (wrap (pow ek + 1)) (nxt ek)
              else Sieve i 1 k]> s)
    else Ok s.
Proof.
  intros Hj Hk Hne Hej Hek. unfold mark_step.
  assert (0 <= j / 2) as Hj2 by (apply Z.div_pos; lia).
  assert (Z.to_nat (j / 2) < length s)%nat as Hlen
      by (apply lookup_lt_is_Some; eauto).
  assert (Z.to_nat (j / 2) ≠ Z.to_nat k) as Hne' by lia.
  rewrite (tbl_get_ok _ _ _ Hj2 Hej). cbn [mbind res_bind].
  destruct (fac ej =? 0); [|reflexivity].
  rewrite (tbl_upd_ok _ _ _ _ Hj2 Hej). cbn [mbind res_bind].
  rewrite (tbl_get_ok _ _ ek Hk)
    by (rewrite list_lookup_insert_ne by exact Hne'; exact Hek).
  cbn [mbind res_bind].
  destruct (fac ek =? i).
  - rewrite (tbl_upd_ok _ _ (set_fac i ej))
      by (first [exact Hj2 | apply list_lookup_insert_eq; exact Hlen]).
    cbn [mbind res_bind]. rewrite list_insert_insert_eq.
    rewrite (tbl_get_ok _ _ ek Hk)
      by (rewrite list_lookup_insert_ne by exact Hne'; exact Hek).
    cbn [mbind res_bind].
    rewrite (tbl_upd_ok _ _ (set_pow (wrap (pow ek + 1)) (set_fac i ej)))
      by (first [exact Hj2 | apply list_lookup_insert_eq; exact Hlen]).
    rewrite list_insert_insert_eq. reflexivity.
  - rewrite (tbl_upd_ok _ _ (set_fac i ej))
      by (first [exact Hj2 | apply list_lookup_insert_eq; exact Hlen]).
    cbn [mbind res_bind]. rewrite list_insert_insert_eq.
    rewrite (tbl_upd_ok _ _ (set_pow 1 (set_fac i ej)))
      by (first [exact Hj2 | apply list_lookup_insert_eq; exact Hlen]).
    rewrite list_insert_insert_eq. reflexivity.
Qed.

End Table.

(** ** The sieve: arithmetic of odd numbers and divisors *)

Section OddArith.

Lemma odd_half v : Z.odd v = true → v = 2 * (v / 2) + 1.
Proof.
  intros H. apply Z.odd_spec in H as [k ->].
  Z.to_euclidean_division_equations. lia.
Qed.

Lemma odd_mul a b : Z.odd a = true → Z.odd b = true → Z.odd (a * b) = true.
Proof. intros Ha Hb. rewrite Z.odd_mul, Ha, Hb. reflexivity. Qed.

Lemma odd_divisor d v : Z.odd v = true → (d | v) → Z.odd d = true.
Proof.
  intros Hv [t ->]. rewrite Z.odd_mul in Hv.
  apply andb_true_iff in Hv. tauto.
Qed.

Lemma odd_quotient d t : Z.odd (d * t) = true → Z.odd t = true.
Proof.
  intros Hv. rewrite Z.odd_mul in Hv.
  apply andb_true_iff in Hv. tauto.
Qed.

Lemma odd_succ_not_div i v :
  Z.odd i = true → Z.odd v = true → ¬ (i + 1 | v).
Proof.
  intros Hi Hv Hd. apply (odd_divisor _ _ Hv) in Hd.
  rewrite Z.odd_add, Hi in Hd. discriminate.
Qed.

Lemma odd_lt_succ2 i v :
  Z.odd i = true → Z.odd v = true → v < i + 2 → v <= i.
Proof.
  intros Hi Hv Hlt. apply Z.odd_spec in Hi as [a ->], Hv as [b ->]. lia.
Qed.

Lemma odd_between c t :
  Z.odd c = true → Z.odd t = true → c <= t → t < c + 2 → t = c.
Proof.
  intros Hc Ht H1 H2. apply Z.odd_spec in Hc as [a ->], Ht as [b ->]. lia.
Qed.

(** An exponent of a factor of a 32-bit number is below 32. *)
Lemma pow_exp_bound x e c :
  2 <= x → 0 <= e → 0 < c → (x ^ e | c) → c < uint_mod → e < 32.
Proof.
  intros Hx He Hc Hd Hu.
  apply Z.divide_pos_le in Hd; [|exact Hc].
  assert (2 ^ e <= x ^ e) by (apply Z.pow_le_mono_l; lia).
  destruct (Z.lt_ge_cases e 32) as [|Hge]; [assumption|exfalso].
  assert (2 ^ 32 <= 2 ^ e) by (apply Z.pow_le_mono_r; lia).
  rewrite uint_mod_eq in Hu. change (2 ^ 32) with 4294967296 in *. lia.
Qed.

Lemma least_divisor_prime x v :
  1 < x → (x | v) → (∀ d, 1 < d < x → ¬ (d | v)) → Z.prime x.
Proof.
  intros Hx Hxv Hleast. split; [exact Hx|].
  intros d Hd Hdx. apply (Hleast d Hd). etransitivity; eassumption.
Qed.

Lemma tbl_inv_ext n s (M M' : Z → Prop) :
  (∀ v, 3 <= v <= n → Z.odd v = true → (M v ↔ M' v)) →
  tbl_inv n s M → tbl_inv n s M'.
Proof.
  intros Hext (Hlen & H0 & Hv). split; [exact Hlen|]. split; [exact H0|].
  intros v Hr Ho. destruct (Hv v Hr Ho) as (e & He & Hs).
  exists e. split; [exact He|]. specialize (Hext v Hr Ho). tauto.
Qed.

(** One more multiple of [i] adds one number to the marked ones. *)
Lemma inner_marked_step i c v :
  0 < i → Z.odd c = true → Z.odd v = true →
  inner_marked i (i * c + 2 * i) v → inner_marked i (i * c) v ∨ v = i * c.
Proof.
  intros Hi Hc Hv [H|[H|[[t Ht] Hlt]]].
  - left; left; exact H.
  - left; right; left; exact H.
  - destruct (Z.lt_ge_cases v (i * c)) as [Hlt'|Hge].
    + left; right; right. split; [exists t; exact Ht|exact Hlt'].
    + right. subst v. rewrite (Z.mul_comm t i) in *.
      apply odd_quotient in Hv.
      f_equal. apply (odd_between c t Hc Hv); nia.
Qed.

Lemma inner_marked_mono i j j' v :
  j <= j' → inner_marked i j v → inner_marked i j' v.
Proof.
  intros Hj [H|[H|[H Hlt]]]; [left|right; left|right; right]; auto.
  split; [exact H|lia].
Qed.

(** The marked numbers before the inner loop of [i] starts. *)
Lemma inner_marked_start i v :
  0 < i → 0 < v → inner_marked i (i * i) v ↔ (v <= i ∨ ∃ d, 1 < d < i ∧ (d | v)).
Proof.
  intros Hi Hv. split.
  - intros [H|[H|[[t Ht] Hlt]]]; [auto|auto|].
    destruct (Z.eq_dec t 1) as [->|Hne]; [left; lia|right].
    exists t. split; [nia|]. exists i. lia.
  - intros [H|H]; [left|right; left]; assumption.
Qed.

(** The marked numbers when the outer loop moves on from [i]. *)
Lemma outer_marked_next i v :
  1 < i → Z.odd i = true → Z.odd v = true →
  outer_marked (i + 2) v ↔
  (v <= i ∨ (∃ d, 1 < d < i ∧ (d | v)) ∨ (i | v)).
Proof.
  intros Hi1 Hi Hv. split.
  - intros [H|(d & Hd & Hdv)].
    + left. apply odd_lt_succ2; assumption.
    + destruct (Z.eq_dec d (i + 1)) as [->|Hne1];
        [exfalso; exact (odd_succ_not_div i v Hi Hv Hdv)|].
      destruct (Z.eq_dec d i) as [->|Hne]; [auto|].
      right; left. exists d. split; [lia|exact Hdv].
  - intros [H|[(d & Hd & Hdv)|H]].
    + left. lia.
    + right. exists d. split; [lia|exact Hdv].
    + right. exists i. split; [lia|exact H].
Qed.

End OddArith.

(** ** The sieve: the inner loop *)

Section InnerLoop.

Variables (n i : Z).
Hypothesis Hn : n < uint_mod.
Hypothesis Hi3 : 3 <= i.
Hypothesis Hio : Z.odd i = true.

Lemma entry_ok_fac_pos v e : entry_ok v e → fac e ≠ 0.
Proof. intros [H _]. lia. Qed.

(** The entry written for [j = i * c] when no smaller factor divides it. *)
Lemma new_entry_ok c ek :
  Z.odd c = true → i <= c → i * c <= n →
  (∀ d, 1 < d < i → ¬ (d | i * c)) →
  ((inner_marked i (i * c) c ∧ entry_ok c ek) ∨
   (¬ inner_marked i (i * c) c ∧ ek = Sieve 0 0 0)) →
  entry_ok (i * c)
    (if fac ek =? i then Sieve i (wrap (pow ek + 1)) (nxt ek)
     else Sieve i 1 (c / 2)).
Proof.
  intros Hco Hic Hjn Hleast Hst.
  assert (c < i * c) as Hcj by nia.
  destruct (Z.eqb_spec (fac ek) i) as [Hfi|Hfi].
  - destruct Hst as [[_ Hok]|[_ ->]]; [|cbn in Hfi; lia].
    destruct Hok as (_ & _ & _ & Hp & c' & Hc & Hnd & Hnx).
    rewrite Hfi in Hc, Hnd.
    assert (pow ek < 32) as Hp32.
    { apply (pow_exp_bound i (pow ek) c); try lia.
      exists c'. lia. }
    rewrite wrap_small by (unfold is_uint; rewrite uint_mod_eq; lia).
    unfold entry_ok. cbn [fac pow nxt].
    repeat match goal with |- _ ∧ _ => split end;
      [lia | exists c; lia | exact Hleast | lia |].
    exists c'. split; [|split; [exact Hnd|exact Hnx]].
    rewrite Z.pow_add_r, Z.pow_1_r by lia. rewrite Hc at 1. ring.
  - assert (¬ (i | c)) as Hnd.
    { intros Hdiv. destruct Hst as [[_ Hok]|[Hnm _]].
      - destruct Hok as (Hf1 & Hfc & Hfl & _).
        destruct (Z.lt_ge_cases i (fac ek)) as [Hlt|Hge].
        + apply (Hfl i); [lia|exact Hdiv].
        + apply (Hleast (fac ek)); [lia|].
          etransitivity; [exact Hfc|]. exists i. ring.
      - apply Hnm. right; right. split; [exact Hdiv|exact Hcj]. }
    unfold entry_ok. cbn [fac pow nxt].
    repeat match goal with |- _ ∧ _ => split end;
      [lia | exists c; lia | exact Hleast | lia |].
    exists c. rewrite Z.pow_1_r. auto.
Qed.

Lemma mark_step_inv s j k :
  j = i * (2 * k + 1) → i <= 2 * k + 1 → j <= n →
  tbl_inv n s (inner_marked i j) →
  ∃ s', mark_step s i j k = Ok s' ∧
        tbl_inv n s' (inner_marked i (j + 2 * i)).
Proof.
  intros Hj Hik Hjn (Hlen & H0 & Hv).
  set (c := 2 * k + 1) in *.
  assert (Z.odd c = true) as Hco
      by (unfold c; rewrite Z.add_comm, Z.odd_add_mul_2; reflexivity).
  assert (Z.odd j = true) as Hjo by (subst j; apply odd_mul; assumption).
  assert (c < j) as Hcj by nia.
  assert (k = c / 2) as Hk
      by (unfold c; Z.to_euclidean_division_equations; lia).
  assert (0 <= k) as Hk0 by (unfold c in Hik; lia).
  destruct (Hv j ltac:(nia) Hjo) as (ej & Hej & Hsj).
  destruct (Hv c ltac:(nia) Hco) as (ek & Hek & Hsc).
  rewrite <- Hk in Hek.
  assert (k ≠ j / 2) as Hkj.
  { pose proof (odd_half j Hjo). unfold c in Hcj. lia. }
  rewrite (mark_step_eq s i j k ej ek) by (first [assumption | lia]).
  destruct (Z.eqb_spec (fac ej) 0) as [Hz|Hnz].
  - (* [j] is not marked yet *)
    destruct Hsj as [[_ Hok]|[Hnm ->]];
      [exfalso; exact (entry_ok_fac_pos _ _ Hok Hz)|].
    eexists. split; [reflexivity|].
    split; [rewrite length_insert; exact Hlen|].
    split.
    { rewrite list_lookup_insert_ne; [exact H0|].
      pose proof (odd_half j Hjo). nia. }
    intros v Hvr Hvo.
    destruct (Z.eq_dec v j) as [->|Hne].
    + eexists. split.
      { apply list_lookup_insert_eq.
        apply lookup_lt_is_Some. eauto. }
      left. split.
      * right; right. split; [exists c; lia|lia].
      * rewrite Hj, Hk. apply new_entry_ok; try assumption; try lia.
        -- intros d Hd Hdj. apply Hnm. right; left.
           exists d. rewrite Hj. auto.
        -- rewrite <- Hj. exact Hsc.
    + destruct (Hv v Hvr Hvo) as (e & He & Hs).
      exists e. split.
      { rewrite list_lookup_insert_ne; [exact He|].
        pose proof (odd_half j Hjo). pose proof (odd_half v Hvo). lia. }
      destruct Hs as [[Hm Hok]|[Hnm' ->]].
      * left. split; [|exact Hok].
        eapply inner_marked_mono; [|exact Hm]. lia.
      * right. split; [|reflexivity].
        intros Hm. rewrite Hj in Hm.
        apply inner_marked_step in Hm as [Hm|Hm]; try assumption; try lia.
        -- apply Hnm'. rewrite Hj. exact Hm.
  - (* [j] was marked by a smaller factor *)
    destruct Hsj as [[Hm Hok]|[_ ->]]; [|cbn in Hnz; lia].
    exists s. split; [reflexivity|].
    split; [exact Hlen|]. split; [exact H0|].
    intros v Hvr Hvo. destruct (Hv v Hvr Hvo) as (e & He & Hs).
    exists e. split; [exact He|].
    destruct Hs as [[Hm' Hok']|[Hnm' ->]].
    + left. split; [|exact Hok'].
      eapply inner_marked_mono; [|exact Hm']. lia.
    + right. split; [|reflexivity].
      intros Hm''. rewrite Hj in Hm''.
      apply inner_marked_step in Hm'' as [Hm''|Hm'']; try assumption; try lia.
      * apply Hnm'. rewrite Hj. exact Hm''.
      * apply Hnm'. rewrite Hm'', <- Hj. exact Hm.
Qed.

(** The inner loop, from any of its states to its end. *)
Lemma mark_loop_inv :
  n + 2 * i < uint_mod →
  ∀ fuel j k s,
    j = i * (2 * k + 1) → i <= 2 * k + 1 →
    n + 2 - j <= Z.of_nat fuel → (1 <= fuel)%nat →
    tbl_inv n s (inner_marked i j) →
    ∃ s', mark_loop fuel n i j k s = Ok s' ∧
          tbl_inv n s' (inner_marked i (n + 1)).
Proof.
  intros Hni fuel. induction fuel as [|fuel IH];
    intros j k s Hj Hik Hf Hf1 Hinv; [lia|].
  cbn [mark_loop]. destruct (Z.leb_spec j n) as [Hjn|Hjn].
  - destruct (mark_step_inv s j k Hj Hik Hjn Hinv) as (s1 & -> & Hinv1).
    cbn [mbind res_bind]. pose proof uint_mod_eq as HU.
    rewrite (wrap_small (i + i)) by (unfold is_uint; lia).
    rewrite (wrap_small (j + (i + i))) by (unfold is_uint; nia).
    rewrite (wrap_small (k + 1)) by (unfold is_uint; nia).
    apply IH; try lia.
    + replace (i + i) with (2 * i) by lia. exact Hinv1.
  - exists s. split; [reflexivity|].
    eapply tbl_inv_ext; [|exact Hinv].
    intros v Hvr Hvo. split; intros [H|[H|[H Hlt]]];
      [left|right; left|right; right|left|right; left|right; right];
      try assumption; split; try assumption; lia.
Qed.

End InnerLoop.

(** ** The sieve: the outer loop and [build_sieve] *)

Section OuterLoop.

Variable n : Z.
Hypothesis Hn : n + 2 * Z.sqrt n < uint_mod.
Hypothesis Hn0 : 0 <= n.

Lemma sieve_step_inv fuel i s :
  3 <= i <= n → Z.odd i = true → n <= Z.of_nat fuel →
  tbl_inv n s (outer_marked i) →
  ∃ s', sieve_step fuel n (Z.sqrt n) i s = Ok s' ∧
        tbl_inv n s' (outer_marked (i + 2)).
Proof.
  intros Hi Hio Hf Hinv. pose proof Hinv as (Hlen & H0 & Hv).
  pose proof (Z.sqrt_nonneg n) as Hm0. pose proof uint_mod_eq as HU.
  pose proof (Z.sqrt_spec n Hn0) as Hsq. cbn zeta in Hsq.
  unfold Z.succ in Hsq.
  destruct (Hv i Hi Hio) as (e & He & Hs).
  assert (0 <= i / 2) as Hi2 by (apply Z.div_pos; lia).
  unfold sieve_step. rewrite (tbl_get_ok _ _ _ Hi2 He).
  cbn [mbind res_bind].
  destruct (Z.eqb_spec (fac e) 0) as [Hz|Hnz].
  - (* [i] is prime *)
    destruct Hs as [[_ Hok]|[Hnm ->]];
      [exfalso; exact (entry_ok_fac_pos _ _ Hok Hz)|].
    assert (Z.to_nat (i / 2) < length s)%nat as Hlt
        by (apply lookup_lt_is_Some; eauto).
    rewrite (tbl_upd_ok _ _ _ _ Hi2 He). cbn [mbind res_bind].
    rewrite (tbl_upd_ok _ _ (set_fac i (Sieve 0 0 0)))
      by (first [exact Hi2 | apply list_lookup_insert_eq; exact Hlt]).
    cbn [mbind res_bind]. rewrite list_insert_insert_eq.
    change (set_pow 1 (set_fac i (Sieve 0 0 0))) with (Sieve i 1 0).
    set (s1 := <[Z.to_nat (i / 2) := Sieve i 1 0]> s).
    assert (∀ d, 1 < d < i → ¬ (d | i)) as Hprime.
    { intros d Hd Hdi. apply Hnm. right. exists d. auto. }
    assert (tbl_inv n s1 (λ v, v <= i ∨ ∃ d, 1 < d < i ∧ (d | v))) as Hinv1.
    { split; [unfold s1; rewrite length_insert; exact Hlen|]. split.
      { unfold s1. rewrite list_lookup_insert_ne; [exact H0|].
        pose proof (odd_half i Hio). lia. }
      intros v Hvr Hvo. destruct (Z.eq_dec v i) as [->|Hne].
      - exists (Sieve i 1 0). split.
        { unfold s1. apply list_lookup_insert_eq. exact Hlt. }
        left. split; [left; lia|].
        unfold entry_ok. cbn [fac pow nxt].
        repeat match goal with |- _ ∧ _ => split end;
          [lia | apply Z.divide_refl | exact Hprime | lia |].
        exists 1. rewrite Z.pow_1_r.
        repeat match goal with |- _ ∧ _ => split end; [lia| |reflexivity].
        intros Hd. apply Z.divide_1_r in Hd. lia.
      - destruct (Hv v Hvr Hvo) as (e' & He' & Hs').
        exists e'. split.
        { unfold s1. rewrite list_lookup_insert_ne; [exact He'|].
          pose proof (odd_half i Hio). pose proof (odd_half v Hvo). lia. }
        destruct Hs' as [[Hm Hok]|[Hnm' ->]].
        + left. split; [|exact Hok].
          destruct Hm as [Hm|Hm]; [left; lia|right; exact Hm].
        + right. split; [|reflexivity].
          intros [Hm|Hm]; apply Hnm'; [left; lia|right; exact Hm]. }
    destruct (Z.leb_spec i (Z.sqrt n)) as [Him|Him].
    + (* mark the odd multiples from [i*i] on *)
      assert (i * i <= n) as Hii by nia.
      rewrite (wrap_small (i * i)) by (unfold is_uint; lia).
      destruct (mark_loop_inv n i ltac:(lia) ltac:(lia) Hio ltac:(lia)
                  fuel (i * i) (i / 2) s1) as (s' & -> & Hinv').
      * rewrite <- (odd_half i Hio). reflexivity.
      * rewrite <- (odd_half i Hio). lia.
      * nia.
      * lia.
      * eapply tbl_inv_ext; [|exact Hinv1].
        intros v Hvr Hvo. symmetry. apply inner_marked_start; lia.
      * exists s'. split; [reflexivity|].
        eapply tbl_inv_ext; [|exact Hinv'].
        intros v Hvr Hvo. rewrite outer_marked_next by (first [lia|assumption]).
        split; (intros [H|[H|H]]; [left|right; left|right; right];
                try assumption; try tauto).
        split; [exact H|lia].
    + (* too large to have a multiple left to mark *)
      exists s1. split; [reflexivity|].
      eapply tbl_inv_ext; [|exact Hinv1].
      intros v Hvr Hvo. rewrite outer_marked_next by (first [lia|assumption]).
      split; [tauto|]. intros [H|[H|[t Ht]]]; [tauto|tauto|].
      destruct (Z.eq_dec t 1) as [->|Hne]; [left; lia|right].
      exists t. split; [nia|]. exists i. lia.
  - (* [i] has a smaller factor *)
    destruct Hs as [[Hm Hok]|[_ ->]]; [|cbn in Hnz; lia].
    exists s. split; [reflexivity|].
    eapply tbl_inv_ext; [|exact Hinv].
    intros v Hvr Hvo. rewrite outer_marked_next by (first [lia|assumption]).
    assert (∃ d, 1 < d < i ∧ (d | i)) as (d0 & Hd0 & Hd0i)
        by (destruct Hm as [Hm|Hm]; [lia|exact Hm]).
    split.
    + intros [H|H]; [left; lia|right; left; exact H].
    + intros [H|[H|H]].
      * destruct (Z.eq_dec v i) as [->|Hne]; [|left; lia].
        right. exists d0. auto.
      * right. exact H.
      * right. exists d0. split; [lia|]. etransitivity; eassumption.
Qed.

Lemma sieve_loop_inv inner :
  n <= Z.of_nat inner →
  ∀ fuel i s,
    3 <= i → Z.odd i = true →
    n + 3 - i <= Z.of_nat fuel → (1 <= fuel)%nat →
    tbl_inv n s (outer_marked i) →
    ∃ s', sieve_loop fuel inner n (Z.sqrt n) i s = Ok s' ∧ sieve_ok n s'.
Proof.
  intros Hin fuel. induction fuel as [|fuel IH];
    intros i s Hi Hio Hf Hf1 Hinv; [lia|].
  cbn [sieve_loop]. pose proof (Z.sqrt_nonneg n) as Hm0.
  pose proof uint_mod_eq as HU.
  destruct (Z.leb_spec i n) as [Hle|Hgt].
  - destruct (sieve_step_inv inner i s ltac:(lia) Hio Hin Hinv)
      as (s1 & -> & Hinv1).
    cbn [mbind res_bind].
    assert (1 <= Z.sqrt n) as Hs1
        by (apply Z.sqrt_le_square; lia).
    rewrite (wrap_small (i + 2)) by (unfold is_uint; lia).
    apply IH; try lia; [|exact Hinv1].
    rewrite Z.odd_add, Hio. reflexivity.
  - exists s. split; [reflexivity|].
    eapply tbl_inv_ext; [|exact Hinv].
    intros v Hvr Hvo. split; [tauto|]. intros _. left. lia.
Qed.

End OuterLoop.

(** [build_sieve] on an even size fills the whole table. *)
Lemma build_sieve_ok fuel n :
  Z.even n = true → 2 <= n → n + 2 * Z.sqrt n < uint_mod →
  n <= Z.of_nat fuel →
  ∃ s, build_sieve fuel n = Ok s ∧ sieve_ok n s.
Proof.
  intros Hev Hn2 Hn Hf. unfold build_sieve.
  set (s0 := replicate (Z.to_nat (n / 2)) (Sieve 0 0 0)).
  assert (n = 2 * (n / 2)) as Hhalf.
  { apply Z.even_spec in Hev as [k ->].
    Z.to_euclidean_division_equations. lia. }
  assert (length s0 = Z.to_nat (n / 2)) as Hlen0
      by (unfold s0; apply length_replicate).
  change (1 / 2) with 0.
  assert (s0 !! Z.to_nat 0 = Some (Sieve 0 0 0)) as H00.
  { unfold s0. apply lookup_replicate_2. lia. }
  rewrite (tbl_upd_ok s0 0 _ _ ltac:(lia) H00). cbn [mbind res_bind].
  rewrite (tbl_upd_ok _ _ (set_fac 1 (Sieve 0 0 0)))
    by (first [lia | apply list_lookup_insert_eq; rewrite Hlen0; lia]).
  cbn [mbind res_bind]. rewrite list_insert_insert_eq.
  change (set_pow 1 (set_fac 1 (Sieve 0 0 0))) with (Sieve 1 1 0).
  change (Z.to_nat 0) with 0%nat.
  apply (sieve_loop_inv n Hn ltac:(lia) fuel Hf fuel 3); try lia;
    [reflexivity|].
  split; [rewrite length_insert, Hlen0; lia|]. split.
  { apply list_lookup_insert_eq. rewrite Hlen0. lia. }
  intros v Hvr Hvo. exists (Sieve 0 0 0). split.
  - pose proof (odd_half v Hvo).
    rewrite list_lookup_insert_ne by lia.
    unfold s0. apply lookup_replicate_2. lia.
  - right. split; [|reflexivity].
    intros [H|(d & Hd & Hdv)]; [lia|].
    assert (d = 2) as -> by lia.
    apply (odd_divisor _ _ Hvo) in Hdv. discriminate.
Qed.

(** ** The chain walk of [fac_set_bp] on a finished table *)

Section Chain.

Variables (n : Z) (s : list sieve_t).
Hypothesis Hs : sieve_ok n s.
Hypothesis Hn : n < uint_mod.

Lemma sieve_ok_entry v :
  3 <= v <= n → Z.odd v = true →
  ∃ e, s !! Z.to_nat (v / 2) = Some e ∧ entry_ok v e.
Proof.
  intros Hv Ho. destruct Hs as (_ & _ & H).
  destruct (H v Hv Ho) as (e & He & [[_ Hok]|[Hf _]]); [eauto|tauto].
Qed.

Lemma chain_ok pw :
  0 < pw → 32 * pw <= uint_mod →
  ∀ fuel v,
    1 <= v <= n → Z.odd v = true → v / 2 < Z.of_nat fuel →
    ∃ f, chain fuel s (v / 2) pw = Ok f ∧ chain_post v pw f.
Proof.
  intros Hpw Hpw32 fuel. induction fuel as [|fuel IH]; intros v Hv Ho Hf.
  { pose proof (odd_half v Ho). lia. }
  cbn [chain]. pose proof (odd_half v Ho) as Hhalf.
  destruct (Z.ltb_spec 0 (v / 2)) as [Hpos|Hzero].
  - destruct (sieve_ok_entry v ltac:(lia) Ho) as (e & He & Hok).
    rewrite (tbl_get_ok s (v / 2) e ltac:(lia) He). cbn [mbind res_bind].
    destruct Hok as (Hf1 & Hfv & Hleast & Hp & c & Hc & Hnd & Hnx).
    assert (0 < fac e ^ pow e) as Hpp by (apply Z.pow_pos_nonneg; lia).
    assert (fac e <= fac e ^ pow e) as Hple.
    { rewrite <- (Z.pow_1_r (fac e)) at 1. apply Z.pow_le_mono_r; lia. }
    assert (0 < c) as Hc0 by nia.
    assert (c < v) as Hcv by nia.
    assert (Z.odd c = true) as Hco
        by (rewrite Hc in Ho; apply odd_quotient in Ho; exact Ho).
    pose proof (odd_half c Hco) as Hchalf.
    rewrite Hnx.
    destruct (IH c ltac:(lia) Hco ltac:(lia)) as (fc & -> & Wc & Ec & Fc).
    cbn [mbind res_bind]. eexists. split; [reflexivity|].
    assert (pow e < 32) as Hp32.
    { apply (pow_exp_bound (fac e) (pow e) v); try lia. exists c. lia. }
    rewrite wrap_small by (unfold is_uint; nia).
    assert (Forall (Z.lt (fac e)) (facs fc)) as Hlt.
    { apply List.Forall_forall. intros x Hx.
      apply in_facs_inv in Hx as [k Hx].
      rewrite List.Forall_forall in Fc.
      destruct (Fc _ Hx) as (Hx1 & Hxc & _). cbn [fst] in Hx1, Hxc.
      assert (x | v) as Hxv
          by (rewrite Hc; apply Z.divide_mul_r; exact Hxc).
      destruct (Z.lt_trichotomy x (fac e)) as [Hl|[->|Hg]];
        [exfalso; apply (Hleast x); [lia|exact Hxv]
        |exfalso; exact (Hnd Hxc) | exact Hg]. }
    split; [|split].
    + destruct Wc as [Sc Pc Ec']. split.
      * cbn [facs map fst]. constructor; [exact Sc|exact Hlt].
      * constructor; [|exact Pc]. cbn [fst]. split.
        -- eapply least_divisor_prime; eassumption.
        -- apply Z.divide_pos_le in Hfv; lia.
      * constructor; [|exact Ec']. cbn [snd]. nia.
    + cbn [eval]. rewrite Ec, Hc at 1.
      rewrite Z.pow_mul_l, Z.pow_mul_r by lia. reflexivity.
    + constructor.
      * cbn [fst snd]. split; [lia|]. split; [exact Hfv|nia].
      * eapply List.Forall_impl; [|exact Fc]. cbn beta.
        intros x (Hx1 & Hxc & Hxp). split; [exact Hx1|].
        split; [|exact Hxp]. rewrite Hc. apply Z.divide_mul_r. exact Hxc.
  - assert (v = 1) as -> by lia.
    exists []. split; [reflexivity|]. split; [|split].
    + split; constructor.
    + cbn [eval]. rewrite Z.pow_1_l by lia. reflexivity.
    + constructor.
Qed.

Lemma fac_set_bp_ok v pw :
  0 < pw → 32 * pw <= uint_mod → 1 <= v <= n → Z.odd v = true →
  ∃ f, fac_set_bp s v pw = Ok f ∧ chain_post v pw f.
Proof.
  intros Hpw Hpw32 Hv Ho. unfold fac_set_bp.
  apply chain_ok; try assumption.
  destruct Hs as (Hlen & _ & _). pose proof (odd_half v Ho).
  Z.to_euclidean_division_equations. lia.
Qed.

End Chain.

(** ** The series: merging adjacent ranges *)

Section Series.

Lemma merge_assoc x y z : merge (merge x y) z = merge x (merge y z).
Proof.
  destruct x as [[p1 q1] g1], y as [[p2 q2] g2], z as [[p3 q3] g3].
  cbn [merge]. f_equal; [f_equal|]; ring.
Qed.

Lemma merge_unit_r x : merge x (1, 0, 1) = x.
Proof. destruct x as [[p1 q1] g1]. cbn [merge]. f_equal; [f_equal|]; ring. Qed.

Lemma merge_unit_l x : merge (1, 0, 1) x = x.
Proof. destruct x as [[p1 q1] g1]. cbn [merge]. f_equal; [f_equal|]; ring. Qed.

Lemma series_from_add a (k m : nat) :
  series_from a (k + m) =
    merge (series_from a k) (series_from (a + Z.of_nat k) m).
Proof.
  induction m as [|m IH].
  - rewrite Nat.add_0_r. cbn [series_from]. rewrite merge_unit_r. reflexivity.
  - rewrite Nat.add_succ_r. cbn [series_from]. rewrite IH, merge_assoc.
    do 3 f_equal. lia.
Qed.

Lemma series_split a m b :
  a <= m → m <= b → series a b = merge (series a m) (series m b).
Proof.
  intros Ham Hmb. unfold series.
  replace (Z.to_nat (b - a)) with (Z.to_nat (m - a) + Z.to_nat (b - m))%nat
    by lia.
  rewrite series_from_add. do 3 f_equal. lia.
Qed.

Lemma series_one b : series (b - 1) b = term b.
Proof.
  unfold series. replace (b - (b - 1)) with 1 by lia.
  change (Z.to_nat 1) with 1%nat. cbn [series_from].
  rewrite merge_unit_l. f_equal. cbn [Z.of_nat]. lia.
Qed.

Lemma term_bounds b :
  1 <= b < uint_mod →
  0 < (term b).1.1 <= 2 ^ 150 ∧ 0 < (term b).2 <= 2 ^ 150.
Proof.
  intros Hb. rewrite uint_mod_eq in Hb. unfold term. cbn [fst snd].
  change (C ^ 3 / 24) with 10939058860032000.
  assert (b ^ 3 = b * b * b) as -> by ring.
  assert (0 < b * b <= 4294967296 * 4294967296) by nia.
  assert (0 < b * b * b <= 4294967296 * 4294967296 * 4294967296) by nia.
  change (2 ^ 150) with
    (4294967296 * 4294967296 * 4294967296 * 18014398509481984).
  split; [nia|].
  assert (0 < 6 * b - 5 <= 6 * 4294967296) by lia.
  assert (0 < 2 * b - 1 <= 2 * 4294967296) by lia.
  assert (0 < 6 * b - 1 <= 6 * 4294967296) by lia.
  assert (0 < (6 * b - 5) * (2 * b - 1) <= 6 * 4294967296 * (2 * 4294967296))
    by nia.
  split; [nia|].
  etransitivity;
    [apply (Z.mul_le_mono_nonneg _ (6 * 4294967296 * (2 * 4294967296))
              _ (6 * 4294967296)); lia|].
  lia.
Qed.

Lemma series_from_bounds a (k : nat) :
  0 <= a → a + Z.of_nat k < uint_mod →
  0 < (series_from a k).1.1 <= 2 ^ (150 * Z.of_nat k) ∧
  0 < (series_from a k).2 <= 2 ^ (150 * Z.of_nat k).
Proof.
  intros Ha. induction k as [|k IH]; intros Hk.
  - cbn. lia.
  - cbn [series_from]. specialize (IH ltac:(lia)).
    destruct (series_from a k) as [[p1 q1] g1].
    pose proof (term_bounds (a + Z.of_nat k + 1) ltac:(lia)) as Ht.
    destruct (term (a + Z.of_nat k + 1)) as [[p2 q2] g2].
    cbn [merge fst snd] in *.
    replace (150 * Z.of_nat (S k)) with (150 * Z.of_nat k + 150) by lia.
    rewrite Z.pow_add_r by lia.
    split; split; try nia; apply Z.mul_le_mono_nonneg; lia.
Qed.

Lemma series_bounds a b :
  0 <= a → a <= b → b < uint_mod →
  0 < (series a b).1.1 <= 2 ^ (150 * (b - a)) ∧
  0 < (series a b).2 <= 2 ^ (150 * (b - a)).
Proof.
  intros Ha Hab Hb. unfold series.
  pose proof (series_from_bounds a (Z.to_nat (b - a)) Ha ltac:(lia)) as H.
  rewrite Z2Nat.id in H by lia. exact H.
Qed.

End Series.

(** ** Exponents and divisibility in a factored form *)

Section FacDiv.

Lemma pow_div_eval f x e : In (x, e) f → (x ^ e | eval f).
Proof.
  induction f as [|[y d] f IH]; cbn [In eval]; [tauto|].
  intros [[= -> ->]|Hin].
  - apply Z.divide_factor_l.
  - apply Z.divide_mul_r. auto.
Qed.

Lemma prime_in_eval f r :
  Forall (λ x, Z.prime x.1) f → pows_nonneg f → Z.prime r →
  (r | eval f) → ∃ e, In (r, e) f ∧ 0 < e.
Proof.
  intros Hp Hn Hr. induction f as [|[y d] f IH]; cbn [eval].
  - intros H1. apply Z.divide_1_r in H1.
    apply Z.prime_ge_2 in Hr. lia.
  - pose proof (Forall_inv Hp) as Hy. pose proof (Forall_inv Hn) as Hd.
    cbn [fst snd] in Hy, Hd.
    intros Hdiv. apply (Z.divide_prime_mul _ _ _ Hr) in Hdiv as [Hdiv|Hdiv].
    + destruct (Z.eq_dec d 0) as [->|Hd0].
      * rewrite Z.pow_0_r in Hdiv. apply Z.divide_1_r in Hdiv.
        apply Z.prime_ge_2 in Hr. lia.
      * apply (Z.divide_prime_pp _ _ _ Hr Hy Hd) in Hdiv.
        subst y. exists d. split; [left; reflexivity|lia].
    + destruct (IH (Forall_inv_tail Hp) (Forall_inv_tail Hn) Hdiv)
        as (e & He & He0).
      exists e. split; [right; exact He|exact He0].
Qed.

End FacDiv.

(** ** Factoring without the sieve *)

Lemma is_prime_ok x : is_prime x = true → Z.prime x.
Proof.
  unfold is_prime. intros [H1 Hall]%andb_prop. apply Z.ltb_lt in H1.
  rewrite forallb_forall in Hall.
  assert (∀ k, 2 <= k → k * k <= x → x mod k ≠ 0) as Hsmall.
  { intros k Hk Hkk Hmod.
    assert (k <= Z.sqrt x) by (apply Z.sqrt_le_square; lia).
    specialize (Hall k). rewrite Hmod in Hall. cbn in Hall.
    enough (false = true) by discriminate. apply Hall.
    apply list_elem_of_In, elem_of_seqZ. lia. }
  split; [exact H1|]. intros k Hk [c Hc].
  assert (1 < c) by nia.
  destruct (Z.le_gt_cases k c).
  - apply (Hsmall k); [lia|nia|]. subst x. apply Z.mod_mul. lia.
  - apply (Hsmall c); [lia|nia|]. subst x. rewrite Z.mul_comm.
    apply Z.mod_mul. lia.
Qed.

Lemma increasing_sorted l : increasing l = true → StronglySorted Z.lt l.
Proof.
  intros H. apply Sorted_StronglySorted; [intros ? ? ?; lia|].
  induction l as [|x [|y l] IH]; try (repeat constructor; fail).
  cbn [increasing] in H. apply andb_prop in H as [Hxy H].
  constructor; [apply IH, H|]. constructor. apply Z.ltb_lt, Hxy.
Qed.

Lemma fac_wf_b_ok f : fac_wf_b f = true → fac_wf f.
Proof.
  unfold fac_wf_b. intros [Hs Hall]%andb_prop.
  rewrite forallb_forall in Hall.
  assert (∀ x, In x f → Z.prime x.1 ∧ x.1 < uint_mod ∧ 0 < x.2 < uint_mod)
    as H.
  { intros x Hx. specialize (Hall x Hx).
    do 3 (apply andb_prop in Hall as [Hall ?]).
    apply is_prime_ok in Hall.
    repeat match goal with H : (_ <? _) = true |- _ => apply Z.ltb_lt in H end.
    split; [assumption|lia]. }
  split.
  - apply increasing_sorted, Hs.
  - apply List.Forall_forall. intros x Hx. split; apply (H x Hx).
  - apply List.Forall_forall. intros x Hx. apply (H x Hx).
Qed.

(** ** The exponent of a prime in an integer *)

Section Valuation.

Variable x : Z.
Hypothesis Hx : Z.prime x.

Lemma has_val_mul a b e d :
  has_val x a e → has_val x b d → has_val x (a * b) (e + d).
Proof.
  intros (He & c1 & -> & H1) (Hd & c2 & -> & H2). split; [lia|].
  exists (c1 * c2). split.
  - rewrite Z.pow_add_r by lia. ring.
  - intros [H|H]%(Z.divide_prime_mul _ _ _ Hx); tauto.
Qed.

Lemma has_val_inj n e d : has_val x n e → has_val x n d → e = d.
Proof.
  pose proof (Z.prime_ge_2 _ Hx) as H2.
  assert (∀ e d c1 c2, 0 <= e → e < d → x ^ e * c1 = x ^ d * c2 →
                       ¬ (x | c1) → False) as Hlt.
  { intros e0 d0 c1 c2 He0 Hed E H1. apply H1.
    replace d0 with (e0 + (d0 - e0)) in E by lia.
    rewrite Z.pow_add_r in E by lia.
    assert (0 < x ^ e0) by (apply Z.pow_pos_nonneg; lia).
    assert (c1 = x ^ (d0 - e0) * c2) as -> by nia.
    apply Z.divide_mul_l.
    replace (d0 - e0) with (1 + (d0 - e0 - 1)) by lia.
    rewrite Z.pow_add_r, Z.pow_1_r by lia. apply Z.divide_factor_l. }
  intros (He & c1 & E1 & H1) (Hd & c2 & E2 & H2').
  destruct (Z.lt_trichotomy e d) as [H|[H|H]]; [exfalso|exact H|exfalso].
  - apply (Hlt e d c1 c2); auto. congruence.
  - apply (Hlt d e c2 c1); auto. congruence.
Qed.

Lemma has_val_pow2 k : x ≠ 2 → 0 <= k → has_val x (2 ^ k) 0.
Proof.
  intros Hne Hk. split; [lia|]. exists (2 ^ k). split; [lia|].
  intros H. apply (Z.divide_prime_pp _ _ _ Hx Z.prime_2 Hk) in H. auto.
Qed.

Lemma not_in_not_div f :
  fac_wf f → ¬ In x (facs f) → ¬ (x | eval f).
Proof.
  intros Wf Hin Hd.
  destruct (prime_in_eval f x) as (e & He & _); auto.
  - destruct Wf as [_ Wp _]. eapply List.Forall_impl; [|exact Wp].
    cbn beta. tauto.
  - apply fac_wf_pows_nonneg, Wf.
  - apply Hin. eapply in_facs, He.
Qed.

Lemma fac_wf_tail a f : fac_wf (a :: f) → fac_wf f.
Proof.
  intros [Hs Hp He]. split.
  - cbn [facs map] in Hs. apply StronglySorted_inv in Hs. apply Hs.
  - apply (Forall_inv_tail Hp).
  - apply (Forall_inv_tail He).
Qed.

Lemma has_val_eval f : fac_wf f → has_val x (eval f) (pow_of x f).
Proof.
  induction f as [|[y e] f IH]; intros Wf.
  - cbn [eval pow_of]. split; [lia|]. exists 1. split; [reflexivity|].
    intros H%Z.divide_1_r. apply Z.prime_ge_2 in Hx. lia.
  - pose proof (fac_wf_tail _ _ Wf) as Wf'.
    pose proof (Forall_inv (wf_pow _ Wf)) as He. cbn in He.
    pose proof (Forall_inv (wf_prime _ Wf)) as [Hy _]. cbn in Hy.
    cbn [eval pow_of]. destruct (Z.eqb_spec x y) as [<-|Hne].
    + split; [lia|]. exists (eval f). split; [reflexivity|].
      apply not_in_not_div; [exact Wf'|]. intros Hin.
      pose proof (sorted_head_lt x (facs f) x (wf_sorted _ Wf) Hin). lia.
    + replace (pow_of x f) with (0 + pow_of x f) by lia.
      apply has_val_mul; [|apply IH, Wf'].
      split; [lia|]. exists (y ^ e). split; [lia|].
      intros H. apply (Z.divide_prime_pp _ _ _ Hx Hy) in H; [auto|lia].
Qed.

End Valuation.

(** ** How often an odd prime divides the series

    The exponents of a factored [p] or [g] are bounded through the number
    that the form divides: a product of terms of the series, which divides
    a product of factorials and of powers of [C^3/24]. *)

Section PrimePower.

Variable x : Z.
Hypothesis Hx : Z.prime x.

Lemma has_val_unit c : ¬ (x | c) → has_val x c 0.
Proof. intros H. split; [lia|]. exists c. split; [ring|exact H]. Qed.

Lemma has_val_self k : 0 <= k → has_val x (x ^ k) k.
Proof.
  intros Hk. split; [exact Hk|]. exists 1. split; [ring|].
  intros H%Z.divide_1_r. apply Z.prime_ge_2 in Hx. lia.
Qed.

Lemma has_val_div_le n e k :
  has_val x n e → 0 <= k → (x ^ k | n) → k <= e.
Proof.
  intros (He & c & -> & Hc) Hk Hd. pose proof (Z.prime_ge_2 _ Hx) as H2.
  destruct (Z.le_gt_cases k e) as [|Hlt]; [assumption|]. exfalso. apply Hc.
  replace k with (e + (1 + (k - e - 1))) in Hd by lia.
  rewrite !Z.pow_add_r, Z.pow_1_r in Hd by lia.
  apply Z.mul_divide_cancel_l in Hd.
  - etransitivity; [|exact Hd]. apply Z.divide_mul_l, Z.divide_refl.
  - apply Z.pow_nonzero; lia.
Qed.

Lemma has_val_pow n e (k : nat) :
  has_val x n e → has_val x (n ^ Z.of_nat k) (e * Z.of_nat k).
Proof.
  intros H. induction k as [|k IH].
  - cbn. rewrite Z.mul_0_r. apply has_val_unit.
    intros H1%Z.divide_1_r. apply Z.prime_ge_2 in Hx. lia.
  - rewrite Nat2Z.inj_succ, Z.pow_succ_r by lia.
    replace (e * Z.succ (Z.of_nat k)) with (e + e * Z.of_nat k) by lia.
    apply has_val_mul; assumption.
Qed.

(** [n!] is [x^m * m!] times the numbers up to [n] that [x] does not
    divide, where [m = n / x]. *)
Lemma zfact_multiples (n : nat) :
  ∃ R, zfact n = x ^ (Z.of_nat n / x) * zfact (Z.to_nat (Z.of_nat n / x)) * R
       ∧ ¬ (x | R).
Proof.
  pose proof (Z.prime_ge_2 _ Hx) as H2. induction n as [|n (R & E & HR)].
  - exists 1. cbn [Z.of_nat]. rewrite Z.div_0_l by lia. cbn. split; [reflexivity|].
    intros H%Z.divide_1_r. lia.
  - set (N := Z.of_nat n) in *. set (m := N / x) in *.
    assert (0 <= m) as Hm by (apply Z.div_pos; lia).
    assert (Z.of_nat (S n) = N + 1) as HS by lia.
    cbn [zfact]. rewrite HS, E.
    destruct (Z.eq_dec ((N + 1) mod x) 0) as [H0|H0].
    + assert ((N + 1) / x = m + 1) as Hq.
      { unfold m. Z.to_euclidean_division_equations. nia. }
      assert (N + 1 = x * (m + 1)) as HN.
      { rewrite <- Hq. Z.to_euclidean_division_equations. nia. }
      exists R. split; [|exact HR]. rewrite Hq.
      replace (Z.to_nat (m + 1)) with (S (Z.to_nat m)) by lia.
      cbn [zfact]. rewrite Nat2Z.inj_succ, Z2Nat.id by lia.
      rewrite Z.pow_add_r, Z.pow_1_r by lia. rewrite HN. unfold Z.succ. ring.
    + assert ((N + 1) / x = m) as Hq.
      { unfold m. Z.to_euclidean_division_equations. nia. }
      exists ((N + 1) * R). split; [rewrite Hq; ring|].
      intros [H|H]%(Z.divide_prime_mul _ _ _ Hx); [|tauto].
      apply H0. apply Z.mod_divide; [lia|exact H].
Qed.

(** An odd prime divides [n!] at most [n/2] times. *)
Lemma zfact_val :
  3 <= x → ∀ n : nat, ∃ e, has_val x (zfact n) e ∧ 2 * e <= Z.of_nat n.
Proof.
  intros H3 n. induction n as [n IH] using lt_wf_ind.
  destruct n as [|n].
  - exists 0. split; [|cbn; lia]. apply has_val_unit.
    intros H%Z.divide_1_r. lia.
  - destruct (zfact_multiples (S n)) as (R & -> & HR).
    set (m := Z.of_nat (S n) / x).
    assert (0 <= m ∧ 3 * m <= Z.of_nat (S n)) as [Hm0 Hm].
    { unfold m. split; [apply Z.div_pos; lia|].
      Z.to_euclidean_division_equations. nia. }
    destruct (IH (Z.to_nat m) ltac:(lia)) as (e & He & Hle).
    exists (m + e + 0). split; [|lia].
    apply has_val_mul; [exact Hx| |apply has_val_unit; exact HR].
    apply has_val_mul; [exact Hx|apply has_val_self; exact Hm0|exact He].
Qed.

End PrimePower.

Section SeriesExponents.

Lemma series_from_p (k : nat) :
  (series_from 0 k).1.1 = zfact k ^ 3 * (C ^ 3 / 24) ^ Z.of_nat k.
Proof.
  induction k as [|k IH]; [reflexivity|].
  cbn [series_from zfact]. rewrite Nat2Z.inj_succ, Z.pow_succ_r by lia.
  destruct (series_from 0 k) as [[p1 q1] g1]. cbn [fst] in IH. subst p1.
  unfold term. cbn [merge fst]. unfold Z.succ. ring.
Qed.

Lemma series_from_g (k : nat) :
  ((series_from 0 k).2 | zfact (6 * k) * zfact (2 * k)).
Proof.
  induction k as [|k [c IH]]; [exists 1; reflexivity|].
  replace (6 * S k)%nat with (S (S (S (S (S (S (6 * k)))))))%nat by lia.
  replace (2 * S k)%nat with (S (S (2 * k)))%nat by lia.
  cbn [series_from zfact]. rewrite !Nat2Z.inj_succ.
  rewrite !Nat2Z.inj_mul. change (Z.of_nat 6) with 6. change (Z.of_nat 2) with 2.
  set (n := Z.of_nat k) in *.
  destruct (series_from 0 k) as [[p1 q1] g1]. cbn [snd] in IH.
  unfold term. cbn [merge snd]. unfold Z.succ.
  exists (c * ((6 * n + 6) * (6 * n + 4) * (6 * n + 3) * (6 * n + 2)
               * (2 * n + 2))).
  transitivity
    ((zfact (6 * k) * zfact (2 * k))
     * ((6 * n + 6) * (6 * n + 5) * (6 * n + 4) * (6 * n + 3) * (6 * n + 2)
        * (6 * n + 1) * ((2 * n + 2) * (2 * n + 1)))); [ring|].
  rewrite IH. ring.
Qed.

Lemma series_prefix a b :
  0 <= a → a <= b →
  ((series a b).1.1 | (series 0 b).1.1) ∧ ((series a b).2 | (series 0 b).2).
Proof.
  intros Ha Hab. rewrite (series_split 0 a b) by lia.
  destruct (series 0 a) as [[p1 q1] g1], (series a b) as [[p2 q2] g2].
  cbn [merge fst snd]. split; apply Z.divide_factor_r.
Qed.

Variable x : Z.
Hypothesis Hx : Z.prime x.
Hypothesis Hx2 : x ≠ 2.

Lemma odd_prime_ge_3 : 3 <= x.
Proof. apply Z.prime_ge_2 in Hx. lia. Qed.

(** [C^3/24 = 2^15 * 3^2 * 5^3 * 23^3 * 29^3]. *)
Lemma has_val_C3 : ∃ e, has_val x (C ^ 3 / 24) e ∧ e <= 3.
Proof.
  set (f := [(2, 15); (3, 2); (5, 3); (23, 3); (29, 3)]).
  assert (fac_wf f) as Wf.
  { split.
    - repeat constructor.
    - repeat constructor; apply is_prime_ok; reflexivity.
    - repeat constructor. }
  exists (pow_of x f). split.
  - change (C ^ 3 / 24) with (eval f). apply has_val_eval; assumption.
  - unfold f. cbn [pow_of].
    repeat match goal with |- context [x =? ?y] => destruct (Z.eqb_spec x y) end;
      lia.
Qed.

(** An odd prime divides the [p] of a range that ends at [b] at most [5b]
    times, and its [g] at most [4b] times. *)
Lemma series_p_exponent a b k :
  0 <= a → a <= b → 0 <= k → (x ^ k | (series a b).1.1) → k <= 5 * b.
Proof.
  intros Ha Hab Hk Hd. pose proof odd_prime_ge_3 as H3.
  destruct (series_prefix a b Ha Hab) as [Hp _].
  assert (x ^ k | (series 0 b).1.1) as Hd' by (etransitivity; eassumption).
  unfold series in Hd'. rewrite Z.sub_0_r, series_from_p in Hd'.
  destruct (zfact_val x Hx H3 (Z.to_nat b)) as (e1 & V1 & Hle1).
  destruct has_val_C3 as (e2 & V2 & Hle2).
  pose proof (has_val_mul x Hx _ _ _ _
                (has_val_pow x Hx _ _ 3 V1)
                (has_val_pow x Hx _ _ (Z.to_nat b) V2)) as V.
  change (Z.of_nat 3) with 3 in V.
  pose proof (has_val_div_le x Hx _ _ _ V Hk Hd') as Hle.
  rewrite Z2Nat.id in * by lia. nia.
Qed.

Lemma series_g_exponent a b k :
  0 <= a → a <= b → 0 <= k → (x ^ k | (series a b).2) → k <= 4 * b.
Proof.
  intros Ha Hab Hk Hd. pose proof odd_prime_ge_3 as H3.
  destruct (series_prefix a b Ha Hab) as [_ Hg].
  assert (x ^ k | zfact (6 * Z.to_nat b) * zfact (2 * Z.to_nat b)) as Hd'.
  { etransitivity; [exact Hd|]. etransitivity; [exact Hg|].
    unfold series. rewrite Z.sub_0_r. apply series_from_g. }
  destruct (zfact_val x Hx H3 (6 * Z.to_nat b)) as (e1 & V1 & Hle1).
  destruct (zfact_val x Hx H3 (2 * Z.to_nat b)) as (e2 & V2 & Hle2).
  pose proof (has_val_div_le x Hx _ _ _ (has_val_mul x Hx _ _ _ _ V1 V2) Hk Hd').
  lia.
Qed.

End SeriesExponents.

(** Exponent sums fit when the product of the two forms, the first of them
    odd, divides a number that no odd prime divides more than [K] times. *)
Lemma pow_sums_fit_of_val f h N K :
  fac_wf f → fac_wf h → Z.odd (eval f) = true → (eval f * eval h | N) →
  (∀ x k, Z.prime x → x ≠ 2 → 0 <= k → (x ^ k | N) → k <= K) →
  K < uint_mod → pow_sums_fit f h.
Proof.
  intros Wf Wh Ho Hd HN HK x e d Hf Hh.
  pose proof (fac_wf_pows_pos _ Wf) as Pf.
  pose proof (fac_wf_pows_pos _ Wh) as Ph.
  rewrite List.Forall_forall in Pf, Ph.
  specialize (Pf _ Hf). specialize (Ph _ Hh). cbn [snd] in Pf, Ph.
  destruct Wf as [_ Wp _]. rewrite List.Forall_forall in Wp.
  destruct (Wp _ Hf) as [Hx _]. cbn [fst] in Hx.
  pose proof (pow_div_eval _ _ _ Hf) as Df.
  pose proof (pow_div_eval _ _ _ Hh) as Dh.
  assert (x ≠ 2) as Hx2.
  { intros ->. replace e with (1 + (e - 1)) in Df by lia.
    rewrite Z.pow_add_r, Z.pow_1_r in Df by lia.
    destruct Df as [u Hu]. rewrite Hu in Ho.
    rewrite !Z.odd_mul in Ho. cbn in Ho.
    rewrite andb_false_r in Ho. discriminate. }
  enough (e + d <= K) by lia.
  apply (HN x); [exact Hx|exact Hx2|lia|].
  rewrite Z.pow_add_r by lia. etransitivity; [|exact Hd].
  destruct Df as [u ->], Dh as [w ->]. exists (u * w). ring.
Qed.

(** ** The leaves of [bs] *)

Section Leaf.

Lemma land_1_odd b : (Z.land b 1 =? 0) = negb (Z.odd b).
Proof.
  change 1 with (Z.ones 1) at 1. rewrite Z.land_ones by lia.
  change (2 ^ 1) with 2. rewrite Zmod_odd.
  destruct (Z.odd b); reflexivity.
Qed.

Lemma odd_part_ok fuel :
  ∀ b, 0 < b < 2 ^ Z.of_nat fuel →
       ∃ i t, odd_part fuel b = Ok i ∧ Z.odd i = true ∧ 0 <= t ∧
              b = 2 ^ t * i ∧ 1 <= i <= b.
Proof.
  induction fuel as [|fuel IH]; intros b Hb.
  { cbn in Hb. lia. }
  cbn [odd_part]. rewrite land_1_odd.
  destruct (Z.odd b) eqn:Ho; cbn [negb].
  - exists b, 0. rewrite Z.pow_0_r.
    repeat match goal with |- _ ∧ _ => split end;
      first [reflexivity | assumption | lia].
  - rewrite Z.shiftr_div_pow2 by lia. change (2 ^ 1) with 2.
    assert (b = 2 * (b / 2)) as Hhalf.
    { rewrite <- Z.negb_even in Ho. apply negb_false_iff in Ho.
      apply Z.even_spec in Ho as [k ->].
      Z.to_euclidean_division_equations. lia. }
    rewrite Nat2Z.inj_succ, Z.pow_succ_r in Hb by lia.
    destruct (IH (b / 2) ltac:(lia)) as (i & t & -> & Hi & Ht & Hbt & Hib).
    exists i, (t + 1). rewrite Z.pow_add_r, Z.pow_1_r by lia.
    repeat match goal with |- _ ∧ _ => split end;
      first [reflexivity | assumption | lia].
Qed.

(** Merging two forms with bounded exponents. *)
Lemma fac_mul2_bounded f h lo K1 K2 :
  fac_wf f → fac_wf h →
  Forall (λ x, lo <= x.2 < K1) f → Forall (λ x, lo <= x.2 < K2) h →
  0 <= lo → 0 <= K1 → 0 <= K2 → K1 + K2 <= uint_mod →
  fac_wf (fac_mul2 f h) ∧ eval (fac_mul2 f h) = eval f * eval h ∧
  Forall (λ x, lo <= x.2 < K1 + K2) (fac_mul2 f h).
Proof.
  intros Wf Wh Bf Bh Hlo HK1 HK2 HK.
  rewrite List.Forall_forall in Bf, Bh.
  assert (pow_sums_fit f h) as Hfit.
  { intros x e d Hf Hh. specialize (Bf _ Hf). specialize (Bh _ Hh).
    cbn [snd] in Bf, Bh. lia. }
  split; [apply fac_wf_mul2; assumption|]. split.
  - apply eval_fac_mul2; try assumption; apply fac_wf_pows_nonneg; assumption.
  - apply List.Forall_forall. intros [x c] Hin.
    apply in_fac_mul2 in Hin as [H|[H|(e & d & H1 & H2 & ->)]].
    + specialize (Bf _ H). cbn [snd] in *. lia.
    + specialize (Bh _ H). cbn [snd] in *. lia.
    + specialize (Bf _ H1). specialize (Bh _ H2). cbn [snd] in *.
      rewrite wrap_small by (unfold is_uint; lia). lia.
Qed.

Lemma chain_post_bounds v pw f :
  chain_post v pw f → Forall (λ x, pw <= x.2 < 32 * pw) f.
Proof.
  intros (_ & _ & H). eapply List.Forall_impl; [|exact H].
  cbn beta. tauto.
Qed.

(** The head of a sorted form of odd factors that has the factor 3. *)
Lemma head_is_3 f :
  fac_wf f → Forall (λ x, Z.odd x.1 = true) f → (3 | eval f) →
  ∃ e f', f = (3, e) :: f'.
Proof.
  intros Wf Ho H3.
  destruct (prime_in_eval f 3) as (e & He & _);
    [|apply fac_wf_pows_nonneg; exact Wf|exact Z.prime_3|exact H3|].
  { destruct Wf as [_ Wp _]. eapply List.Forall_impl; [|exact Wp].
    cbn beta. tauto. }
  destruct f as [|[x0 e0] f']; [destruct He|].
  pose proof (Forall_inv Ho) as Hx0. cbn [fst] in Hx0.
  pose proof (fac_wf_facs_pos _ Wf) as Hpos.
  pose proof (Forall_inv Hpos) as Hx0p. cbn [fst] in Hx0p.
  destruct Wf as [Ws Wp _]. pose proof (Forall_inv Wp) as [Hx0pr _].
  apply Z.prime_ge_2 in Hx0pr. cbn [fst] in Hx0pr.
  assert (3 <= x0) as Hge.
  { apply Z.odd_spec in Hx0 as [k ->]. lia. }
  destruct He as [[= -> ->]|He]; [eauto|].
  apply in_facs in He. cbn [facs map fst] in Ws.
  pose proof (sorted_head_lt _ _ _ Ws He). lia.
Qed.

End Leaf.

Section LeafOk.

Variables (n : Z) (s : list sieve_t).
Hypothesis Hs : sieve_ok n s.
Hypothesis Hn : n < uint_mod.
Hypothesis Hn5 : 10005 <= n.

Lemma chain_facs_odd v pw f :
  Z.odd v = true → chain_post v pw f → Forall (λ x, Z.odd x.1 = true) f.
Proof.
  intros Hv (_ & _ & H). eapply List.Forall_impl; [|exact H].
  cbn beta. intros x (_ & Hd & _). eapply odd_divisor; eassumption.
Qed.

(** The factored [p] of a leaf: [i^3 * 10005^3 / 3]. *)
Lemma leaf_fp_ok i :
  1 <= i <= n → Z.odd i = true →
  ∃ f1 h,
    fac_set_bp s i 3 = Ok f1 ∧
    fac_mul_bp s f1 (3 * 5 * 23 * 29) 3 = Ok h ∧
    fac_wf (dec_first h) ∧
    eval (dec_first h) = i ^ 3 * 333833583375.
Proof.
  intros Hi Hio. pose proof uint_mod_eq as HU.
  destruct (fac_set_bp_ok n s Hs Hn i 3) as (f1 & E1 & P1); try lia;
    [exact Hio|].
  destruct (fac_set_bp_ok n s Hs Hn 10005 3) as (f2 & E2 & P2); try lia;
    [reflexivity|].
  exists f1, (fac_mul2 f1 f2). split; [exact E1|].
  unfold fac_mul_bp. change (3 * 5 * 23 * 29) with 10005. rewrite E2.
  split; [reflexivity|].
  pose proof (chain_post_bounds _ _ _ P1) as B1.
  pose proof (chain_post_bounds _ _ _ P2) as B2.
  pose proof (chain_facs_odd _ _ _ Hio P1) as O1.
  pose proof (chain_facs_odd 10005 _ _ eq_refl P2) as O2.
  destruct P1 as (W1 & V1 & _), P2 as (W2 & V2 & _).
  destruct (fac_mul2_bounded f1 f2 3 (32 * 3) (32 * 3) W1 W2 B1 B2)
    as (Wh & Vh & Bh); try lia.
  set (h := fac_mul2 f1 f2) in *.
  assert (Forall (λ x, Z.odd x.1 = true) h) as Oh.
  { apply List.Forall_forall. intros [x c] Hin. cbn [fst].
    rewrite List.Forall_forall in O1, O2.
    apply in_fac_mul2 in Hin as [H|[H|(e & d & H & _ & _)]].
    - apply (O1 _ H).
    - apply (O2 _ H).
    - apply (O1 _ H). }
  assert (eval h = i ^ 3 * 3 * 333833583375) as Eh
      by (rewrite Vh, V1, V2; change (10005 ^ 3) with (3 * 333833583375); ring).
  destruct (head_is_3 h Wh Oh) as (e0 & h' & Hh).
  { rewrite Eh. exists (i ^ 3 * 333833583375). ring. }
  rewrite Hh in *. cbn [dec_first].
  pose proof (Forall_inv Bh) as He0. cbn [snd] in He0.
  rewrite wrap_small by (unfold is_uint; lia).
  split.
  - destruct Wh as [Sh Ph Eh']. split.
    + exact Sh.
    + constructor; [exact (Forall_inv Ph)|exact (Forall_inv_tail Ph)].
    + constructor; [cbn [snd]; lia|exact (Forall_inv_tail Eh')].
  - cbn [eval] in Eh |- *.
    replace e0 with (e0 - 1 + 1) in Eh by lia.
    rewrite Z.pow_add_r, Z.pow_1_r in Eh by lia. lia.
Qed.

(** The factored [g] of a leaf. *)
Lemma leaf_fg_ok x y z :
  1 <= x <= n → 1 <= y <= n → 1 <= z <= n →
  Z.odd x = true → Z.odd y = true → Z.odd z = true →
  ∃ f1 f2 f3,
    fac_set_bp s x 1 = Ok f1 ∧
    fac_mul_bp s f1 y 1 = Ok f2 ∧
    fac_mul_bp s f2 z 1 = Ok f3 ∧
    fac_wf f3 ∧ eval f3 = x * y * z.
Proof.
  intros Hx Hy Hz Hxo Hyo Hzo. pose proof uint_mod_eq as HU.
  destruct (fac_set_bp_ok n s Hs Hn x 1) as (f1 & E1 & P1); try lia;
    [exact Hxo|].
  destruct (fac_set_bp_ok n s Hs Hn y 1) as (f2 & E2 & P2); try lia;
    [exact Hyo|].
  destruct (fac_set_bp_ok n s Hs Hn z 1) as (f3 & E3 & P3); try lia;
    [exact Hzo|].
  pose proof (chain_post_bounds _ _ _ P1) as B1.
  pose proof (chain_post_bounds _ _ _ P2) as B2.
  pose proof (chain_post_bounds _ _ _ P3) as B3.
  destruct P1 as (W1 & V1 & _), P2 as (W2 & V2 & _), P3 as (W3 & V3 & _).
  destruct (fac_mul2_bounded f1 f2 1 (32 * 1) (32 * 1) W1 W2 B1 B2)
    as (W12 & V12 & B12); try lia.
  destruct (fac_mul2_bounded (fac_mul2 f1 f2) f3 1 (32 * 1 + 32 * 1) (32 * 1)
              W12 W3 B12 B3) as (W123 & V123 & _); try lia.
  exists f1, (fac_mul2 f1 f2), (fac_mul2 (fac_mul2 f1 f2) f3).
  unfold fac_mul_bp, fac_mul. rewrite E1, E2, E3.
  repeat match goal with |- _ ∧ _ => split end; try reflexivity.
  - exact W123.
  - rewrite V123, V12, V1, V2, V3, !Z.pow_1_r. reflexivity.
Qed.

Lemma bs_leaf_ok terms b :
  1 <= b → 6 * b <= n →
  ∃ x, bs_leaf s b = Ok x ∧ bs_inv (b - 1) b terms x.
Proof.
  intros Hb Hbn. pose proof uint_mod_eq as HU.
  destruct (odd_part_ok 32 b) as (i & t & Ei & Hio & Ht & Hbt & Hib).
  { change (2 ^ Z.of_nat 32) with 4294967296. lia. }
  destruct (leaf_fp_ok i ltac:(lia) Hio) as (f1 & h & E1 & E2 & Wp & Vp).
  assert (Z.odd (2 * b - 1) = true) as O1.
  { replace (2 * b - 1) with (1 + 2 * (b - 1)) by lia.
    apply Z.odd_add_mul_2. }
  assert (Z.odd (6 * b - 1) = true) as O2.
  { replace (6 * b - 1) with (1 + 2 * (3 * b - 1)) by lia.
    apply Z.odd_add_mul_2. }
  assert (Z.odd (6 * b - 5) = true) as O3.
  { replace (6 * b - 5) with (1 + 2 * (3 * b - 3)) by lia.
    apply Z.odd_add_mul_2. }
  destruct (leaf_fg_ok (2 * b - 1) (6 * b - 1) (6 * b - 5))
    as (g1 & g2 & g3 & G1 & G2 & G3 & Wg & Vg); try lia; try assumption.
  unfold bs_leaf. change (Z.to_nat uint_bits) with 32%nat.
  rewrite Ei. cbn [mbind res_bind]. rewrite E1. cbn [mbind res_bind].
  rewrite E2. cbn [mbind res_bind].
  rewrite !wrap_small by (unfold is_uint; lia).
  rewrite G1. cbn [mbind res_bind]. rewrite G2. cbn [mbind res_bind].
  rewrite G3. cbn [mbind res_bind].
  eexists. split; [reflexivity|].
  change (C / 24 * (C / 24)) with 711822400.
  change (C * 24) with 15367680.
  assert (0 < i ^ 3) as Hi3 by (apply Z.pow_pos_nonneg; lia).
  assert (0 < 2 ^ t) as H2t by (apply Z.pow_pos_nonneg; lia).
  split; cbn [p q g fp fg].
  - exact Wp.
  - exact Wg.
  - nia.
  - rewrite Vp. split.
    + rewrite Z.odd_mul, !Z.odd_pow by lia. rewrite Hio. reflexivity.
    + exists (3 * t + 15). split; [lia|].
      rewrite Z.pow_add_r by lia. change (2 ^ 15) with 32768.
      replace (2 ^ (3 * t)) with ((2 ^ t) ^ 3)
        by (rewrite <- Z.pow_mul_r by lia; f_equal; lia).
      rewrite Hbt at 1 2 3. ring.
  - rewrite Vg. reflexivity.
  - rewrite !Z.odd_mul, O1, O2, O3. reflexivity.
  - exists 1. rewrite series_one. unfold reduces, triple, term.
    cbn [fst snd p q g]. change (C ^ 3 / 24) with 10939058860032000.
    split; [lia|]. split; [ring|]. split.
    + rewrite Zmod_even. destruct (Z.even b); cbn [Z.eqb]; ring.
    + intros _. ring.
Qed.

End LeafOk.

(** ** The inner nodes of [bs] *)

Section Node.

Variable terms : Z.
Hypothesis Hterms : terms <= MAX_DIGITS / 14.

(** The cancellation step, taken or not. *)
Lemma gcd_step_ok level (l r : tmp_t) :
  fac_wf (fp r) → fac_wf (fg l) →
  (eval (fp r) | p r) → (eval (fg l) | g l) →
  ∃ pj fpj g1 fg1 d0,
    (if 4 <=? level then fac_remove_gcd (p r) (fp r) (g l) (fg l)
     else Ok (p r, fp r, g l, fg l)) = Ok (pj, fpj, g1, fg1) ∧
    0 < d0 ∧ p r = d0 * pj ∧ g l = d0 * g1 ∧
    eval (fp r) = d0 * eval fpj ∧ eval (fg l) = d0 * eval fg1 ∧
    fac_wf fpj ∧ fac_wf fg1.
Proof.
  intros Wp Wg Dp Dg. destruct (4 <=? level).
  - destruct (fac_remove_gcd_spec _ _ _ _ Wp Wg Dp Dg)
      as (p' & fp' & g' & fg' & E & Hd & Hp & Hg & Hfp & Hfg & Wp' & Wg' & _).
    exists p', fp', g', fg', (eval (shared (fp r) (fg l))). tauto.
  - exists (p r), (fp r), (g l), (fg l), 1.
    repeat match goal with |- _ ∧ _ => split end;
      first [reflexivity | lia | assumption].
Qed.

Lemma bs_node_ok a mid b level (l r : tmp_t) :
  0 <= a → a < mid → mid < b → b <= terms →
  bs_inv a mid terms l → bs_inv mid b terms r →
  ∃ x, bs_node false b terms level l r = Ok x ∧ bs_inv a b terms x.
Proof.
  intros Ha Ham Hmb Hbt Il Ir. pose proof uint_mod_eq as HU.
  change (MAX_DIGITS / 14) with 714285714 in Hterms.
  destruct Il as [Wlp Wlg Plp [Olp (kl & Hkl & Ekl)] Elg Olg (dl & Rl)].
  destruct Ir as [Wrp Wrg Prp [Orp (kr & Hkr & Ekr)] Erg Org (dr & Rr)].
  destruct (gcd_step_ok level l r Wrp Wlg)
    as (pj & fpj & g1 & fg1 & d0 & E & Hd0 & Hpj & Hg1 & Hfpj & Hfg1 & Wpj & Wg1).
  { exists (2 ^ kr). rewrite Ekr. reflexivity. }
  { rewrite Elg. apply Z.divide_refl. }
  unfold bs_node. rewrite E. cbn [mbind res_bind orb].
  (* what the cancellation leaves *)
  assert (0 < pj) as Ppj by nia.
  assert (pj = 2 ^ kr * eval fpj) as Ekj.
  { apply (Z.mul_cancel_l _ _ d0); [lia|].
    rewrite <- Hpj, Ekr, Hfpj. ring. }
  assert (Z.odd (eval fpj) = true) as Opj
      by (rewrite Hfpj in Orp; apply odd_quotient in Orp; exact Orp).
  assert (g1 = eval fg1) as Eg1.
  { apply (Z.mul_cancel_l _ _ d0); [lia|]. rewrite <- Hg1, <- Hfg1. exact Elg. }
  assert (Z.odd g1 = true) as Og1
      by (rewrite Hg1 in Olg; apply odd_quotient in Olg; exact Olg).
  (* the series *)
  pose proof (series_split a mid b ltac:(lia) ltac:(lia)) as Hsplit.
  pose proof (f_equal (λ t, t.1.1) Hsplit) as HPab.
  pose proof (f_equal (λ t, t.2) Hsplit) as HGab. cbn beta in HPab, HGab.
  destruct Rl as (Hdl & RlP & RlQ & RlG). specialize (RlG ltac:(lia)).
  destruct Rr as (Hdr & RrP & RrQ & RrG).
  destruct (series a mid) as [[Pl Ql] Gl], (series mid b) as [[Pr Qr] Gr].
  unfold triple in *. cbn [fst snd] in RlP, RlQ, RlG, RrP, RrQ, RrG.
  cbn [merge fst snd] in HPab, HGab.
  assert (0 < dl * dr * d0) as Hd by nia.
  (* the factored [p] *)
  assert (pow_sums_fit (fp l) fpj) as Fitp.
  { apply (pow_sums_fit_of_val _ _ (Pl * Pr) (5 * b));
      try assumption; [| |lia].
    - exists (dl * dr * d0 * 2 ^ kl * 2 ^ kr).
      rewrite RlP, RrP, Hpj, Ekl, Ekj. ring.
    - intros x k Hx Hx2 Hk Hd'. rewrite <- HPab in Hd'.
      apply (series_p_exponent x Hx Hx2 a b); assumption || lia. }
  pose proof (fac_wf_mul2 _ _ Wlp Wpj Fitp) as Wp1.
  pose proof (eval_fac_mul2 _ _ (fac_wf_pows_nonneg _ Wlp)
                (fac_wf_pows_nonneg _ Wpj) Fitp) as Vp1.
  destruct (Z.ltb_spec b terms) as [Hlt|Hge].
  - (* [g] is multiplied *)
    specialize (RrG Hlt).
    assert (pow_sums_fit fg1 (fg r)) as Fitg.
    { apply (pow_sums_fit_of_val _ _ (Gl * Gr) (4 * b));
        try assumption; [| | |lia].
      - rewrite <- Eg1. exact Og1.
      - exists (dl * dr * d0).
        rewrite RlG, RrG, Hg1, Eg1, Erg. ring.
      - intros x k Hx Hx2 Hk Hd'. rewrite <- HGab in Hd'.
        apply (series_g_exponent x Hx Hx2 a b); assumption || lia. }
    pose proof (fac_wf_mul2 _ _ Wg1 Wrg Fitg) as Wg2.
    pose proof (eval_fac_mul2 _ _ (fac_wf_pows_nonneg _ Wg1)
                  (fac_wf_pows_nonneg _ Wrg) Fitg) as Vg2.
    eexists. split; [reflexivity|].
    split; cbn [p q g fp fg]; unfold fac_mul.
    + exact Wp1.
    + exact Wg2.
    + nia.
    + rewrite Vp1. split.
      * rewrite Z.odd_mul, Olp, Opj. reflexivity.
      * exists (kl + kr). split; [lia|].
        rewrite Z.pow_add_r, Ekl, Ekj by lia. ring.
    + rewrite Vg2, Eg1, Erg. reflexivity.
    + rewrite Z.odd_mul, Og1, Org. reflexivity.
    + exists (dl * dr * d0). split; [exact Hd|].
      rewrite Hsplit. unfold triple. cbn [merge fst snd p q g].
      split; [rewrite RlP, RrP, Hpj; ring|].
      split; [rewrite RlQ, RrP, RrQ, RlG, Hpj, Hg1; ring|].
      intros _. rewrite RlG, RrG, Hg1. ring.
  - (* the range ends at [terms]: [g] is left as it is *)
    eexists. split; [reflexivity|].
    split; cbn [p q g fp fg]; unfold fac_mul.
    + exact Wp1.
    + exact Wg1.
    + nia.
    + rewrite Vp1. split.
      * rewrite Z.odd_mul, Olp, Opj. reflexivity.
      * exists (kl + kr). split; [lia|].
        rewrite Z.pow_add_r, Ekl, Ekj by lia. ring.
    + exact Eg1.
    + exact Og1.
    + exists (dl * dr * d0). split; [exact Hd|].
      rewrite Hsplit. unfold triple. cbn [merge fst snd p q g].
      split; [rewrite RlP, RrP, Hpj; ring|].
      split; [rewrite RlQ, RrP, RrQ, RlG, Hpj, Hg1; ring|].
      intros Hlt. lia.
Qed.

End Node.

(** ** [bs] on a range *)

Section Bs.

Variables (n : Z) (s : list sieve_t) (terms : Z).
Hypothesis Hs : sieve_ok n s.
Hypothesis Hn : n < uint_mod.
Hypothesis Hn5 : 10005 <= n.
Hypothesis Hn6 : 6 * terms <= n.
Hypothesis Hterms : terms <= MAX_DIGITS / 14.

Lemma bs_gen_ok fuel :
  ∀ a b level,
    0 <= a → a < b → b <= terms → b - a <= Z.of_nat fuel →
    ∃ x, bs_gen false fuel s a b terms level = Ok x ∧ bs_inv a b terms x.
Proof.
  induction fuel as [|fuel IH]; intros a b level Ha Hab Hbt Hf; [lia|].
  pose proof uint_mod_eq as HU. cbn [bs_gen].
  rewrite (wrap_small (b - a)) by (unfold is_uint; lia).
  destruct (Z.eqb_spec (b - a) 1) as [H1|H1].
  - replace a with (b - 1) by lia.
    apply (bs_leaf_ok n s Hs Hn Hn5); lia.
  - destruct (bs_mid_bounds a b Ha ltac:(lia) ltac:(lia)) as (mid & -> & Hm).
    cbn [mbind res_bind].
    destruct (IH a mid (wrap (level + 1))) as (l & -> & Il); try lia.
    destruct (IH mid b (wrap (level + 1))) as (r & -> & Ir); try lia.
    cbn [mbind res_bind].
    apply (bs_node_ok terms Hterms a mid b); try lia; assumption.
Qed.

End Bs.

(** ** The reduction *)

Section Sum.

Lemma stk_get_ok (l : list Z) i x :
  0 <= i → l !! Z.to_nat i = Some x → stk_get l i = Ok x.
Proof.
  intros Hi Hx. unfold stk_get.
  destruct (Z.ltb_spec i 0); [lia|]. rewrite Hx. reflexivity.
Qed.

Lemma stk_set_ok (l : list Z) i x y :
  0 <= i → l !! Z.to_nat i = Some x →
  stk_set l i y = Ok (<[Z.to_nat i := y]> l).
Proof.
  intros Hi Hx. unfold stk_set. rewrite (stk_get_ok l i x Hi Hx).
  reflexivity.
Qed.

(** [sum] without the plumbing. *)
Lemma sum_eq i k gflag r pi qi gi pk qk gk :
  0 <= i → 0 <= k → i ≠ k →
  pstack r !! Z.to_nat i = Some pi → qstack r !! Z.to_nat i = Some qi →
  gstack r !! Z.to_nat i = Some gi →
  pstack r !! Z.to_nat k = Some pk → qstack r !! Z.to_nat k = Some qk →
  gstack r !! Z.to_nat k = Some gk →
  sum i k gflag r =
    Ok (Run (trace r ++ [EvSum i k gflag])
          (<[Z.to_nat i := pi * pk]> (pstack r))
          (<[Z.to_nat i := qi * pk + qk * gi]>
             (<[Z.to_nat k := qk * gi]> (qstack r)))
          (if gflag then <[Z.to_nat i := gi * gk]> (gstack r)
           else gstack r)).
Proof.
  intros Hi Hk Hik Hpi Hqi Hgi Hpk Hqk Hgk. unfold sum.
  assert (Z.to_nat i ≠ Z.to_nat k) as Hne by lia.
  assert (Z.to_nat i < length (qstack r))%nat as Hli
      by (apply lookup_lt_is_Some; eauto).
  assert (Z.to_nat k < length (qstack r))%nat as Hlk
      by (apply lookup_lt_is_Some; eauto).
  assert ((if gflag then
             gi ← stk_get (gstack r) i;
             gk ← stk_get (gstack r) k;
             stk_set (gstack r) i (gi * gk)
           else Ok (gstack r)) =
          Ok (if gflag then <[Z.to_nat i := gi * gk]> (gstack r)
              else gstack r)) as ->.
  { destruct gflag; [|reflexivity].
    rewrite (stk_get_ok _ i gi Hi Hgi). cbn [mbind res_bind].
    rewrite (stk_get_ok _ k gk Hk Hgk). cbn [mbind res_bind].
    rewrite (stk_set_ok _ i gi _ Hi Hgi). reflexivity. }
  rewrite (stk_get_ok _ k qk Hk Hqk). cbn [mbind res_bind].
  rewrite (stk_get_ok _ i gi Hi Hgi). cbn [mbind res_bind].
  rewrite (stk_set_ok _ k qk _ Hk Hqk). cbn [mbind res_bind].
  set (qs1 := <[Z.to_nat k := qk * gi]> (qstack r)).
  assert (qs1 !! Z.to_nat i = Some qi) as Hq1i
      by (unfold qs1; rewrite list_lookup_insert_ne by lia; exact Hqi).
  assert (qs1 !! Z.to_nat k = Some (qk * gi)) as Hq1k
      by (unfold qs1; apply list_lookup_insert_eq; exact Hlk).
  assert (length qs1 = length (qstack r)) as Hlen1
      by (unfold qs1; apply length_insert).
  cbn [mbind res_bind].
  rewrite (stk_get_ok qs1 i qi Hi Hq1i). cbn [mbind res_bind].
  rewrite (stk_get_ok (pstack r) k pk Hk Hpk). cbn [mbind res_bind].
  rewrite (stk_set_ok qs1 i qi _ Hi Hq1i). cbn [mbind res_bind].
  set (qs2 := <[Z.to_nat i := qi * pk]> qs1).
  assert (qs2 !! Z.to_nat i = Some (qi * pk)) as Hq2i
      by (unfold qs2; apply list_lookup_insert_eq; lia).
  assert (qs2 !! Z.to_nat k = Some (qk * gi)) as Hq2k
      by (unfold qs2; rewrite list_lookup_insert_ne by lia; exact Hq1k).
  rewrite (stk_get_ok qs2 i _ Hi Hq2i). cbn [mbind res_bind].
  rewrite (stk_get_ok qs2 k _ Hk Hq2k). cbn [mbind res_bind].
  rewrite (stk_set_ok qs2 i _ _ Hi Hq2i). cbn [mbind res_bind].
  unfold qs2. rewrite list_insert_insert_eq.
  rewrite (stk_get_ok (pstack r) i pi Hi Hpi). cbn [mbind res_bind].
  rewrite (stk_set_ok (pstack r) i pi _ Hi Hpi). reflexivity.
Qed.

Lemma fold_merge_app l1 l2 :
  fold_merge (l1 ++ l2) = merge (fold_merge l1) (fold_merge l2).
Proof.
  unfold fold_merge. induction l1 as [|x l1 IH]; cbn [app fold_right].
  - rewrite merge_unit_l. reflexivity.
  - rewrite IH, merge_assoc. reflexivity.
Qed.

Lemma block_double ts i k :
  0 <= i → 0 <= k →
  block ts i (2 * k) = merge (block ts i k) (block ts (i + k) k).
Proof.
  intros Hi Hk. unfold block. rewrite <- fold_merge_app. f_equal.
  replace (drop (Z.to_nat (i + k)) ts)
    with (drop (Z.to_nat k) (drop (Z.to_nat i) ts))
    by (rewrite drop_drop; f_equal; lia).
  rewrite take_take_drop. f_equal. lia.
Qed.

Lemma block_short ts i k k' :
  0 <= i → Z.of_nat (length ts) <= i + k → k <= k' →
  block ts i k' = block ts i k.
Proof.
  intros Hi Hlen Hk. unfold block.
  rewrite !take_ge; [reflexivity|rewrite length_drop; lia..].
Qed.

Lemma block_one ts i t :
  0 <= i → ts !! Z.to_nat i = Some t → block ts i 1 = t.
Proof.
  intros Hi Ht. unfold block. rewrite (drop_S _ _ _ Ht).
  change (Z.to_nat 1) with 1%nat. cbn [take fold_merge fold_right].
  apply merge_unit_r.
Qed.

Lemma block_all ts k :
  Z.of_nat (length ts) <= k → block ts 0 k = fold_merge ts.
Proof.
  intros Hk. unfold block. change (Z.to_nat 0) with 0%nat.
  rewrite drop_0, take_ge by lia. reflexivity.
Qed.

End Sum.

Lemma stacks_len_get {T} r i :
  stacks_len r T → 0 <= i < T →
  ∃ pi qi gi, pstack r !! Z.to_nat i = Some pi ∧
              qstack r !! Z.to_nat i = Some qi ∧
              gstack r !! Z.to_nat i = Some gi.
Proof.
  intros (Lp & Lq & Lg) Hi.
  destruct (lookup_lt_is_Some_2 (pstack r) (Z.to_nat i)) as [pi Hp]; [lia|].
  destruct (lookup_lt_is_Some_2 (qstack r) (Z.to_nat i)) as [qi Hq]; [lia|].
  destruct (lookup_lt_is_Some_2 (gstack r) (Z.to_nat i)) as [gi Hg]; [lia|].
  eauto 10.
Qed.

Lemma mod_same_block k i i0 :
  0 < k → i mod k = 0 → i0 mod k = 0 → i0 <= i → i < i0 + k → i = i0.
Proof.
  intros Hk Hi Hi0 Hle Hlt.
  apply Z.mod_divide in Hi as [a ->]; [|lia].
  apply Z.mod_divide in Hi0 as [b ->]; [|lia].
  assert (a = b) by nia. subst. reflexivity.
Qed.

Lemma mod_double k i : 0 < k → i mod (2 * k) = 0 → i mod k = 0.
Proof.
  intros Hk Hi. apply Z.mod_divide in Hi as [a ->]; [|lia].
  apply Z.mod_divide; [lia|]. exists (a * 2). ring.
Qed.

Section Rounds.

Variables (ts : list (Z * Z * Z)) (T : Z) (keep_g : bool).
Hypothesis HT : 0 < T < 2 ^ 31.
Hypothesis Hts : Z.of_nat (length ts) = T.

(** One iteration of the loop over [i] in a round. *)
Lemma sum_step_inv k i0 r :
  1 <= k <= 2 ^ 30 → 0 <= i0 < T → i0 mod (2 * k) = 0 →
  round_inv ts T k i0 r →
  ∃ r', (if wrap (i0 + k) <? T then
           sum i0 (wrap (i0 + k))
             (keep_g || (wrap (i0 + wrap (2 * k)) <? T)) r
         else Ok r) = Ok r' ∧
        round_inv ts T k (i0 + 2 * k) r'.
Proof.
  intros Hk Hi0 Hmod (Hlen & Hinv). pose proof uint_mod_eq as HU.
  change (2 ^ 30) with 1073741824 in Hk.
  change (2 ^ 31) with 2147483648 in HT.
  rewrite (wrap_small (2 * k)) by (unfold is_uint; lia).
  rewrite (wrap_small (i0 + k)) by (unfold is_uint; lia).
  rewrite (wrap_small (i0 + 2 * k)) by (unfold is_uint; lia).
  pose proof (mod_double k i0 ltac:(lia) Hmod) as Hmodk.
  destruct (Z.ltb_spec (i0 + k) T) as [Hlt|Hge].
  - destruct (proj2 (Hinv i0 Hi0) Hmodk ltac:(lia)) as [[Hpi Hqi] Hgi].
    specialize (Hgi Hlt). unfold shard_g in Hgi.
    assert ((i0 + k) mod k = 0) as Hmodk'.
    { apply Z.mod_divide; [lia|]. apply Z.mod_divide in Hmodk as [c ->]; [|lia].
      exists (c + 1). ring. }
    destruct (proj2 (Hinv (i0 + k) ltac:(lia)) Hmodk' ltac:(lia))
      as [[Hpk Hqk] Hgk].
    destruct (stacks_len_get r (i0 + k) Hlen ltac:(lia))
      as (pk' & qk' & gk & _ & _ & Hgk').
    rewrite (sum_eq i0 (i0 + k) _ r _ _ _ _ _ gk ltac:(lia) ltac:(lia)
               ltac:(lia) Hpi Hqi Hgi Hpk Hqk Hgk').
    eexists. split; [reflexivity|].
    destruct Hlen as (Lp & Lq & Lg).
    split.
    { unfold stacks_len. cbn [pstack qstack gstack].
      destruct (keep_g || (i0 + 2 * k <? T)); rewrite !length_insert; auto. }
    intros i Hi. split.
    + intros Hm Hlt'. destruct (Z.lt_ge_cases i i0) as [Hb|Ha].
      * (* an earlier block *)
        destruct (proj1 (Hinv i Hi) Hm Hb) as [[Hp Hq] Hg].
        assert (i ≠ i0 + k).
        { intros ->. pose proof (mod_double k _ ltac:(lia) Hm). lia. }
        unfold shard_pq, shard_g. cbn [pstack qstack gstack].
        rewrite !list_lookup_insert_ne by lia.
        split; [split; assumption|].
        destruct (keep_g || (i0 + 2 * k <? T));
          rewrite ?list_lookup_insert_ne by lia; exact Hg.
      * (* the block just merged *)
        assert (i = i0) as ->
            by (apply (mod_same_block (2 * k)); lia).
        rewrite block_double by lia.
        destruct (block ts i0 k) as [[P1 Q1] G1],
                 (block ts (i0 + k) k) as [[P2 Q2] G2].
        cbn [fst snd] in *. unfold shard_pq, shard_g.
        cbn [pstack qstack gstack merge fst snd].
        assert (Z.to_nat i0 < length (pstack r))%nat by lia.
        assert (Z.to_nat i0 < length (qstack r))%nat by lia.
        assert (Z.to_nat i0 < length (gstack r))%nat by lia.
        split; [split|].
        -- apply list_lookup_insert_eq. lia.
        -- apply list_lookup_insert_eq. rewrite length_insert. lia.
        -- intros H2k. destruct (Z.ltb_spec (i0 + 2 * k) T); [|lia].
           rewrite orb_true_r.
           specialize (Hgk ltac:(lia)). unfold shard_g in Hgk.
           cbn [snd] in Hgk. rewrite Hgk' in Hgk.
           injection Hgk as ->.
           apply list_lookup_insert_eq. lia.
    + intros Hm Hge'.
      destruct (proj2 (Hinv i Hi) Hm ltac:(lia)) as [[Hp Hq] Hg].
      unfold shard_pq, shard_g. cbn [pstack qstack gstack].
      rewrite !list_lookup_insert_ne by lia.
      split; [split; assumption|].
      destruct (keep_g || (i0 + 2 * k <? T));
        rewrite ?list_lookup_insert_ne by lia; exact Hg.
  - exists r. split; [reflexivity|]. split; [exact Hlen|].
    intros i Hi. split.
    + intros Hm Hlt'. destruct (Z.lt_ge_cases i i0) as [Hb|Ha].
      * exact (proj1 (Hinv i Hi) Hm Hb).
      * assert (i = i0) as ->
            by (apply (mod_same_block (2 * k)); lia).
        rewrite (block_short ts i0 k (2 * k)) by lia.
        destruct (proj2 (Hinv i0 Hi) Hmodk ltac:(lia)) as [Hpq _].
        split; [exact Hpq|lia].
    + intros Hm Hge'. exact (proj2 (Hinv i Hi) Hm ltac:(lia)).
Qed.

(** The loop over [i] in the round of stride [k]. *)
Lemma sum_round_inv k :
  1 <= k <= 2 ^ 30 →
  ∀ fuel i0 r,
    0 <= i0 → i0 mod (2 * k) = 0 →
    T - i0 + 1 <= Z.of_nat fuel → (1 <= fuel)%nat →
    round_inv ts T k i0 r →
    ∃ r', sum_round keep_g fuel i0 k T r = Ok r' ∧
          round_inv ts T (2 * k) 0 r'.
Proof.
  intros Hk fuel. induction fuel as [|fuel IH];
    intros i0 r Hi0 Hmod Hf Hf1 Hinv; [lia|].
  pose proof uint_mod_eq as HU.
  change (2 ^ 30) with 1073741824 in Hk.
  change (2 ^ 31) with 2147483648 in HT.
  cbn [sum_round]. destruct (Z.ltb_spec i0 T) as [Hlt|Hge].
  - destruct (sum_step_inv k i0 r ltac:(lia) ltac:(lia) Hmod Hinv)
      as (r1 & -> & Hinv1).
    cbn [mbind res_bind].
    rewrite (wrap_small (2 * k)) by (unfold is_uint; lia).
    rewrite (wrap_small (i0 + 2 * k)) by (unfold is_uint; lia).
    apply IH; try lia; [|exact Hinv1].
    apply Z.mod_divide; [lia|]. apply Z.mod_divide in Hmod as [c ->]; [|lia].
    exists (c + 1). ring.
  - exists r. split; [reflexivity|].
    destruct Hinv as (Hlen & Hinv). split; [exact Hlen|].
    intros i Hi. split; [lia|].
    intros Hm _. exact (proj1 (Hinv i Hi) Hm ltac:(lia)).
Qed.

(** All the rounds. *)
Lemma sum_rounds_inv cd :
  0 <= cd <= 31 → T <= 2 ^ cd →
  ∀ fuel j r,
    0 <= j <= cd → cd - j + 1 <= Z.of_nat fuel →
    round_inv ts T (2 ^ j) 0 r →
    ∃ r', sum_rounds keep_g fuel (2 ^ j) (2 ^ cd) T r = Ok r' ∧
          stacks_len r' T ∧ shard_pq r' 0 (fold_merge ts).
Proof.
  intros Hcd HTcd fuel. induction fuel as [|fuel IH];
    intros j r Hj Hf Hinv; [lia|].
  pose proof uint_mod_eq as HU. cbn [sum_rounds].
  assert (0 < 2 ^ j) by (apply Z.pow_pos_nonneg; lia).
  destruct (Z.ltb_spec (2 ^ j) (2 ^ cd)) as [Hlt|Hge].
  - assert (j < cd) as Hjcd by (apply (Z.pow_lt_mono_r_iff 2); lia).
    assert (2 ^ j <= 2 ^ 30) as Hk30 by (apply Z.pow_le_mono_r; lia).
    change (2 ^ 30) with 1073741824 in Hk30.
    destruct (sum_round_inv (2 ^ j) ltac:(change (2 ^ 30) with 1073741824; lia)
                (S (Z.to_nat T)) 0 r) as (r1 & -> & Hinv1);
      try lia; [reflexivity|exact Hinv|].
    cbn [mbind res_bind].
    rewrite (wrap_small (2 ^ j * 2)) by (unfold is_uint; lia).
    replace (2 ^ j * 2) with (2 ^ (j + 1))
      by (rewrite Z.pow_add_r, Z.pow_1_r by lia; ring).
    apply IH; try lia.
    replace (2 ^ (j + 1)) with (2 * 2 ^ j)
      by (rewrite Z.pow_add_r, Z.pow_1_r by lia; ring).
    exact Hinv1.
  - exists r. split; [reflexivity|].
    destruct Hinv as (Hlen & Hinv). split; [exact Hlen|].
    destruct (proj2 (Hinv 0 ltac:(lia)) ltac:(apply Z.mod_0_l; lia) ltac:(lia))
      as [Hpq _].
    rewrite block_all in Hpq by lia. exact Hpq.
Qed.

End Rounds.

(** ** The shards and the whole splitting process *)

Section Split.

Lemma depth_loop_ok x :
  x < 2 ^ 31 →
  ∀ fuel d, 0 <= d <= 31 → 32 - d <= Z.of_nat fuel →
            ∃ d', depth_loop fuel d x = Ok d' ∧ d <= d' <= 31 ∧
                  x <= 2 ^ d' ∧ (d < d' → 2 ^ (d' - 1) < x).
Proof.
  intros Hx fuel. induction fuel as [|fuel IH]; intros d Hd Hf; [lia|].
  pose proof uint_mod_eq as HU. cbn [depth_loop].
  rewrite Z.shiftl_1_l.
  destruct (Z.ltb_spec (2 ^ d) x) as [Hlt|Hge].
  - assert (d < 31) as Hd31.
    { destruct (Z.eq_dec d 31) as [->|]; lia. }
    rewrite (wrap_small (d + 1)) by (unfold is_uint; lia).
    destruct (IH (d + 1) ltac:(lia) ltac:(lia)) as (d' & -> & Hd' & Hx' & Hlow).
    exists d'. split; [reflexivity|]. split; [lia|]. split; [exact Hx'|].
    intros _. destruct (Z.eq_dec d' (d + 1)) as [->|Hne].
    + replace (d + 1 - 1) with d by lia. exact Hlt.
    + apply Hlow. lia.
  - exists d. split; [reflexivity|]. split; [lia|]. split; [exact Hge|lia].
Qed.

Lemma shards_of_lookup r T i :
  stacks_len r T → 0 <= i < T →
  ∃ pi qi gi, pstack r !! Z.to_nat i = Some pi ∧
              qstack r !! Z.to_nat i = Some qi ∧
              gstack r !! Z.to_nat i = Some gi ∧
              shards_of r !! Z.to_nat i = Some (pi, qi, gi).
Proof.
  intros (Lp & Lq & Lg) Hi.
  destruct (lookup_lt_is_Some_2 (pstack r) (Z.to_nat i)) as [pi Hp]; [lia|].
  destruct (lookup_lt_is_Some_2 (qstack r) (Z.to_nat i)) as [qi Hq]; [lia|].
  destruct (lookup_lt_is_Some_2 (gstack r) (Z.to_nat i)) as [gi Hg]; [lia|].
  exists pi, qi, gi. repeat split; try assumption.
  unfold shards_of. rewrite !lookup_zip_with, Hp, Hq, Hg. reflexivity.
Qed.

Lemma shards_of_length r T :
  stacks_len r T → Z.of_nat (length (shards_of r)) = T.
Proof.
  intros (Lp & Lq & Lg). unfold shards_of.
  rewrite !length_zip_with. lia.
Qed.

(** Before the first round every shard is a block of one triple. *)
Lemma round_inv_start r T :
  stacks_len r T → round_inv (shards_of r) T 1 0 r.
Proof.
  intros Hlen. split; [exact Hlen|]. intros i Hi.
  split; [intros _ ?; lia|]. intros _ _.
  destruct (shards_of_lookup r T i Hlen Hi) as (pi & qi & gi & Hp & Hq & Hg & Ht).
  rewrite (block_one _ i _ ltac:(lia) Ht).
  unfold shard_pq, shard_g. cbn [fst snd]. auto.
Qed.

(** The reduction of any stacks of [T] shards. *)
Lemma reduction_ok keep_g r T cd :
  0 < T < 2 ^ 31 → stacks_len r T → 0 <= cd <= 31 → T <= 2 ^ cd →
  ∃ r', sum_rounds keep_g 64 1 (2 ^ cd) T r = Ok r' ∧
        stacks_len r' T ∧ shard_pq r' 0 (fold_merge (shards_of r)).
Proof.
  intros HT Hlen Hcd HTcd.
  apply (sum_rounds_inv (shards_of r) T keep_g HT
           (shards_of_length r T Hlen) cd Hcd HTcd 64%nat 0); try lia.
  apply round_inv_start. exact Hlen.
Qed.

Lemma reduces_merge (W : Prop) d1 d2 X Y x y :
  reduces True d1 X x → reduces W d2 Y y →
  reduces W (d1 * d2) (merge X Y) (merge x y).
Proof.
  intros (H1 & P1 & Q1 & G1) (H2 & P2 & Q2 & G2). specialize (G1 I).
  destruct X as [[PX QX] GX], Y as [[PY QY] GY].
  destruct x as [[px qx] gx], y as [[py qy] gy].
  unfold reduces. cbn [fst snd merge] in *. subst PX QX GX PY QY.
  split; [nia|]. split; [ring|]. split; [ring|].
  intros HW. rewrite (G2 HW). ring.
Qed.

End Split.

(** ** No use of a cleared slot *)

Section Live.

Lemma sum_trace i k gflag r r' :
  sum i k gflag r = Ok r' → trace r' = trace r ++ [EvSum i k gflag].
Proof.
  unfold sum. intros H.
  repeat (apply bind_ok in H as (? & _ & H)).
  injection H as <-. reflexivity.
Qed.

Lemma cleared_app tr e j :
  cleared (tr ++ [e]) j = cleared tr j || clears e j.
Proof.
  unfold cleared. rewrite existsb_app. cbn [existsb].
  rewrite orb_false_r. reflexivity.
Qed.

Lemma sums_live_snoc tr i k gflag :
  sums_live tr → cleared tr i = false → cleared tr k = false →
  sums_live (tr ++ [EvSum i k gflag]).
Proof.
  intros Hl Hi Hk pre i' k' g' post E.
  destruct post as [|e post _] using rev_ind.
  - apply app_inj_tail in E as [<- [= <- <- <-]]. auto.
  - rewrite app_comm_cons, app_assoc in E.
    apply app_inj_tail in E as [E _]. exact (Hl _ _ _ _ _ E).
Qed.

Lemma sums_live_no_sum tr :
  (∀ j, cleared tr j = false) → sums_live tr.
Proof.
  intros Hc pre i k g post ->. specialize (Hc k).
  unfold cleared in Hc. rewrite existsb_app in Hc. cbn [existsb clears] in Hc.
  rewrite Z.eqb_refl, orb_true_r in Hc. discriminate.
Qed.

Variables (T : Z) (keep_g : bool).
Hypothesis HT : 0 < T < 2 ^ 31.

Lemma sum_round_live k :
  1 <= k <= 2 ^ 30 →
  ∀ fuel i0 r r',
    0 <= i0 → i0 mod (2 * k) = 0 →
    round_live k i0 (trace r) →
    sum_round keep_g fuel i0 k T r = Ok r' →
    round_live (2 * k) 0 (trace r').
Proof.
  intros Hk fuel. induction fuel as [|fuel IH];
    intros i0 r r' Hi0 Hmod [Hl Hc]; [discriminate|].
  pose proof uint_mod_eq as HU.
  change (2 ^ 30) with 1073741824 in Hk.
  change (2 ^ 31) with 2147483648 in HT.
  cbn [sum_round]. destruct (Z.ltb_spec i0 T) as [Hlt|Hge].
  - rewrite (wrap_small (2 * k)) by (unfold is_uint; lia).
    rewrite (wrap_small (i0 + k)) by (unfold is_uint; lia).
    rewrite (wrap_small (i0 + 2 * k)) by (unfold is_uint; lia).
    pose proof (mod_double k i0 ltac:(lia) Hmod) as Hmodk.
    assert ((i0 + 2 * k) mod (2 * k) = 0) as Hmod2.
    { replace (i0 + 2 * k) with (i0 + 1 * (2 * k)) by lia.
      rewrite Z.mod_add by lia. exact Hmod. }
    assert ((i0 + k) mod (2 * k) = k) as Hmodm.
    { apply Z.mod_divide in Hmod as [c ->]; [|lia].
      rewrite Z.add_comm, Z.mod_add by lia. apply Z.mod_small. lia. }
    intros (r1 & H1 & Hrest)%bind_ok.
    apply (IH (i0 + 2 * k) r1 r' ltac:(lia) Hmod2) in Hrest; [exact Hrest|].
    destruct (Z.ltb_spec (i0 + k) T) as [Hlt'|Hge'].
    + rewrite (sum_trace _ _ _ _ _ H1).
      assert (cleared (trace r) i0 = false) as Ci.
      { destruct (cleared (trace r) i0) eqn:E; [|reflexivity].
        destruct (Hc _ E) as [H|[H _]]; lia. }
      assert (cleared (trace r) (i0 + k) = false) as Ck.
      { destruct (cleared (trace r) (i0 + k)) eqn:E; [|reflexivity].
        destruct (Hc _ E) as [H|[_ H]]; [|lia].
        exfalso. apply H. replace (i0 + k) with (i0 + 1 * k) by lia.
        rewrite Z.mod_add by lia. exact Hmodk. }
      split; [apply sums_live_snoc; assumption|].
      intros j. rewrite cleared_app. cbn [clears].
      intros [E|E%Z.eqb_eq]%orb_prop.
      * destruct (Hc _ E) as [H|[H1' H2]]; [left; exact H|right; lia].
      * subst j. right. lia.
    + injection H1 as <-. split; [exact Hl|].
      intros j E. destruct (Hc _ E) as [H|[H1' H2]]; [left; exact H|right; lia].
  - intros [= <-]. split; [exact Hl|].
    intros j E. left. destruct (Hc _ E) as [H|[H _]].
    + intros H2. apply H. apply mod_double; [lia|exact H2].
    + lia.
Qed.

Lemma sum_rounds_live cd :
  0 <= cd <= 31 →
  ∀ fuel j r r',
    0 <= j <= cd →
    round_live (2 ^ j) 0 (trace r) →
    sum_rounds keep_g fuel (2 ^ j) (2 ^ cd) T r = Ok r' →
    sums_live (trace r') ∧ cleared (trace r') 0 = false.
Proof.
  intros Hcd fuel. induction fuel as [|fuel IH];
    intros j r r' Hj Hinv; [discriminate|].
  pose proof uint_mod_eq as HU. cbn [sum_rounds].
  assert (0 < 2 ^ j) by (apply Z.pow_pos_nonneg; lia).
  destruct (Z.ltb_spec (2 ^ j) (2 ^ cd)) as [Hlt|Hge].
  - assert (j < cd) as Hjcd by (apply (Z.pow_lt_mono_r_iff 2); lia).
    assert (2 ^ j <= 2 ^ 30) as Hk30 by (apply Z.pow_le_mono_r; lia).
    intros (r1 & H1 & Hrest)%bind_ok.
    apply (sum_round_live (2 ^ j) ltac:(lia)) in H1;
      [|lia|apply Z.mod_0_l; lia|exact Hinv].
    change (2 ^ 30) with 1073741824 in Hk30.
    rewrite (wrap_small (2 ^ j * 2)) in Hrest by (unfold is_uint; lia).
    replace (2 ^ j * 2) with (2 ^ (j + 1)) in Hrest
      by (rewrite Z.pow_add_r, Z.pow_1_r by lia; ring).
    apply (IH (j + 1) r1 r' ltac:(lia)) in Hrest; [exact Hrest|].
    replace (2 ^ (j + 1)) with (2 * 2 ^ j)
      by (rewrite Z.pow_add_r, Z.pow_1_r by lia; ring).
    exact H1.
  - intros [= <-]. destruct Hinv as [Hl Hc]. split; [exact Hl|].
    destruct (cleared (trace r) 0) eqn:E; [|reflexivity].
    destruct (Hc _ E) as [H0|[_ H0]]; [|lia].
    rewrite Z.mod_0_l in H0 by lia. contradiction.
Qed.

End Live.

Section Shards.

Variables (n : Z) (s : list sieve_t) (terms threads level : Z).
Hypothesis Hs : sieve_ok n s.
Hypothesis Hn : n < uint_mod.
Hypothesis Hn5 : 10005 <= n.
Hypothesis Hn6 : 6 * terms <= n.
Hypothesis Hterms : terms <= MAX_DIGITS / 14.
Hypothesis Hthreads : 1 <= threads <= terms.

Let mid := terms / threads.
Let lo := shard_lo terms threads.

Lemma mid_pos : 1 <= mid ∧ threads * mid <= terms.
Proof.
  clear Hs Hn Hn5 Hn6 Hterms. unfold mid. split.
  - apply Z.div_le_lower_bound; lia.
  - apply Z.mul_div_le. lia.
Qed.

Lemma shard_lo_bounds j :
  0 <= j < threads → 0 <= lo j ∧ lo j < lo (j + 1) ∧ lo (j + 1) <= terms ∧
                     (j + 1 < threads → lo (j + 1) < terms).
Proof.
  clear Hs Hn Hn5 Hn6 Hterms.
  intros Hj. destruct mid_pos as [Hm1 Hm2]. unfold lo, shard_lo. fold mid.
  destruct (Z.ltb_spec j threads); [|lia].
  destruct (Z.ltb_spec (j + 1) threads); nia.
Qed.

Let shards_done := shards_done_with (bs_result s level) terms threads.

Lemma shards_ok fuel :
  ∀ i r, 0 <= i <= threads → threads - i + 1 <= Z.of_nat fuel →
         shards_done i r →
         ∃ r', shards false s fuel i threads mid terms level r = Ok r' ∧
               shards_done threads r'.
Proof.
  induction fuel as [|fuel IH]; intros i r Hi Hf Hdone; [lia|].
  pose proof uint_mod_eq as HU. destruct mid_pos as [Hm1 Hm2].
  cbn [shards]. destruct (Z.ltb_spec i threads) as [Hlt|Hge].
  - destruct (shard_lo_bounds i ltac:(lia)) as (Hlo0 & Hlo1 & Hlo2 & _).
    assert (wrap (i * mid) = lo i) as ->.
    { unfold lo, shard_lo. fold mid. destruct (Z.ltb_spec i threads); [|lia].
      apply wrap_small. unfold is_uint. nia. }
    assert ((if i <? threads - 1 then wrap ((i + 1) * mid) else terms)
            = lo (i + 1)) as ->.
    { unfold lo, shard_lo. fold mid.
      destruct (Z.ltb_spec i (threads - 1)),
               (Z.ltb_spec (i + 1) threads); try lia.
      apply wrap_small. unfold is_uint. nia. }
    destruct (bs_gen_ok n s terms Hs Hn Hn5 Hn6 Hterms
                (Z.to_nat (lo (i + 1) - lo i)) (lo i) (lo (i + 1)) level)
      as (x & Ex & Ix); try lia.
    assert (bs_result s level (lo i) (lo (i + 1)) terms x) as Hx
      by (split; assumption).
    unfold bs_init. rewrite Ex. cbn [mbind res_bind].
    rewrite (wrap_small (i + 1)) by (unfold is_uint; lia).
    apply IH; try lia.
    destruct Hdone as ((Lp & Lq & Lg) & Hdone). split.
    + unfold stacks_len. cbn [pstack qstack gstack].
      rewrite !length_app. cbn [length]. lia.
    + assert (shards_of
                (Run (trace r ++ [EvBs (lo i) (lo (i + 1)) terms level])
                   (pstack r ++ [p x]) (qstack r ++ [q x]) (gstack r ++ [g x]))
              = shards_of r ++ [triple x]) as Happ.
      { unfold shards_of. cbn [pstack qstack gstack].
        rewrite !zip_with_app by (rewrite ?length_zip_with; lia).
        reflexivity. }
      rewrite Happ. intros j Hj.
      assert (length (shards_of r) = Z.to_nat i) as Hlen.
      { unfold shards_of. rewrite !length_zip_with. lia. }
      destruct (Z.eq_dec j i) as [->|Hne].
      * exists x. split; [exact Hx|].
        rewrite lookup_app_r by lia.
        rewrite Hlen, Nat.sub_diag. reflexivity.
      * destruct (Hdone j ltac:(lia)) as (y & Hy & Hly).
        exists y. split; [exact Hy|].
        rewrite lookup_app_l by lia. exact Hly.
  - assert (i = threads) as -> by lia. exists r. auto.
Qed.

Lemma reduces_weaken (W W' : Prop) d X x :
  (W' → W) → reduces W d X x → reduces W' d X x.
Proof. intros HW (H0 & HP & HQ & HG). repeat split; auto. Qed.

(** The merge of the shards from [j] on is the series from [lo j] on, up
    to a common factor. *)
Lemma shards_fold r :
  shards_done threads r →
  ∀ k j, j = threads - Z.of_nat k → 0 <= j →
         ∃ d, reduces False d (series (lo j) terms)
                (fold_merge (drop (Z.to_nat j) (shards_of r))).
Proof.
  clear Hs Hn Hn5 Hn6 Hterms n.
  intros (Hlen & Hdone). pose proof (shards_of_length _ _ Hlen) as Hl.
  induction k as [|k IH]; intros j Hj Hj0.
  - assert (j = threads) as -> by lia.
    rewrite drop_ge by lia. exists 1.
    unfold lo, shard_lo. destruct (Z.ltb_spec threads threads); [lia|].
    unfold series. rewrite Z.sub_diag. cbn.
    repeat split; tauto || lia.
  - destruct (Hdone j ltac:(lia)) as (x & [_ [_ _ _ _ _ _ (d1 & Hx)]] & Hlx).
    destruct (shard_lo_bounds j ltac:(lia)) as (Hlo0 & Hlo1 & Hlo2 & Hlo3).
    rewrite (drop_S _ _ _ Hlx). cbn [fold_merge fold_right].
    change (fold_right merge (1, 0, 1) ?l) with (fold_merge l).
    destruct (Z.eq_dec (j + 1) threads) as [Hlast|Hmore].
    + rewrite drop_ge by lia. cbn [fold_merge fold_right].
      rewrite merge_unit_r. exists d1.
      replace terms with (lo (j + 1)) at 1.
      * eapply reduces_weaken; [|exact Hx]. tauto.
      * unfold lo, shard_lo. destruct (Z.ltb_spec (j + 1) threads); lia.
    + destruct (IH (j + 1) ltac:(lia) ltac:(lia)) as (d2 & Hrest).
      replace (Z.to_nat (j + 1)) with (S (Z.to_nat j)) in Hrest by lia.
      exists (d1 * d2).
      rewrite (series_split (lo j) (lo (j + 1)) terms) by lia.
      apply reduces_merge; [|exact Hrest].
      eapply reduces_weaken; [|exact Hx]. intros _. apply Hlo3. lia.
Qed.

End Shards.

Lemma sieve_size_ok terms :
  0 < terms → terms <= MAX_DIGITS / 14 →
  let sz := Z.max (3 * 5 * 23 * 29 + 1) (wrap (terms * 6)) in
  ∃ s, build_sieve (Z.to_nat sz) sz = Ok s ∧ sieve_ok sz s ∧
       sz < uint_mod ∧ 10005 <= sz ∧ 6 * terms <= sz.
Proof.
  intros Ht HT. pose proof uint_mod_eq as HU.
  change (MAX_DIGITS / 14) with 714285714 in HT.
  rewrite (wrap_small (terms * 6)) by (unfold is_uint; lia).
  intros sz.
  assert (Z.even sz = true) as Hev.
  { unfold sz. destruct (Z.max_spec (3 * 5 * 23 * 29 + 1) (terms * 6))
      as [[_ ->]|[_ ->]]; [|reflexivity].
    rewrite Z.even_mul. cbn. apply orb_true_r. }
  assert (10006 <= sz ∧ terms * 6 <= sz ∧ sz <= 4285714284) as (H1 & H2 & H3)
    by (unfold sz; lia).
  assert (Z.sqrt sz < 65536) as Hsq by (apply Z.sqrt_lt_square; lia).
  destruct (build_sieve_ok (Z.to_nat sz) sz Hev) as (s & Hb & Hok); try lia.
  exists s. repeat match goal with |- _ ∧ _ => split end; auto; lia.
Qed.

(** The driver on [threads] shards: it returns, and the pair left in slot 0
    of the stacks is the series pair divided by a common factor. *)
Lemma split_ok terms threads :
  0 < terms → terms <= MAX_DIGITS / 14 → 1 <= threads <= terms →
  ∃ r d P Q G,
    split terms threads = Ok r ∧
    shard_pq r 0 (P, Q, G) ∧
    reduces False d (series 0 terms) (P, Q, G).
Proof.
  intros Ht HT Hth. pose proof uint_mod_eq as HU.
  pose proof HT as HTn. change (MAX_DIGITS / 14) with 714285714 in HTn.
  unfold split, split_gen.
  destruct (depth_loop_ok threads ltac:(lia) 64 0) as (cd & -> & Hcd & Hle & _);
    try lia.
  cbn [mbind res_bind]. destruct (Z.leb_spec terms 0); [lia|].
  destruct (sieve_size_ok terms Ht HT) as (s & -> & Hs & Hz1 & Hz2 & Hz3).
  cbn [mbind res_bind].
  destruct (shards_ok _ s terms threads cd Hs Hz1 Hz2 Hz3 HT Hth
              (S (Z.to_nat threads)) 0 (Run [] [] [] []))
    as (r & -> & Hdone); try lia.
  { split; [repeat split|intros; lia]. }
  cbn [mbind res_bind].
  destruct (reduction_ok false r threads cd) as (r' & -> & Hlen & Hpq);
    try lia; [apply Hdone|].
  destruct (shards_fold s terms threads cd Hth r Hdone
              (Z.to_nat threads) 0) as (d & Hd); try lia.
  rewrite drop_0 in Hd.
  unfold shard_lo in Hd. destruct (Z.ltb_spec 0 threads); [|lia].
  rewrite Z.mul_0_l in Hd.
  destruct (fold_merge (shards_of r)) as [[P Q] G].
  exists r', d, P, Q, G. auto.
Qed.

(** With more threads than terms the first shard is the empty range
    [0, 0), and the run does not return. *)
Lemma split_more_threads_than_terms terms threads :
  0 < terms → terms <= MAX_DIGITS / 14 → terms < threads < 2 ^ 31 →
  split terms threads = OutOfFuel.
Proof.
  intros Ht HT Hth. pose proof uint_mod_eq as HU.
  unfold split, split_gen.
  destruct (depth_loop_ok threads ltac:(lia) 64 0) as (cd & -> & _); try lia.
  cbn [mbind res_bind]. destruct (Z.leb_spec terms 0); [lia|].
  destruct (sieve_size_ok terms Ht HT) as (s & -> & _).
  cbn [mbind res_bind].
  rewrite (Z.div_small terms threads) by lia.
  replace (S (Z.to_nat threads)) with (S (S (Z.to_nat (threads - 1)))) by lia.
  cbn [shards].
  destruct (Z.ltb_spec 0 threads); [|lia].
  destruct (Z.ltb_spec 0 (threads - 1)); [|lia].
  rewrite !Z.mul_0_r. change (wrap 0) with 0.
  unfold bs_init. rewrite Z.sub_diag. reflexivity.
Qed.

(** ** Keeping every [g] *)

Section KeepG.

Variables (s : list sieve_t) (terms : Z).
Hypothesis Hterms : terms < uint_mod.

Lemma bs_node_sim b level l r r' x :
  same_upto_g r r' → (b < terms → r' = r) →
  bs_node false b terms level l r = Ok x →
  ∃ y, bs_node true b terms level l r' = Ok y ∧
       same_upto_g x y ∧ (b < terms → y = x).
Proof.
  intros (Hp & Hq & Hfp) Hsame. unfold bs_node. rewrite Hp, Hq, Hfp.
  destruct (if 4 <=? level then _ else _) as [[[[pj fpj] g1] fg1]| |];
    cbn [mbind res_bind]; try discriminate.
  cbn [orb]. destruct (Z.ltb_spec b terms) as [Hlt|Hge].
  - rewrite (Hsame Hlt). intros [= <-]. eexists. split; [reflexivity|].
    repeat split.
  - intros [= <-]. eexists. split; [reflexivity|].
    split; [repeat split|lia].
Qed.

Lemma bs_keep_g_sim fuel :
  ∀ a b level x,
    0 <= a → a < b → b <= terms →
    bs_gen false fuel s a b terms level = Ok x →
    ∃ y, bs_gen true fuel s a b terms level = Ok y ∧
         same_upto_g x y ∧ (b < terms → y = x).
Proof.
  induction fuel as [|fuel IH]; intros a b level x Ha Hab Hb; [discriminate|].
  pose proof uint_mod_eq as HU. cbn [bs_gen].
  destruct (Z.eqb_spec (wrap (b - a)) 1) as [H1|H1].
  - intros ->. exists x. repeat split.
  - rewrite wrap_small in H1 by (unfold is_uint; lia).
    destruct (bs_mid_bounds a b Ha ltac:(lia) ltac:(lia)) as (mid & -> & Hm).
    cbn [mbind res_bind].
    intros (l & Hl & Hx)%bind_ok. apply bind_ok in Hx as (r & Hr & Hx).
    destruct (IH a mid _ l Ha ltac:(lia) ltac:(lia) Hl) as (l' & -> & _ & Hl').
    rewrite (Hl' ltac:(lia)).
    destruct (IH mid b _ r ltac:(lia) ltac:(lia) Hb Hr) as (r' & -> & Hr1 & Hr2).
    cbn [mbind res_bind]. eapply bs_node_sim; eauto.
Qed.

Variables (threads level : Z).
Hypothesis Hthreads : 1 <= threads <= terms.

Let mid := terms / threads.

Lemma shards_sim fuel :
  ∀ i r r1,
    0 <= i < threads →
    shards false s fuel i threads mid terms level r = Ok r1 →
    ∃ r2, shards true s fuel i threads mid terms level r = Ok r2 ∧
          g_last_only r1 r2.
Proof.
  induction fuel as [|fuel IH]; intros i r r1 Hi; [discriminate|].
  pose proof uint_mod_eq as HU.
  destruct (mid_pos terms threads Hthreads) as [Hm1 Hm2]. fold mid in Hm1, Hm2.
  destruct (shard_lo_bounds terms threads Hthreads i Hi)
    as (Hlo0 & Hlo1 & Hlo2 & Hlo3).
  cbn [shards]. destruct (Z.ltb_spec i threads) as [_|?]; [|lia].
  assert (wrap (i * mid) = shard_lo terms threads i) as ->.
  { unfold shard_lo. fold mid. destruct (Z.ltb_spec i threads); [|lia].
    apply wrap_small. unfold is_uint. nia. }
  assert ((if i <? threads - 1 then wrap ((i + 1) * mid) else terms)
          = shard_lo terms threads (i + 1)) as ->.
  { unfold shard_lo. fold mid.
    destruct (Z.ltb_spec i (threads - 1)),
             (Z.ltb_spec (i + 1) threads); try lia.
    apply wrap_small. unfold is_uint. nia. }
  rewrite (wrap_small (i + 1)) by (unfold is_uint; lia).
  intros (x & Hx & Hrest)%bind_ok. unfold bs_init in Hx |- *.
  destruct (bs_keep_g_sim _ _ _ _ _ Hlo0 Hlo1 Hlo2 Hx)
    as (y & -> & (Hp & Hq & _) & Hy).
  cbn [mbind res_bind].
  destruct (Z.eq_dec (i + 1) threads) as [Hlast|Hmore].
  - destruct fuel as [|fuel]; [discriminate|]. cbn [shards] in Hrest |- *.
    destruct (Z.ltb_spec (i + 1) threads); [lia|].
    injection Hrest as <-. eexists. split; [reflexivity|].
    unfold g_last_only. cbn [pstack qstack gstack]. rewrite Hp, Hq.
    repeat split. eauto.
  - rewrite (Hy (Hlo3 ltac:(lia))). apply IH; [lia|exact Hrest].
Qed.

End KeepG.

(** The last [g] does not enter the [P] and [Q] of the merged triple. *)
Lemma fold_merge_last_g gs x y :
  ∀ ps qs, length ps = S (length gs) → length qs = S (length gs) →
           (fold_merge (zip (zip ps qs) (gs ++ [y]))).1
           = (fold_merge (zip (zip ps qs) (gs ++ [x]))).1.
Proof.
  induction gs as [|g0 gs IH]; intros [|p0 ps] [|q0 qs] Hp Hq;
    try discriminate; cbn [length] in Hp, Hq.
  - destruct ps, qs; try discriminate. cbn. f_equal; lia.
  - cbn [app zip zip_with fold_merge fold_right].
    change (fold_right merge (1, 0, 1) ?l) with (fold_merge l).
    specialize (IH ps qs ltac:(lia) ltac:(lia)).
    destruct (fold_merge (zip (zip ps qs) (gs ++ [y]))) as [[P2 Q2] G2],
             (fold_merge (zip (zip ps qs) (gs ++ [x]))) as [[P2' Q2'] G2'].
    cbn in IH |- *. injection IH as -> ->. reflexivity.
Qed.

Lemma g_last_only_fold r1 r2 T :
  stacks_len r1 T → g_last_only r1 r2 →
  stacks_len r2 T ∧
  (fold_merge (shards_of r2)).1 = (fold_merge (shards_of r1)).1.
Proof.
  intros (Lp & Lq & Lg) (Hp & Hq & gs & x & y & Hg1 & Hg2).
  unfold stacks_len, shards_of. rewrite Hp, Hq, Hg2. rewrite Hg1 in Lg |- *.
  rewrite length_app in *. cbn [length] in *.
  split; [lia|]. apply fold_merge_last_g; lia.
Qed.

(** ** Factored forms of one integer *)

(** A well-formed factored form is determined by the integer it stands
    for. *)
Lemma fac_unique f :
  ∀ h, fac_wf f → fac_wf h → eval f = eval h → f = h.
Proof.
  assert (∀ h, fac_wf h → eval h = 1 → h = []) as Hone.
  { intros [|[y d] h] Wh E; [reflexivity|exfalso].
    pose proof (Forall_inv (wf_pow _ Wh)) as Hd. cbn in Hd.
    pose proof (Forall_inv (wf_prime _ Wh)) as [Hy%Z.prime_ge_2 _]. cbn in Hy.
    pose proof (pow_div_eval ((y, d) :: h) y d (or_introl eq_refl)) as Hdiv.
    rewrite E in Hdiv. apply Z.divide_1_r_nonneg in Hdiv.
    - assert (y ^ 1 <= y ^ d) by (apply Z.pow_le_mono_r; lia). lia.
    - apply Z.pow_nonneg. lia. }
  assert (∀ y d h k, fac_wf ((y, d) :: h) → fac_wf k →
                     eval ((y, d) :: h) = eval k → In y (facs k)) as Hin.
  { intros y d h k Wh Wk E.
    pose proof (Forall_inv (wf_prime _ Wh)) as [Hy _]. cbn in Hy.
    pose proof (Forall_inv (wf_pow _ Wh)) as Hd. cbn in Hd.
    destruct (prime_in_eval k y) as (e & He & _); auto.
    - destruct Wk as [_ Wp _]. eapply List.Forall_impl; [|exact Wp].
      cbn beta. tauto.
    - apply fac_wf_pows_nonneg, Wk.
    - rewrite <- E. cbn [eval]. apply Z.divide_mul_l.
      replace d with (1 + (d - 1)) by lia.
      rewrite Z.pow_add_r, Z.pow_1_r by lia. apply Z.divide_factor_l.
    - eapply in_facs, He. }
  induction f as [|[x e] f IH]; intros h Wf Wh E.
  - symmetry. apply Hone; [exact Wh|]. rewrite <- E. reflexivity.
  - destruct h as [|[y d] h].
    { apply Hone in E; [discriminate|exact Wf]. }
    pose proof (Forall_inv (wf_prime _ Wf)) as [Hx _]. cbn in Hx.
    pose proof (Hin _ _ _ _ Wf Wh E) as Hxh.
    pose proof (Hin _ _ _ _ Wh Wf (eq_sym E)) as Hyf.
    assert (x = y) as <-.
    { cbn [facs map fst In] in Hxh, Hyf.
      destruct Hxh as [?|Hxh]; [congruence|].
      destruct Hyf as [?|Hyf]; [congruence|].
      pose proof (sorted_head_lt x (facs f) y (wf_sorted _ Wf) Hyf).
      pose proof (sorted_head_lt y (facs h) x (wf_sorted _ Wh) Hxh). lia. }
    pose proof (has_val_eval x Hx _ Wf) as V1.
    pose proof (has_val_eval x Hx _ Wh) as V2.
    rewrite E in V1. cbn [pow_of] in V1, V2. rewrite Z.eqb_refl in V1, V2.
    pose proof (has_val_inj x Hx _ _ _ V1 V2) as <-.
    f_equal. apply IH; [apply (fac_wf_tail _ _ Wf)|apply (fac_wf_tail _ _ Wh)|].
    cbn [eval] in E. apply Z.prime_ge_2 in Hx.
    pose proof (Forall_inv (wf_pow _ Wf)) as He. cbn in He.
    assert (0 < x ^ e) by (apply Z.pow_pos_nonneg; lia). nia.
Qed.

(** [fac_canon] returns what the chain walk on a finished sieve returns. *)
Lemma fac_canon_sieve n s v pw f :
  sieve_ok n s → n < uint_mod →
  fac_canon n v pw = Ok f → fac_set_bp s v pw = Ok f.
Proof.
  intros Hs Hn. unfold fac_canon.
  set (h := map _ _).
  destruct (_ && _) eqn:E; [|discriminate]. intros [= <-].
  repeat (apply andb_prop in E as [E ?]).
  repeat match goal with
         | H : (_ <? _) = true |- _ => apply Z.ltb_lt in H
         | H : (_ <=? _) = true |- _ => apply Z.leb_le in H
         | H : (_ =? _) = true |- _ => apply Z.eqb_eq in H
         end.
  destruct (fac_set_bp_ok n s Hs Hn v pw) as (f' & -> & Wf' & Ef' & _);
    try lia; try assumption.
  { rewrite uint_mod_eq. lia. }
  f_equal. apply fac_unique; [assumption|apply fac_wf_b_ok; assumption|].
  congruence.
Qed.

(** ** The factored half of [bs] *)

Lemma leaf_facs_mono (o1 o2 : Z → Z → res fac_t) b r :
  (∀ v pw f, o1 v pw = Ok f → o2 v pw = Ok f) →
  leaf_facs o1 b = Ok r → leaf_facs o2 b = Ok r.
Proof.
  intros Ho. unfold leaf_facs.
  intros (i & -> & H)%bind_ok. cbn [mbind res_bind].
  repeat (apply bind_ok in H as (? & ->%Ho & H); cbn [mbind res_bind]).
  exact H.
Qed.

Lemma bs_fac_mono (o1 o2 : Z → Z → res fac_t) :
  (∀ v pw f, o1 v pw = Ok f → o2 v pw = Ok f) →
  ∀ fuel a b terms level r,
    bs_fac o1 fuel a b terms level = Ok r →
    bs_fac o2 fuel a b terms level = Ok r.
Proof.
  intros Ho fuel. induction fuel as [|fuel IH]; intros a b terms level r;
    [discriminate|].
  cbn [bs_fac]. destruct (wrap (b - a) =? 1).
  - apply leaf_facs_mono, Ho.
  - intros (mid & -> & H)%bind_ok. cbn [mbind res_bind].
    apply bind_ok in H as (l & ->%IH & H). cbn [mbind res_bind].
    apply bind_ok in H as (r' & ->%IH & H). exact H.
Qed.

Lemma bs_leaf_facs s b x :
  bs_leaf s b = Ok x → leaf_facs (fac_set_bp s) b = Ok (fp x, fg x).
Proof.
  unfold bs_leaf, leaf_facs, fac_mul_bp.
  intros (i & -> & H)%bind_ok. cbn [mbind res_bind].
  apply bind_ok in H as (f1 & -> & H). cbn [mbind res_bind].
  apply bind_ok in H as (f1' & (t1 & -> & [= <-])%bind_ok & H).
  cbn [mbind res_bind].
  apply bind_ok in H as (g1 & -> & H). cbn [mbind res_bind].
  apply bind_ok in H as (g1' & (t2 & -> & [= <-])%bind_ok & H).
  cbn [mbind res_bind].
  apply bind_ok in H as (g1'' & (t3 & -> & [= <-])%bind_ok & H).
  cbn [mbind res_bind]. injection H as <-. reflexivity.
Qed.

Lemma fac_remove_gcd_facs p0 fp0 g0 fg0 p' fp' g' fg' :
  fac_remove_gcd p0 fp0 g0 fg0 = Ok (p', fp', g', fg') →
  gcd_facs fp0 fg0 = (fp', fg').
Proof.
  unfold fac_remove_gcd, gcd_facs.
  destruct (gcd_scan fp0 fg0) as [[fp1 fg1] fmul].
  destruct (Z.of_nat (length fmul) =? 0).
  - intros [= _ <- _ <-]. reflexivity.
  - intros (? & _ & H)%bind_ok. apply bind_ok in H as (? & _ & H).
    apply bind_ok in H as (? & _ & H). injection H as _ <- _ <-. reflexivity.
Qed.

Lemma bs_node_facs b terms level l r x :
  bs_node false b terms level l r = Ok x →
  node_facs b terms level (fp l, fg l) (fp r, fg r) = (fp x, fg x).
Proof.
  unfold bs_node, node_facs. cbn [fst snd orb].
  intros ([[[pj fpj] g1] fg1] & Hg & H)%bind_ok.
  assert ((if 4 <=? level then gcd_facs (fp r) (fg l) else (fp r, fg l))
          = (fpj, fg1)) as ->.
  { destruct (4 <=? level).
    - eapply fac_remove_gcd_facs, Hg.
    - injection Hg as _ <- _ <-. reflexivity. }
  destruct (b <? terms); injection H as <-; reflexivity.
Qed.

Lemma bs_gen_facs s fuel :
  ∀ a b terms level x,
    bs_gen false fuel s a b terms level = Ok x →
    bs_fac (fac_set_bp s) fuel a b terms level = Ok (fp x, fg x).
Proof.
  induction fuel as [|fuel IH]; intros a b terms level x; [discriminate|].
  cbn [bs_gen bs_fac]. destruct (wrap (b - a) =? 1).
  - apply bs_leaf_facs.
  - intros (mid & -> & H)%bind_ok. cbn [mbind res_bind].
    apply bind_ok in H as (l & ->%IH & H). cbn [mbind res_bind].
    apply bind_ok in H as (r & ->%IH & H). cbn [mbind res_bind].
    f_equal. eapply bs_node_facs, H.
Qed.

(** ** The exponent of a prime in the [P] of a run *)

Section PowerOfP.

Variables (x n : Z) (s : list sieve_t) (terms : Z).
Hypothesis Hx : Z.prime x.
Hypothesis Hx2 : x ≠ 2.
Hypothesis Hs : sieve_ok n s.
Hypothesis Hn : n < uint_mod.

Lemma bs_result_val level a b r f :
  bs_result s level a b terms r →
  bs_fac (fac_canon n) (Z.to_nat (b - a)) a b terms level = Ok f →
  has_val x (p r) (pow_of x f.1).
Proof.
  intros [Er Ir] Ef. unfold bs_init in Er.
  apply bs_gen_facs in Er.
  apply (bs_fac_mono (fac_canon n) (fac_set_bp s)) in Ef.
  2: { intros v pw h. apply fac_canon_sieve; assumption. }
  rewrite Er in Ef. injection Ef as <-. cbn [fst].
  destruct Ir as [Wp _ _ (_ & k & Hk & ->) _ _ _].
  replace (pow_of x (fp r)) with (0 + pow_of x (fp r)) by lia.
  apply has_val_mul; [exact Hx|apply has_val_pow2|apply has_val_eval];
    assumption.
Qed.

Lemma fold_merge_p t ts :
  (fold_merge (t :: ts)).1.1 = t.1.1 * (fold_merge ts).1.1.
Proof.
  cbn [fold_merge fold_right].
  change (fold_right merge (1, 0, 1) ts) with (fold_merge ts).
  destruct t as [[p1 q1] g1], (fold_merge ts) as [[p2 q2] g2]. reflexivity.
Qed.

Variables (threads level : Z).

Lemma shards_val r :
  shards_done_with (bs_result s level) terms threads threads r →
  ∀ k j es,
    j = threads - Z.of_nat k → 0 <= j →
    shard_pows x n terms threads level (seqZ j (Z.of_nat k)) = Ok es →
    has_val x (fold_merge (drop (Z.to_nat j) (shards_of r))).1.1
            (sum_list es).
Proof.
  intros (Hlen & Hdone). pose proof (shards_of_length _ _ Hlen) as Hl.
  induction k as [|k IH]; intros j es Hj Hj0.
  - cbn. intros [= <-]. rewrite drop_ge by lia. cbn.
    split; [lia|]. exists 1. split; [reflexivity|].
    intros H%Z.divide_1_r. apply Z.prime_ge_2 in Hx. lia.
  - rewrite seqZ_cons by lia. cbn [shard_pows].
    intros (f & Ef & H)%bind_ok. apply bind_ok in H as (es' & Ees & [= <-]).
    replace (Z.pred (Z.of_nat (S k))) with (Z.of_nat k) in Ees by lia.
    destruct (Hdone j ltac:(lia)) as (y & Hy & Hly).
    rewrite (drop_S _ _ _ Hly), fold_merge_p. cbn [sum_list fold_right].
    apply has_val_mul; [exact Hx|apply (bs_result_val _ _ _ _ _ Hy Ef)|].
    replace (S (Z.to_nat j)) with (Z.to_nat (Z.succ j)) by lia.
    apply IH; [lia|lia|exact Ees].
Qed.

End PowerOfP.

(** The exponent of an odd prime in the [P] that a run leaves in slot 0 is
    the sum of its exponents in the [fp] of the shards. *)
Lemma split_val x terms threads cd es :
  Z.prime x → x ≠ 2 →
  0 < terms → terms <= MAX_DIGITS / 14 → 1 <= threads <= terms →
  depth_loop 64 0 threads = Ok cd →
  shard_pows x (sieve_size_of terms) terms threads cd (seqZ 0 threads) = Ok es →
  ∃ r P, split terms threads = Ok r ∧ pstack r !! 0%nat = Some P ∧
         has_val x P (sum_list es).
Proof.
  intros Hx Hx2 Ht HT Hth Hcd Hes. pose proof uint_mod_eq as HU.
  pose proof HT as HTn. change (MAX_DIGITS / 14) with 714285714 in HTn.
  unfold split, split_gen. rewrite Hcd.
  destruct (depth_loop_ok threads ltac:(lia) 64 0)
    as (cd' & Hcd' & Hcdr & Hle & _); try lia.
  assert (cd' = cd) as -> by congruence.
  cbn [mbind res_bind]. destruct (Z.leb_spec terms 0); [lia|].
  destruct (sieve_size_ok terms Ht HT) as (s & -> & Hs & Hz1 & Hz2 & Hz3).
  cbn [mbind res_bind].
  destruct (shards_ok _ s terms threads cd Hs Hz1 Hz2 Hz3 HT Hth
              (S (Z.to_nat threads)) 0 (Run [] [] [] []))
    as (r & -> & Hdone); try lia.
  { split; [repeat split|intros; lia]. }
  cbn [mbind res_bind].
  destruct (reduction_ok false r threads cd) as (r' & -> & Hlen & Hp & _);
    try lia; [apply Hdone|].
  pose proof (shards_val x _ s terms Hx Hx2 Hs Hz1 threads cd r Hdone
                (Z.to_nat threads) 0 es ltac:(lia) ltac:(lia)) as Hv.
  rewrite Z2Nat.id in Hv by lia. specialize (Hv Hes).
  rewrite drop_0 in Hv. eauto.
Qed.

(** ** The number of terms

    [terms = digits / DIGITS_PER_ITER] in double precision lies between the
    integer quotients by 15 and by 14. *)
Lemma terms_of_quotient d :
  0 <= d <= MAX_DIGITS →
  ∃ t, terms_of d = Ok t ∧ d / 15 <= t <= d / 14.
Proof.
  unfold MAX_DIGITS. intros Hr. pose proof uint_mod_eq as HU.
  unfold terms_of. rewrite DoubleFacts.of_Z_small by lia.
  unfold Double.div, DIGITS_PER_ITER. cbn [Double.man Double.exp].
  change (Z.log2 7983557778578775) with 52.
  change (56 + 52) with 108. change (0 - -49 - 108 - 1) with (-60).
  set (my := 7983557778578775).
  set (q := d * 2 ^ 108 / my).
  set (st := if d * 2 ^ 108 mod my =? 0 then 0 else 1).
  assert (0 <= st <= 1) as Hst by (unfold st; destruct (_ =? _); lia).
  pose proof (Z.div_mod (d * 2 ^ 108) my ltac:(unfold my; lia)) as Hdm.
  pose proof (Z.mod_pos_bound (d * 2 ^ 108) my ltac:(unfold my; lia)) as Hmod.
  fold q in Hdm.
  assert (0 <= q) as Hq by (apply Z.div_pos; unfold my; lia).
  set (m := 2 * q + st). assert (0 <= m) as Hm by lia.
  set (y := Double.round m (-60)).
  pose proof (DoubleFacts.round_exp_ge m (-60) Hm) as Hey. fold y in Hey.
  set (F := d / 14). set (L := d / 15).
  assert (14 * F <= d < 14 * F + 14) as HF
      by (unfold F; Z.to_euclidean_division_equations; lia).
  assert (15 * L <= d < 15 * L + 15) as HL
      by (unfold L; Z.to_euclidean_division_equations; lia).
  change (2 ^ 108) with 324518553658426726783156020576256 in *.
  assert (L * 2 ^ (0 - -60) <= Double.scaled y (-60)) as Hy1.
  { apply DoubleFacts.round_ge; unfold m, my in *; lia. }
  assert (Double.scaled y (-60)
          <= ((F + 1) * 4194304 - 1) * 2 ^ (-22 - -60)) as Hy2.
  { apply DoubleFacts.round_le; unfold m, my in *; lia. }
  change (2 ^ (0 - -60)) with 1152921504606846976 in Hy1.
  change (2 ^ (-22 - -60)) with 274877906944 in Hy2.
  unfold Double.to_uint.
  rewrite (DoubleFacts.to_Z_scaled y (-60)) by lia.
  change (2 ^ (- -60)) with 1152921504606846976.
  set (t := Double.scaled y (-60) / 1152921504606846976).
  assert (L <= t <= F) as Ht.
  { unfold t. split.
    - apply Z.div_le_lower_bound; lia.
    - apply Z.lt_succ_r, Z.div_lt_upper_bound; lia. }
  destruct (Z.ltb_spec t uint_mod); [|lia].
  exists t. split; [reflexivity|exact Ht].
Qed.

(** The terms that [main] computes for a digit count. *)
Lemma main_terms_small digits terms :
  0 <= digits → terms_of (clamp_digits digits).1 = Ok terms →
  0 <= terms <= MAX_DIGITS / 14.
Proof.
  intros Hd E.
  assert (0 <= (clamp_digits digits).1 <= MAX_DIGITS) as Hr.
  { unfold clamp_digits, MAX_DIGITS.
    destruct (Z.ltb_spec 10000000000 digits); cbn [fst]; lia. }
  destruct (terms_of_quotient _ Hr) as (t & Et & Ht).
  rewrite E in Et. injection Et as <-.
  assert (0 <= (clamp_digits digits).1 / 15) by (apply Z.div_pos; lia).
  assert ((clamp_digits digits).1 / 14 <= MAX_DIGITS / 14)
    by (apply Z.div_le_mono; lia).
  lia.
Qed.

(** * The properties of the specification, one by one *)





(** C3 (as amended): for every term count and every two thread counts that
    do not exceed it, both runs return, and the pairs [(P, Q)] that they
    leave in slot 0 of the stacks stand for the same ratio: each is the
    pair of the whole series divided by a positive factor, so
    [P1 * Q2 = P2 * Q1], with [P1] and [P2] positive. *)
Theorem threads_keep_ratio terms t1 t2 :
  0 < terms → 150 * terms < uint_mod →
  1 <= t1 <= terms → 1 <= t2 <= terms →
  ∃ r1 r2 P1 Q1 P2 Q2,
    split terms t1 = Ok r1 ∧ split terms t2 = Ok r2 ∧
    pstack r1 !! 0%nat = Some P1 ∧ qstack r1 !! 0%nat = Some Q1 ∧
    pstack r2 !! 0%nat = Some P2 ∧ qstack r2 !! 0%nat = Some Q2 ∧
    P1 * Q2 = P2 * Q1 ∧ 0 < P1 ∧ 0 < P2.
Proof.
  intros Ht HT H1 H2. pose proof uint_mod_eq as HU.
  pose proof HT as HTn. apply terms_small in HT.
  destruct (split_ok terms t1 Ht HT H1)
    as (r1 & d1 & P1 & Q1 & G1 & E1 & [Hp1 Hq1] & (Hd1 & HP1 & HQ1 & _)).
  destruct (split_ok terms t2 Ht HT H2)
    as (r2 & d2 & P2 & Q2 & G2 & E2 & [Hp2 Hq2] & (Hd2 & HP2 & HQ2 & _)).
  pose proof (series_bounds 0 terms ltac:(lia) ltac:(lia) ltac:(lia))
    as [[HP _] _].
  cbn [fst snd] in *. change (Z.to_nat 0) with 0%nat in *.
  exists r1, r2, P1, Q1, P2, Q2.
  repeat match goal with |- _ ∧ _ => split end; auto; try nia.
  assert (d1 * d2 * (P1 * Q2) = d1 * d2 * (P2 * Q1)) as E.
  { transitivity ((d1 * P1) * (d2 * Q2)); [ring|].
    rewrite <- HP1, <- HQ2, HP2, HQ1. ring. }
  apply Z.mul_reg_l in E; [exact E|]. nia.
Qed.

Lemma threads_keep_ratio_witness :
  ∃ r1 r2 P1 Q1 P2 Q2,
    split 1000 1 = Ok r1 ∧ split 1000 8 = Ok r2 ∧
    pstack r1 !! 0%nat = Some P1 ∧ qstack r1 !! 0%nat = Some Q1 ∧
    pstack r2 !! 0%nat = Some P2 ∧ qstack r2 !! 0%nat = Some Q2 ∧
    P1 * Q2 = P2 * Q1 ∧ 0 < P1 ∧ 0 < P2.
Proof.
  apply (threads_keep_ratio 1000 1 8); solve [lia|reflexivity].
Defined.

(** The exponents of 5 in the [fp] of the shards of the runs on 1000 terms
    with 1 and with 8 threads, by [bs_fac] on [fac_canon]. *)
Lemma shard_pows_1000_1 :
  shard_pows 5 (sieve_size_of 1000) 1000 1 0 (seqZ 0 1) = Ok [3008].
Proof. vm_compute. reflexivity. Qed.

Lemma shard_pows_1000_8 :
  shard_pows 5 (sieve_size_of 1000) 1000 8 3 (seqZ 0 8)
  = Ok [375; 376; 375; 376; 377; 375; 376; 375].
Proof. vm_compute. reflexivity. Qed.

(** C3 (counterexample): with 1000 terms the run on 1 thread and the run
    on 8 threads both return, and leave different [P] in slot 0 of
    [pstack]: the exponent of 5 is 3008 in the first and 3005 in the
    second.  The shards of the second run start at level 3 and cover other
    ranges than the nodes of the first run, so other common factors are
    removed. *)
Lemma threads_change_p :
  ∃ r1 r8 P1 P8,
    split 1000 1 = Ok r1 ∧ split 1000 8 = Ok r8 ∧
    pstack r1 !! 0%nat = Some P1 ∧ pstack r8 !! 0%nat = Some P8 ∧
    P1 ≠ P8.
Proof.
  assert (Z.prime 5) as H5 by (apply is_prime_ok; reflexivity).
  assert (1000 <= MAX_DIGITS / 14) as HT by (apply terms_small; reflexivity).
  assert (depth_loop 64 0 1 = Ok 0) as D1 by reflexivity.
  assert (depth_loop 64 0 8 = Ok 3) as D8 by reflexivity.
  destruct (split_val 5 1000 1 0 _ H5 ltac:(lia) ltac:(lia) HT ltac:(lia)
              D1 shard_pows_1000_1) as (r1 & P1 & E1 & Hp1 & V1).
  destruct (split_val 5 1000 8 3 _ H5 ltac:(lia) ltac:(lia) HT ltac:(lia)
              D8 shard_pows_1000_8) as (r8 & P8 & E8 & Hp8 & V8).
  exists r1, r8, P1, P8.
  split; [exact E1|]. split; [exact E8|]. split; [exact Hp1|].
  split; [exact Hp8|].
  intros ->. pose proof (has_val_inj 5 H5 _ _ _ V1 V8) as Hneq.
  vm_compute in Hneq. discriminate.
Qed.

(** C2 (as amended): for an even bound [n >= 2] that leaves room for the
    increments of the marking loop, [build_sieve] returns a table, and for
    every odd [v] in [1, n] the chain walk of [fac_set_bp] from entry [v/2]
    returns pairs with strictly increasing first components, each a prime
    with a positive multiplicity, whose product is [v]. *)
Theorem sieve_chain_factorizes n v :
  Z.even n = true → 2 <= n → n + 2 * Z.sqrt n < uint_mod →
  Z.odd v = true → 1 <= v <= n →
  ∃ s f, build_sieve (Z.to_nat n) n = Ok s ∧
         fac_set_bp s v 1 = Ok f ∧
         StronglySorted Z.lt (facs f) ∧
         Forall (λ x, Z.prime x.1 ∧ 0 < x.2) f ∧
         eval f = v.
Proof.
  intros Hev Hn2 Hn Ho Hv.
  destruct (build_sieve_ok (Z.to_nat n) n Hev Hn2 Hn ltac:(lia)) as (s & Hb & Hs).
  assert (n < uint_mod) as Hlt by (pose proof (Z.sqrt_nonneg n); lia).
  destruct (fac_set_bp_ok n s Hs Hlt v 1 ltac:(lia)
              ltac:(rewrite uint_mod_eq; lia) Hv Ho) as (f & Hf & [Sf Pf Ef] & Hev' & _).
  exists s, f. repeat match goal with |- _ ∧ _ => split end; auto.
  - apply List.Forall_forall. intros x Hx.
    rewrite List.Forall_forall in Pf, Ef.
    split; [apply (Pf x Hx)|apply (Ef x Hx)].
  - rewrite Hev'. apply Z.pow_1_r.
Qed.

Lemma sieve_chain_factorizes_witness :
  ∃ s f, build_sieve (Z.to_nat 100) 100 = Ok s ∧
         fac_set_bp s 45 1 = Ok f ∧
         StronglySorted Z.lt (facs f) ∧
         Forall (λ x, Z.prime x.1 ∧ 0 < x.2) f ∧
         eval f = 45.
Proof.
  apply (sieve_chain_factorizes 100 45);
    [reflexivity|lia|vm_compute; reflexivity|reflexivity|lia].
Defined.

(** C2 (counterexample): for the odd bound 7 the table has the 3 entries of
    1, 3 and 5 (what [memset] clears), so the step of the sieve at [i = 7]
    reaches entry [7/2 = 3] outside it: there is no table to walk for
    [v = 7]. *)
Lemma sieve_odd_bound_undefined :
  Z.odd 7 = true ∧ 1 <= 7 <= 7 ∧ ∀ fuel s, build_sieve fuel 7 ≠ Ok s.
Proof.
  split; [reflexivity|]. split; [lia|]. intros fuel s.
  do 4 (destruct fuel as [|fuel]; [discriminate|]).
  vm_compute. discriminate.
Qed.

(** C4: on factored forms with strictly increasing primes and positive
    exponents that divide [p0] and [g0], [fac_remove_gcd] returns; both
    integers are divided exactly by the product [d] of the shared primes,
    each to the smaller of its two exponents; the factored forms returned
    are again well formed (no exponent 0 is left), are those of the
    quotients, and have no prime in common. *)
Theorem fac_remove_gcd_divides p0 fp0 g0 fg0 :
  fac_wf fp0 → fac_wf fg0 → (eval fp0 | p0) → (eval fg0 | g0) →
  let d := eval (shared fp0 fg0) in
  ∃ p' fp' g' fg',
    fac_remove_gcd p0 fp0 g0 fg0 = Ok (p', fp', g', fg') ∧
    0 < d ∧ p0 = d * p' ∧ g0 = d * g' ∧
    eval fp0 = d * eval fp' ∧ eval fg0 = d * eval fg' ∧
    fac_wf fp' ∧ fac_wf fg' ∧
    Forall (λ x, 0 < x.2) fp' ∧ Forall (λ x, 0 < x.2) fg' ∧
    (∀ x, In x (facs fp') → In x (facs fg') → False).
Proof.
  intros Wp Wg Dp Dg d.
  destruct (fac_remove_gcd_spec p0 fp0 g0 fg0 Wp Wg Dp Dg)
    as (p' & fp' & g' & fg' & E & H0 & H1 & H2 & H3 & H4 & W1 & W2 & H5).
  exists p', fp', g', fg'.
  repeat match goal with |- _ ∧ _ => split end;
    auto using fac_wf_pows_pos.
Qed.

Lemma small_fac_wf_45 : fac_wf [(3, 2); (5, 1)].
Proof.
  split; repeat constructor; try (apply is_prime_ok; reflexivity).
Qed.

Lemma small_fac_wf_21 : fac_wf [(3, 1); (7, 1)].
Proof.
  split; repeat constructor; try (apply is_prime_ok; reflexivity).
Qed.

Lemma fac_remove_gcd_divides_witness :
  let d := eval (shared [(3, 2); (5, 1)] [(3, 1); (7, 1)]) in
  ∃ p' fp' g' fg',
    fac_remove_gcd 90 [(3, 2); (5, 1)] 21 [(3, 1); (7, 1)]
    = Ok (p', fp', g', fg') ∧
    0 < d ∧ 90 = d * p' ∧ 21 = d * g' ∧
    eval [(3, 2); (5, 1)] = d * eval fp' ∧
    eval [(3, 1); (7, 1)] = d * eval fg' ∧
    fac_wf fp' ∧ fac_wf fg' ∧
    Forall (λ x, 0 < x.2) fp' ∧ Forall (λ x, 0 < x.2) fg' ∧
    (∀ x, In x (facs fp') → In x (facs fg') → False).
Proof.
  apply (fac_remove_gcd_divides 90 [(3, 2); (5, 1)] 21 [(3, 1); (7, 1)]).
  - exact small_fac_wf_45.
  - exact small_fac_wf_21.
  - exists 2. reflexivity.
  - exists 1. reflexivity.
Defined.

(** C5 (as amended): on factored forms with strictly increasing primes and
    positive exponents, [fac_mul2] is commutative; when no sum of the two
    exponents of a shared prime leaves the range of [uint_t], its result has
    strictly increasing primes and positive exponents again and stands for
    the product of the two integers. *)
Theorem fac_mul2_product f g :
  fac_wf f → fac_wf g → pow_sums_fit f g →
  fac_mul2 f g = fac_mul2 g f ∧
  fac_wf (fac_mul2 f g) ∧
  eval (fac_mul2 f g) = eval f * eval g.
Proof.
  intros Wf Wg Hfit. split; [apply fac_mul2_comm|]. split.
  - apply fac_wf_mul2; assumption.
  - apply eval_fac_mul2; auto using fac_wf_pows_nonneg.
Qed.

Lemma fac_mul2_product_witness :
  fac_mul2 [(3, 2); (5, 1)] [(3, 1); (7, 1)]
  = fac_mul2 [(3, 1); (7, 1)] [(3, 2); (5, 1)] ∧
  fac_wf (fac_mul2 [(3, 2); (5, 1)] [(3, 1); (7, 1)]) ∧
  eval (fac_mul2 [(3, 2); (5, 1)] [(3, 1); (7, 1)])
  = eval [(3, 2); (5, 1)] * eval [(3, 1); (7, 1)].
Proof.
  apply (fac_mul2_product [(3, 2); (5, 1)] [(3, 1); (7, 1)]).
  - exact small_fac_wf_45.
  - exact small_fac_wf_21.
  - intros x e d [[= <- <-]|[[= <- <-]|[]]] [[= <-]|[[= <-]|[]]]; reflexivity.
Defined.

(** C5 (counterexample): [3^(2^31)] and itself have strictly increasing
    primes and positive exponents; the merge adds the two exponents in
    [uint_t], which gives 0: the result has an exponent that is not
    positive, and stands for 1. *)
Lemma fac_mul2_exponent_wraps :
  let f := [(3, 2147483648)] in
  fac_wf f ∧
  fac_mul2 f f = [(3, 0)] ∧
  ¬ fac_wf (fac_mul2 f f) ∧
  eval (fac_mul2 f f) ≠ eval f * eval f.
Proof.
  assert (∀ e, 0 < e → 3 <= eval [(3, e)]) as Hbig.
  { intros e He. cbn [eval]. rewrite Z.mul_1_r.
    change 3 with (3 ^ 1) at 1. apply Z.pow_le_mono_r; lia. }
  set (e := 2147483648). assert (0 < e) as He by reflexivity.
  assert (fac_mul2 [(3, e)] [(3, e)] = [(3, 0)]) as Hm by reflexivity.
  cbn zeta. rewrite Hm. repeat split.
  - repeat constructor.
  - repeat constructor; apply is_prime_ok; reflexivity.
  - repeat constructor.
  - intros [_ _ Hpow]. apply Forall_inv in Hpow. cbn in Hpow. lia.
  - specialize (Hbig e He). change (eval [(3, 0)]) with 1. nia.
Qed.

(** C6: for the terms of any digit count, as [main] computes them, and
    any number of threads (an [int], at least 1): whenever the splitter
    that skips [g] at the nodes whose range ends at [terms], followed by
    the reduction that skips [g] when [gflag = 0], returns, the variant
    that multiplies every [g] returns too, and both leave the same [P] and
    the same [Q] in slot 0 of the stacks; and the splitter does return
    when there is no term, and for every number of threads from 1 to the
    number of terms. *)
Theorem skipping_g_keeps_pq digits terms threads :
  0 <= digits → terms_of (clamp_digits digits).1 = Ok terms →
  1 <= threads < 2 ^ 31 →
  (terms = 0 ∨ threads <= terms → is_ok (split terms threads)) ∧
  ∀ r, split terms threads = Ok r →
       ∃ r' P Q,
         split_keep_g terms threads = Ok r' ∧
         pstack r !! 0%nat = Some P ∧ qstack r !! 0%nat = Some Q ∧
         pstack r' !! 0%nat = Some P ∧ qstack r' !! 0%nat = Some Q.
Proof.
  intros Hd Et Hth. pose proof uint_mod_eq as HU.
  destruct (main_terms_small digits terms Hd Et) as [Ht0 HT].
  pose proof HT as HTn. change (MAX_DIGITS / 14) with 714285714 in HTn.
  assert (terms = 0 ∨ threads <= terms →
          ∃ r r' P Q,
            split terms threads = Ok r ∧ split_keep_g terms threads = Ok r' ∧
            pstack r !! 0%nat = Some P ∧ qstack r !! 0%nat = Some Q ∧
            pstack r' !! 0%nat = Some P ∧ qstack r' !! 0%nat = Some Q)
    as Hboth.
  { intros Hle. unfold split, split_keep_g, split_gen.
    destruct (depth_loop_ok threads ltac:(lia) 64 0)
      as (cd & -> & Hcd & Hle2 & _); try lia.
    cbn [mbind res_bind]. destruct (Z.leb_spec terms 0) as [H0|Ht].
    { (* no term: the stacks are set to the triple (1, 0, 1) *)
      exists (Run [] [1] [0] [1]), (Run [] [1] [0] [1]), 1, 0.
      repeat split. }
    assert (1 <= threads <= terms) as Hth' by lia.
    destruct (sieve_size_ok terms Ht HT) as (s & -> & Hs & Hz1 & Hz2 & Hz3).
    cbn [mbind res_bind].
    destruct (shards_ok _ s terms threads cd Hs Hz1 Hz2 Hz3 HT Hth'
                (S (Z.to_nat threads)) 0 (Run [] [] [] []))
      as (r1 & Hr1 & Hlen1 & _); try lia.
    { split; [repeat split|intros; lia]. }
    destruct (shards_sim s terms ltac:(lia) threads cd Hth' _ 0 _ r1
                ltac:(lia) Hr1) as (r2 & Hr2 & Hlast).
    rewrite Hr1, Hr2. cbn [mbind res_bind].
    destruct (g_last_only_fold r1 r2 threads Hlen1 Hlast) as (Hlen2 & Hfold).
    destruct (reduction_ok false r1 threads cd) as (r & -> & _ & Hp & Hq);
      try lia; [exact Hlen1|].
    destruct (reduction_ok true r2 threads cd) as (r' & -> & _ & Hp' & Hq');
      try lia; [exact Hlen2|].
    rewrite Hfold in Hp', Hq'. change (Z.to_nat 0) with 0%nat in *.
    exists r, r'. eauto 10. }
  split.
  - intros Hle. destruct (Hboth Hle) as (r & _ & _ & _ & E & _).
    exists r. exact E.
  - intros r Er.
    destruct (Z.eq_dec terms 0) as [H0|H0];
      [|destruct (Z.le_gt_cases threads terms) as [Hle|Hgt]].
    1, 2: destruct (Hboth ltac:(tauto)) as (r0 & r' & P & Q & E & E' & H);
      rewrite E in Er; injection Er as <-; exists r', P, Q; auto.
    (* more threads than terms: the first shard is empty *)
    rewrite split_more_threads_than_terms in Er by (assumption || lia).
    discriminate.
Qed.

Lemma skipping_g_keeps_pq_witness :
  (1000 = 0 ∨ 8 <= 1000 → is_ok (split 1000 8)) ∧
  ∀ r, split 1000 8 = Ok r →
       ∃ r' P Q,
         split_keep_g 1000 8 = Ok r' ∧
         pstack r !! 0%nat = Some P ∧ qstack r !! 0%nat = Some Q ∧
         pstack r' !! 0%nat = Some P ∧ qstack r' !! 0%nat = Some Q.
Proof.
  apply (skipping_g_keeps_pq 14182 1000 8);
    [lia|vm_compute; reflexivity|lia].
Defined.

(** C7: for the terms of any digit count, as [main] computes them, and on
    the sieve that [main] builds for them, the splitter returns on every
    range [a, m) inside [0, terms], the whole range [0, terms) included, at
    every level; in its result [fg] evaluates to [g], [g] is odd, and [fp]
    evaluates to [p] with every factor of 2 removed.  When a range [m, b)
    follows, the same holds of its result, and the product of the primes
    shared by the [fp] of the right result and the [fg] of the left one
    divides both the right [p] and the left [g], so that [fac_remove_gcd]
    on them returns. *)
Theorem bs_twins digits terms a m b la lb :
  0 <= digits → terms_of (clamp_digits digits).1 = Ok terms →
  0 <= a → a < m → m <= b → b <= terms →
  ∃ s l,
    build_sieve (Z.to_nat (sieve_size_of terms)) (sieve_size_of terms) = Ok s ∧
    bs_init false s a m terms la = Ok l ∧ twins_ok l ∧
    (m < b →
     ∃ r, bs_init false s m b terms lb = Ok r ∧ twins_ok r ∧
          (eval (shared (fp r) (fg l)) | p r) ∧
          (eval (shared (fp r) (fg l)) | g l) ∧
          is_ok (fac_remove_gcd (p r) (fp r) (g l) (fg l))).
Proof.
  intros Hd Et Ha Ham Hmb Hb.
  destruct (main_terms_small digits terms Hd Et) as [_ HT].
  destruct (sieve_size_ok terms ltac:(lia) HT)
    as (s & Hs & Hok & Hz1 & Hz2 & Hz3).
  destruct (bs_gen_ok _ s terms Hok Hz1 Hz2 Hz3 HT (Z.to_nat (m - a)) a m la)
    as (l & Hl & Il); try lia.
  exists s, l.
  destruct Il as [_ Wlg _ Olp Elg Olg _].
  split; [exact Hs|]. split; [exact Hl|]. split; [split; auto|].
  intros Hlt.
  destruct (bs_gen_ok _ s terms Hok Hz1 Hz2 Hz3 HT (Z.to_nat (b - m)) m b lb)
    as (r & Hr & Ir); try lia.
  exists r. destruct Ir as [Wrp _ _ Orp Erg Org _].
  assert (eval (fp r) | p r) as Dp.
  { destruct Orp as (_ & k & _ & ->). apply Z.divide_mul_r, Z.divide_refl. }
  assert (eval (fg l) | g l) as Dg by (rewrite Elg; apply Z.divide_refl).
  destruct (fac_remove_gcd_spec _ _ _ _ Wrp Wlg Dp Dg)
    as (p' & fp' & g' & fg' & E & _ & Hp & Hg & _).
  unfold twins_ok.
  repeat match goal with |- _ ∧ _ => split end; auto.
  - exists p'. lia.
  - exists g'. lia.
  - eexists. exact E.
Qed.

Lemma bs_twins_witness :
  ∃ s l,
    build_sieve (Z.to_nat (sieve_size_of 1000)) (sieve_size_of 1000) = Ok s ∧
    bs_init false s 0 540 1000 5 = Ok l ∧ twins_ok l ∧
    (540 < 1000 →
     ∃ r, bs_init false s 540 1000 1000 5 = Ok r ∧ twins_ok r ∧
          (eval (shared (fp r) (fg l)) | p r) ∧
          (eval (shared (fp r) (fg l)) | g l) ∧
          is_ok (fac_remove_gcd (p r) (fp r) (g l) (fg l))).
Proof.
  apply (bs_twins 14182 1000 0 540 1000 5 5);
    solve [lia|vm_compute; reflexivity].
Defined.

(** C8: on a range [a < b] of [uint_t] values with [b - a >= 2] the split
    point lies strictly between [a] and [b], so both halves are non-empty
    and shorter than the range; and on every range inside [0, terms], on
    the sieve that [main] builds, the recursion of [bs] ends with a result
    as soon as it is allowed [b - a] nested calls. *)
Theorem bs_terminates a b level :
  0 <= a → a < b → b < uint_mod →
  (a + 2 <= b →
   ∃ mid, bs_mid a b = Ok mid ∧ a < mid < b ∧
          0 < mid - a < b - a ∧ 0 < b - mid < b - a) ∧
  (∀ terms, b <= terms → 150 * terms < uint_mod →
     ∃ s, build_sieve (Z.to_nat (sieve_size_of terms)) (sieve_size_of terms)
          = Ok s ∧
          ∀ fuel, b - a <= Z.of_nat fuel → is_ok (bs fuel s a b terms level)).
Proof.
  intros Ha Hab Hb. split.
  - intros H2. destruct (bs_mid_bounds a b Ha H2 Hb) as (mid & E & Hm).
    exists mid. repeat split; auto; lia.
  - intros terms Hbt HT. apply terms_small in HT.
    destruct (sieve_size_ok terms ltac:(lia) HT) as (s & Hs & Hok & Hz1 & Hz2 & Hz3).
    exists s. split; [exact Hs|]. intros fuel Hf.
    destruct (bs_gen_ok _ s terms Hok Hz1 Hz2 Hz3 HT fuel a b level)
      as (x & Hx & _); try lia.
    exists x. exact Hx.
Qed.

Lemma bs_terminates_witness :
  (0 + 2 <= 1000 →
   ∃ mid, bs_mid 0 1000 = Ok mid ∧ 0 < mid < 1000 ∧
          0 < mid - 0 < 1000 - 0 ∧ 0 < 1000 - mid < 1000 - 0) ∧
  (∀ terms, 1000 <= terms → 150 * terms < uint_mod →
     ∃ s, build_sieve (Z.to_nat (sieve_size_of terms)) (sieve_size_of terms)
          = Ok s ∧
          ∀ fuel, 1000 - 0 <= Z.of_nat fuel →
                  is_ok (bs fuel s 0 1000 terms 0)).
Proof. apply (bs_terminates 0 1000 0); solve [lia|reflexivity]. Defined.

(** C9: when the term count computed from the digits is 0, [main] reaches
    the conversion with the stacks [P = 1], [Q = 0], [G = 1] and an empty
    trace: neither [bs] nor [sum] was called. *)
Theorem zero_terms_base_triple ncpus a :
  argc a ≠ 1 →
  terms_of (clamp_digits (if 1 <? argc a then arg_digits a else 100)).1 = Ok 0 →
  ∃ err threads,
    main ncpus a = Ok (Convert err 0 threads (Run [] [1] [0] [1])).
Proof.
  intros Hargc Hterms. unfold main.
  destruct (Z.eqb_spec (argc a) 1) as [?|_]; [contradiction|].
  destruct (clamp_digits _) as [digits e1]. cbn [fst] in Hterms.
  rewrite Hterms. cbn [mbind res_bind].
  set (threads := if 3 <? argc a then _ else _).
  assert (∃ t e2, clamp_threads 0 threads ncpus = (t, e2) ∧ t <= 1)
    as (t & e2 & -> & Ht).
  { unfold clamp_threads.
    change (0 <=? 0) with true. change (0 <? 0) with false.
    cbn [andb].
    destruct (Z.ltb_spec threads 1), (Z.ltb_spec 1 threads); cbn [orb];
      eauto with lia.
    destruct (Z.ltb_spec ncpus threads); eauto with lia. }
  unfold split, split_gen.
  assert (depth_loop 64 0 t = Ok 0) as ->.
  { cbn [depth_loop]. change (Z.shiftl 1 0) with 1.
    destruct (Z.ltb_spec 1 t); [lia|reflexivity]. }
  cbn [mbind res_bind]. change (0 <=? 0) with true. cbn match. eauto.
Qed.

Lemma zero_terms_base_triple_witness :
  ∃ err threads,
    main 8 (Args 4 10 0 (Count 4))
    = Ok (Convert err 0 threads (Run [] [1] [0] [1])).
Proof.
  apply (zero_terms_base_triple 8 (Args 4 10 0 (Count 4)));
    [discriminate|vm_compute; reflexivity].
Defined.

(** The recursion of [bs] on the empty range [0, 0) never ends. *)
Lemma bs_empty_range s terms fuel :
  ∀ level, bs_gen false fuel s 0 0 terms level = OutOfFuel.
Proof.
  assert (bs_mid 0 0 = Ok 0) as Hmid by (vm_compute; reflexivity).
  induction fuel as [|fuel IH]; intros level; [reflexivity|].
  cbn [bs_gen]. change (wrap (0 - 0) =? 1) with false. cbn match.
  rewrite Hmid. cbn [mbind res_bind]. rewrite IH. reflexivity.
Qed.

(** [main] from the clamped arguments on. *)
Lemma main_split ncpus a digits e1 terms threads e2 :
  argc a ≠ 1 →
  clamp_digits (if 1 <? argc a then arg_digits a else 100) = (digits, e1) →
  terms_of digits = Ok terms →
  clamp_threads terms
    (if 3 <? argc a
     then match arg_threads a with Auto => ncpus | Count n => n end
     else 1) ncpus = (threads, e2) →
  main ncpus a
  = (r ← split terms threads; Ok (Convert (e1 ++ e2) terms threads r)).
Proof.
  intros Hargc Hd Ht Hth. unfold main.
  destruct (Z.eqb_spec (argc a) 1) as [?|_]; [contradiction|].
  rewrite Hd, Ht. cbn [mbind res_bind]. rewrite Hth. reflexivity.
Qed.

(** C10: without arguments [main] prints the usage text and exits with
    status 1.  With 30 digits (2 terms) and 16 threads requested on 8
    logical cores, the thread count is reset to 8, above the number of
    terms; the width of a shard is then [2 / 8 = 0], the first shard is the
    empty range [0, 0), on which [bs] does not return whatever the number
    of nested calls allowed, and [main] does not reach the conversion. *)
Theorem threads_reset_above_terms :
  (∀ ncpus a, argc a = 1 → main ncpus a = Ok (Exit 1 [Usage])) ∧
  terms_of 30 = Ok 2 ∧
  clamp_threads 2 16 8 = (8, [ThreadsReset 16 8]) ∧
  2 / 8 = 0 ∧
  (∀ fuel s level, bs fuel s 0 0 2 level = OutOfFuel) ∧
  main 8 (Args 4 30 0 (Count 16)) = OutOfFuel.
Proof.
  split.
  { intros ncpus a Ha. unfold main. rewrite Ha. reflexivity. }
  assert (terms_of 30 = Ok 2) as Hterms by (vm_compute; reflexivity).
  split; [exact Hterms|]. split; [reflexivity|]. split; [reflexivity|].
  split; [intros; apply bs_empty_range|].
  rewrite (main_split 8 (Args 4 30 0 (Count 16)) 30 [] 2 8
             [ThreadsReset 16 8] ltac:(discriminate) eq_refl Hterms eq_refl).
  rewrite split_more_threads_than_terms
    by (try apply terms_small; try reflexivity; lia).
  reflexivity.
Qed.

(** * Further properties of the code *)

(** ** The sieve table *)

(** [build_sieve]: on an even bound [n >= 2] that leaves room for the
    increments of the marking loop, the table has [n/2] entries, entry 0
    is that of 1, and the entry of every odd [v] in [3, n] holds the
    smallest factor of [v] above 1 (a prime), the multiplicity of that
    factor in [v], and the index of what is left of [v] without it. *)
Theorem build_sieve_entries n v :
  Z.even n = true → 2 <= n → n + 2 * Z.sqrt n < uint_mod →
  Z.odd v = true → 3 <= v <= n →
  ∃ s e, build_sieve (Z.to_nat n) n = Ok s ∧
         Z.of_nat (length s) = n / 2 ∧
         s !! 0%nat = Some (Sieve 1 1 0) ∧
         s !! Z.to_nat (v / 2) = Some e ∧
         Z.prime (fac e) ∧ (fac e | v) ∧
         (∀ d, 1 < d → (d | v) → fac e <= d) ∧
         0 < pow e ∧
         ∃ c, v = fac e ^ pow e * c ∧ ¬ (fac e | c) ∧ nxt e = c / 2.
Proof.
  intros Hev Hn2 Hn Ho Hv.
  destruct (build_sieve_ok (Z.to_nat n) n Hev Hn2 Hn ltac:(lia))
    as (s & Hb & Hs).
  pose proof Hs as (Hlen & H0 & _).
  destruct (sieve_ok_entry n s Hs v Hv Ho)
    as (e & He & Hf1 & Hfv & Hleast & Hpow & Hrest).
  exists s, e. repeat match goal with |- _ ∧ _ => split end; auto.
  - split; [exact Hf1|]. intros d Hd [c Hc]. apply (Hleast d); [lia|].
    destruct Hfv as [c' Hc']. exists (c' * c). lia.
  - intros d Hd Hdv. destruct (Z.le_gt_cases (fac e) d); [assumption|].
    exfalso. apply (Hleast d); [lia|assumption].
Qed.

Lemma build_sieve_entries_witness :
  ∃ s e, build_sieve (Z.to_nat 100) 100 = Ok s ∧
         Z.of_nat (length s) = 100 / 2 ∧
         s !! 0%nat = Some (Sieve 1 1 0) ∧
         s !! Z.to_nat (45 / 2) = Some e ∧
         Z.prime (fac e) ∧ (fac e | 45) ∧
         (∀ d, 1 < d → (d | 45) → fac e <= d) ∧
         0 < pow e ∧
         ∃ c, 45 = fac e ^ pow e * c ∧ ¬ (fac e | c) ∧ nxt e = c / 2.
Proof.
  apply (build_sieve_entries 100 45);
    [reflexivity|lia|vm_compute; reflexivity|reflexivity|lia].
Defined.

(** ** Factored integers *)

(** [fac_compact]: the entries of power 0 are dropped and nothing else
    changes: the other entries stay, in their order, the integer that the
    form stands for is the same, and compacting again changes nothing. *)
Theorem fac_compact_drops_zero_powers (f : list (Z * Z)) :
  pows_nonneg f →
  (∀ x e, In (x, e) (fac_compact f) ↔ In (x, e) f ∧ 0 < e) ∧
  fac_compact f = filter (λ x, 0 < x.2) f ∧
  eval (fac_compact f) = eval f ∧
  (StronglySorted Z.lt (facs f) → StronglySorted Z.lt (facs (fac_compact f))) ∧
  fac_compact (fac_compact f) = fac_compact f.
Proof.
  intros Hf.
  assert (∀ h : list (Z * Z), fac_compact h = filter (λ x, 0 < x.2) h)
    as Hfilter.
  { induction h as [|[y d] h IH]; [reflexivity|].
    cbn [fac_compact]. rewrite filter_cons. cbn [snd].
    destruct (Z.ltb_spec 0 d); destruct (decide (0 < d)); try lia;
      rewrite IH; reflexivity. }
  repeat match goal with |- _ ∧ _ => split end.
  - apply in_fac_compact.
  - apply Hfilter.
  - apply eval_fac_compact, Hf.
  - apply facs_fac_compact_sorted.
  - rewrite !Hfilter. apply list_filter_filter_l. auto.
Qed.

Lemma fac_compact_drops_zero_powers_witness :
  (∀ x e, In (x, e) (fac_compact [(3, 0); (5, 2); (7, 0)])
          ↔ In (x, e) [(3, 0); (5, 2); (7, 0)] ∧ 0 < e) ∧
  fac_compact [(3, 0); (5, 2); (7, 0)]
  = filter (λ x, 0 < x.2) [(3, 0); (5, 2); (7, 0)] ∧
  eval (fac_compact [(3, 0); (5, 2); (7, 0)]) = eval [(3, 0); (5, 2); (7, 0)] ∧
  (StronglySorted Z.lt (facs [(3, 0); (5, 2); (7, 0)]) →
   StronglySorted Z.lt (facs (fac_compact [(3, 0); (5, 2); (7, 0)]))) ∧
  fac_compact (fac_compact [(3, 0); (5, 2); (7, 0)])
  = fac_compact [(3, 0); (5, 2); (7, 0)].
Proof.
  apply (fac_compact_drops_zero_powers [(3, 0); (5, 2); (7, 0)]).
  repeat constructor; cbn; lia.
Defined.

(** [bs_mul]: on the entries [a, b) of a factored form the balanced
    product returns the integer that these entries stand for, whatever the
    length of the range (the linear branch up to 32 entries, the tree
    above), as soon as it is allowed more than [b - a] nested calls; on the
    empty range it returns 1. *)
Theorem bs_mul_is_product l a b fuel :
  pows_nonneg l →
  0 <= a <= b → b <= Z.of_nat (length l) → b <= 2 ^ 31 →
  (Z.to_nat (b - a) < fuel)%nat →
  bs_mul fuel a b l = Ok (eval (sub l a b)) ∧
  (a = b → bs_mul fuel a b l = Ok 1).
Proof.
  intros Hl Hab Hb Hb31 Hf.
  pose proof (bs_mul_ok l Hl fuel a b Hab Hb Hb31 Hf) as E.
  split; [exact E|]. intros ->. rewrite E. unfold sub.
  rewrite Z.sub_diag. reflexivity.
Qed.

Lemma bs_mul_is_product_witness :
  bs_mul 3 0 2 [(3, 2); (5, 1)] = Ok (eval (sub [(3, 2); (5, 1)] 0 2)) ∧
  (0 = 2 → bs_mul 3 0 2 [(3, 2); (5, 1)] = Ok 1).
Proof.
  apply (bs_mul_is_product [(3, 2); (5, 1)] 0 2 3);
    [repeat constructor; cbn; lia|lia|cbn; lia|lia|lia].
Defined.

(** ** The reduction *)

(** [sum (i, k, gflag)] on two different slots inside the stacks that no
    earlier call has cleared: slot [i] receives the merge of the two
    triples ([G] only when [gflag] is set), slot [k] is cleared and no
    other slot is, and every entry of the three stacks outside the slots
    [i] and [k] is left as it was; the stacks keep their length. *)
Theorem sum_merges_two_slots i k gflag r pi qi gi pk qk gk :
  0 <= i → 0 <= k → i ≠ k →
  cleared (trace r) i = false → cleared (trace r) k = false →
  pstack r !! Z.to_nat i = Some pi → qstack r !! Z.to_nat i = Some qi →
  gstack r !! Z.to_nat i = Some gi →
  pstack r !! Z.to_nat k = Some pk → qstack r !! Z.to_nat k = Some qk →
  gstack r !! Z.to_nat k = Some gk →
  ∃ r', sum i k gflag r = Ok r' ∧
        pstack r' !! Z.to_nat i = Some (pi * pk) ∧
        qstack r' !! Z.to_nat i = Some (qi * pk + qk * gi) ∧
        gstack r' !! Z.to_nat i = Some (if gflag then gi * gk else gi) ∧
        (∀ j, cleared (trace r') j = cleared (trace r) j || (k =? j)) ∧
        (∀ j, j ≠ Z.to_nat i → j ≠ Z.to_nat k →
              pstack r' !! j = pstack r !! j ∧
              qstack r' !! j = qstack r !! j ∧
              gstack r' !! j = gstack r !! j) ∧
        length (pstack r') = length (pstack r) ∧
        length (qstack r') = length (qstack r) ∧
        length (gstack r') = length (gstack r).
Proof.
  intros Hi Hk Hik _ _ Hpi Hqi Hgi Hpk Hqk Hgk.
  assert (Z.to_nat i ≠ Z.to_nat k) as Hne by lia.
  eexists. split; [eapply sum_eq; eassumption|].
  cbn [pstack qstack gstack trace].
  split; [apply list_lookup_insert_eq; eapply lookup_lt_Some, Hpi|].
  split.
  { apply list_lookup_insert_eq. rewrite length_insert.
    eapply lookup_lt_Some, Hqi. }
  split.
  { destruct gflag; [|exact Hgi].
    apply list_lookup_insert_eq. eapply lookup_lt_Some, Hgi. }
  split; [intros j; apply cleared_app|].
  split.
  { intros j Hj1 Hj2. rewrite !list_lookup_insert_ne by auto.
    repeat split. destruct gflag; [|reflexivity].
    apply list_lookup_insert_ne. auto. }
  split; [apply length_insert|].
  split; [rewrite !length_insert; reflexivity|].
  destruct gflag; [apply length_insert|reflexivity].
Qed.

Lemma sum_merges_two_slots_witness :
  ∃ r', sum 0 1 true (Run [] [2; 3] [5; 7] [11; 13]) = Ok r' ∧
        pstack r' !! Z.to_nat 0 = Some (2 * 3) ∧
        qstack r' !! Z.to_nat 0 = Some (5 * 3 + 7 * 11) ∧
        gstack r' !! Z.to_nat 0 = Some (if true then 11 * 13 else 11) ∧
        (∀ j, cleared (trace r') j
              = cleared (trace (Run [] [2; 3] [5; 7] [11; 13])) j
                || (1 =? j)) ∧
        (∀ j, j ≠ Z.to_nat 0 → j ≠ Z.to_nat 1 →
              pstack r' !! j = pstack (Run [] [2; 3] [5; 7] [11; 13]) !! j ∧
              qstack r' !! j = qstack (Run [] [2; 3] [5; 7] [11; 13]) !! j ∧
              gstack r' !! j = gstack (Run [] [2; 3] [5; 7] [11; 13]) !! j) ∧
        length (pstack r') = length (pstack (Run [] [2; 3] [5; 7] [11; 13])) ∧
        length (qstack r') = length (qstack (Run [] [2; 3] [5; 7] [11; 13])) ∧
        length (gstack r') = length (gstack (Run [] [2; 3] [5; 7] [11; 13])).
Proof.
  apply (sum_merges_two_slots 0 1 true (Run [] [2; 3] [5; 7] [11; 13])
           2 5 11 3 7 13); solve [lia|reflexivity].
Defined.

(** The rounds of [sum] in [main]: for any number [T] of shards, a power
    of two or not, with [cores_size = 2^cd >= T], all rounds return, the
    stacks keep their [T] entries, and slot 0 ends with the [P] and the [Q]
    of the merge of the [T] triples in the order of the shards. *)
Theorem reduction_merges_all_shards r T cd :
  0 < T < 2 ^ 31 → stacks_len r T → 0 <= cd <= 31 → T <= 2 ^ cd →
  ∃ r', sum_rounds false 64 1 (2 ^ cd) T r = Ok r' ∧
        stacks_len r' T ∧
        pstack r' !! 0%nat = Some (fold_merge (shards_of r)).1.1 ∧
        qstack r' !! 0%nat = Some (fold_merge (shards_of r)).1.2.
Proof.
  intros HT Hlen Hcd HTcd.
  destruct (reduction_ok false r T cd HT Hlen Hcd HTcd)
    as (r' & E & Hlen' & Hp & Hq).
  exists r'. auto.
Qed.

Lemma reduction_merges_all_shards_witness :
  ∃ r', sum_rounds false 64 1 (2 ^ 2) 3 (Run [] [2; 3; 5] [1; 1; 1] [7; 11; 13])
        = Ok r' ∧
        stacks_len r' 3 ∧
        pstack r' !! 0%nat
        = Some (fold_merge
                  (shards_of (Run [] [2; 3; 5] [1; 1; 1] [7; 11; 13]))).1.1 ∧
        qstack r' !! 0%nat
        = Some (fold_merge
                  (shards_of (Run [] [2; 3; 5] [1; 1; 1] [7; 11; 13]))).1.2.
Proof.
  apply (reduction_merges_all_shards
           (Run [] [2; 3; 5] [1; 1; 1] [7; 11; 13]) 3 2);
    [lia|repeat split|lia|lia].
Defined.

(** The rounds of [sum] in [main], started on [T] shards of which none is
    cleared: they return, no call of [sum] in them is given a slot that an
    earlier call has cleared, and slot 0, which [main] reads after the
    reduction, is never cleared. *)
Theorem reduction_uses_live_slots r T cd :
  0 < T < 2 ^ 31 → stacks_len r T → 0 <= cd <= 31 → T <= 2 ^ cd →
  (∀ j, cleared (trace r) j = false) →
  ∃ r', sum_rounds false 64 1 (2 ^ cd) T r = Ok r' ∧
        sums_live (trace r') ∧ cleared (trace r') 0 = false.
Proof.
  intros HT Hlen Hcd HTcd Hc.
  destruct (reduction_ok false r T cd HT Hlen Hcd HTcd) as (r' & E & _).
  exists r'. split; [exact E|].
  apply (sum_rounds_live T false HT cd Hcd 64 0 r r'); [lia| |exact E].
  split; [apply sums_live_no_sum; exact Hc|].
  intros j Hj. rewrite Hc in Hj. discriminate.
Qed.

Lemma reduction_uses_live_slots_witness :
  ∃ r', sum_rounds false 64 1 (2 ^ 2) 3 (Run [] [2; 3; 5] [1; 1; 1] [7; 11; 13])
        = Ok r' ∧
        sums_live (trace r') ∧ cleared (trace r') 0 = false.
Proof.
  apply (reduction_uses_live_slots
           (Run [] [2; 3; 5] [1; 1; 1] [7; 11; 13]) 3 2);
    [lia|repeat split|lia|lia|reflexivity].
Defined.

(** ** The driver *)

(** [cores_depth]: the loop [while ((1L << d) < x) d++] returns the least
    [d] with [x <= 2^d]. *)
Theorem depth_loop_least x :
  x < 2 ^ 31 →
  ∃ d, depth_loop 64 0 x = Ok d ∧ 0 <= d <= 31 ∧ x <= 2 ^ d ∧
       ∀ d', 0 <= d' < d → 2 ^ d' < x.
Proof.
  intros Hx.
  destruct (depth_loop_ok x Hx 64 0) as (d & E & Hd & Hle & Hlt); try lia.
  exists d. repeat split; auto; try lia.
  intros d' Hd'. specialize (Hlt ltac:(lia)).
  assert (2 ^ d' <= 2 ^ (d - 1)) by (apply Z.pow_le_mono_r; lia). lia.
Qed.

Lemma depth_loop_least_witness :
  ∃ d, depth_loop 64 0 5 = Ok d ∧ 0 <= d <= 31 ∧ 5 <= 2 ^ d ∧
       ∀ d', 0 <= d' < d → 2 ^ d' < 5.
Proof. apply (depth_loop_least 5). lia. Defined.

(** The adjustment of [threads] in [main], with at least one logical core:
    the result lies in [1, ncpus]; a diagnostic is printed exactly when the
    value changes; with no term the result is 1; and with terms it does not
    exceed the term count unless the request exceeded [ncpus] and [ncpus]
    itself exceeds the term count. *)
Theorem clamp_threads_range terms threads ncpus :
  1 <= ncpus →
  let t := (clamp_threads terms threads ncpus).1 in
  let e := (clamp_threads terms threads ncpus).2 in
  1 <= t <= ncpus ∧
  (e = [] ↔ t = threads) ∧
  (e ≠ [] → e = [ThreadsReset threads t]) ∧
  (terms <= 0 → t = 1) ∧
  (0 < terms → (terms < t ↔ ncpus < threads ∧ terms < ncpus)).
Proof.
  intros Hn. unfold clamp_threads.
  destruct (Z.ltb_spec threads 1), (Z.leb_spec terms 0),
    (Z.ltb_spec 1 threads), (Z.ltb_spec 0 terms), (Z.ltb_spec terms threads),
    (Z.leb_spec threads ncpus), (Z.ltb_spec ncpus threads);
    cbn [orb andb fst snd]; try lia;
    (repeat split; try lia; try congruence; try discriminate).
Qed.

Lemma clamp_threads_range_witness :
  let t := (clamp_threads 2 16 8).1 in
  let e := (clamp_threads 2 16 8).2 in
  1 <= t <= 8 ∧
  (e = [] ↔ t = 16) ∧
  (e ≠ [] → e = [ThreadsReset 16 t]) ∧
  (2 <= 0 → t = 1) ∧
  (0 < 2 → (2 < t ↔ 8 < 16 ∧ 2 < 8)).
Proof. apply (clamp_threads_range 2 16 8). lia. Defined.

(** ** The splitter at its edges *)

(** The loop [while ((i & 1) == 0) i >>= 1] of the leaf: on a nonzero
    32-bit [b] it ends within 32 rounds with the odd part of [b]; on 0 it
    never ends. *)
Theorem odd_part_of_nonzero b :
  0 < b < uint_mod →
  (∃ i t, odd_part (Z.to_nat uint_bits) b = Ok i ∧ Z.odd i = true ∧
          0 <= t ∧ b = 2 ^ t * i) ∧
  ∀ fuel, odd_part fuel 0 = OutOfFuel.
Proof.
  intros Hb. split.
  - destruct (odd_part_ok 32 b) as (i & t & E & Ho & Ht & Hbt & _).
    { rewrite uint_mod_eq in Hb. change (2 ^ Z.of_nat 32) with 4294967296.
      lia. }
    exists i, t. auto.
  - induction fuel as [|fuel IH]; [reflexivity|].
    cbn [odd_part]. change (Z.land 0 1 =? 0) with true. cbn match.
    change (Z.shiftr 0 1) with 0. exact IH.
Qed.

Lemma odd_part_of_nonzero_witness :
  (∃ i t, odd_part (Z.to_nat uint_bits) 40 = Ok i ∧ Z.odd i = true ∧
          0 <= t ∧ 40 = 2 ^ t * i) ∧
  ∀ fuel, odd_part fuel 0 = OutOfFuel.
Proof. apply (odd_part_of_nonzero 40). split; [lia|reflexivity]. Defined.

(** The split point of an empty range is its end point. *)
Lemma bs_mid_empty a : 0 <= a < uint_mod → bs_mid a a = Ok a.
Proof.
  intros Ha. pose proof uint_mod_eq as HU. unfold bs_mid.
  rewrite Z.sub_diag. change (wrap 0) with 0.
  rewrite !DoubleFacts.of_Z_small by lia.
  change (Double.mul (Double.mk 0 0) split_ratio) with (Double.mk 0 (-50)).
  unfold Double.add. cbn [Double.man Double.exp].
  change (Z.min 0 (-50)) with (-50). change (0 - -50) with 50.
  rewrite Z.mul_0_l, Z.add_0_r.
  set (M := a * 2 ^ 50). set (y := Double.round M (-50)).
  assert (0 <= M) as HM by (unfold M; lia).
  pose proof (DoubleFacts.round_exp_ge M (-50) HM) as Hey. fold y in Hey.
  assert (a * 2 ^ (0 - -50) <= Double.scaled y (-50)) as Hy1.
  { apply DoubleFacts.round_ge; lia. }
  assert (Double.scaled y (-50) <= a * 2 ^ (0 - -50)) as Hy2.
  { apply DoubleFacts.round_le; lia. }
  unfold Double.to_uint.
  rewrite (DoubleFacts.to_Z_scaled y (-50)) by lia.
  replace (Double.scaled y (-50)) with (a * 2 ^ (0 - -50)) by lia.
  change (2 ^ (0 - -50)) with (2 ^ (- -50)).
  rewrite Z.div_mul by (cbn; lia).
  destruct (Z.ltb_spec a uint_mod); [reflexivity|lia].
Qed.

(** [bs] on an empty range [a, a): the split point is [a] again, and the
    recursion on [a, a) never ends, whatever the number of nested calls
    allowed. *)
Theorem bs_empty_range_diverges a :
  0 <= a < uint_mod →
  bs_mid a a = Ok a ∧
  ∀ fuel s terms level, bs fuel s a a terms level = OutOfFuel.
Proof.
  intros Ha. split; [apply bs_mid_empty, Ha|].
  intros fuel s terms. unfold bs.
  induction fuel as [|fuel IH]; intros level; [reflexivity|].
  cbn [bs_gen]. rewrite Z.sub_diag. change (wrap 0 =? 1) with false.
  cbn match. rewrite (bs_mid_empty a Ha). cbn [mbind res_bind].
  rewrite IH. reflexivity.
Qed.

Lemma bs_empty_range_diverges_witness :
  bs_mid 5 5 = Ok 5 ∧
  ∀ fuel s terms level, bs fuel s 5 5 terms level = OutOfFuel.
Proof. apply (bs_empty_range_diverges 5). split; [lia|reflexivity]. Defined.



(** ** Removing common factors twice *)

Lemma gcd_scan_disjoint_nil fp fg :
  (∀ x, In x (facs fp) → In x (facs fg) → False) →
  gcd_scan fp fg = (fp, fg, []).
Proof.
  merge_induction fp fg.
  - intros h _. reflexivity.
  - intros f _. apply gcd_scan_nil_r.
  - intros x e f y d h Heq Hlt Hgt Hdis.
    rewrite gcd_scan_cons.
    destruct (Z.eqb_spec x y) as [->|Hne].
    { exfalso. apply (Hdis y); cbn; auto. }
    destruct (Z.ltb_spec x y) as [Hxy|Hxy].
    + rewrite Hlt; [reflexivity|exact Hxy|].
      intros z Hz1 Hz2. apply (Hdis z); [cbn; auto|exact Hz2].
    + rewrite Hgt; [reflexivity|lia|].
      intros z Hz1 Hz2. apply (Hdis z); [exact Hz1|cbn; auto].
Qed.

(** [fac_remove_gcd] on its own result changes nothing: after one call
    there is no common factor left to remove. *)
Theorem fac_remove_gcd_twice p0 fp0 g0 fg0 :
  fac_wf fp0 → fac_wf fg0 → (eval fp0 | p0) → (eval fg0 | g0) →
  ∃ p' fp' g' fg',
    fac_remove_gcd p0 fp0 g0 fg0 = Ok (p', fp', g', fg') ∧
    fac_remove_gcd p' fp' g' fg' = Ok (p', fp', g', fg').
Proof.
  intros Wp Wg Dp Dg.
  destruct (fac_remove_gcd_spec p0 fp0 g0 fg0 Wp Wg Dp Dg)
    as (p' & fp' & g' & fg' & E & _ & _ & _ & _ & _ & _ & _ & Hdis).
  exists p', fp', g', fg'. split; [exact E|].
  unfold fac_remove_gcd. rewrite (gcd_scan_disjoint_nil fp' fg' Hdis).
  reflexivity.
Qed.

Lemma fac_remove_gcd_twice_witness :
  ∃ p' fp' g' fg',
    fac_remove_gcd 90 [(3, 2); (5, 1)] 21 [(3, 1); (7, 1)]
    = Ok (p', fp', g', fg') ∧
    fac_remove_gcd p' fp' g' fg' = Ok (p', fp', g', fg').
Proof.
  apply (fac_remove_gcd_twice 90 [(3, 2); (5, 1)] 21 [(3, 1); (7, 1)]).
  - exact small_fac_wf_45.
  - exact small_fac_wf_21.
  - exists 2. reflexivity.
  - exists 1. reflexivity.
Defined.

(** ** The number of terms *)

(** [terms = digits / DIGITS_PER_ITER] in double precision, after the reset
    of [digits] to [MAX_DIGITS]: the conversion to [uint_t] is defined, the
    term count lies between [digits / 15] and [digits / 14], it is 0
    exactly for fewer than 15 digits, and [terms * 6], the size of the
    sieve, does not leave the range of [uint_t]. *)
Theorem terms_of_bounds digits :
  0 <= digits →
  let d := (clamp_digits digits).1 in
  d = Z.min digits MAX_DIGITS ∧
  ∃ t, terms_of d = Ok t ∧
       d / 15 <= t <= d / 14 ∧
       (t = 0 ↔ d < 15) ∧
       wrap (t * 6) = t * 6.
Proof.
  intros Hd0. cbn zeta.
  set (d := (clamp_digits digits).1).
  assert (d = Z.min digits MAX_DIGITS) as Hd.
  { unfold d, clamp_digits.
    destruct (Z.ltb_spec MAX_DIGITS digits); cbn [fst]; lia. }
  split; [exact Hd|].
  assert (0 <= d <= MAX_DIGITS) as Hr by (unfold MAX_DIGITS in *; lia).
  clearbody d. clear Hd Hd0.
  destruct (terms_of_quotient d Hr) as (t & E & Ht).
  unfold MAX_DIGITS in Hr. pose proof uint_mod_eq as HU.
  assert (14 * (d / 14) <= d < 14 * (d / 14) + 14) as HF
      by (Z.to_euclidean_division_equations; lia).
  assert (15 * (d / 15) <= d < 15 * (d / 15) + 15) as HL
      by (Z.to_euclidean_division_equations; lia).
  exists t. split; [exact E|]. split; [exact Ht|]. split.
  - split.
    + intros Ht0. lia.
    + intros Hd15. destruct (Z.eq_dec d 14) as [E14|].
      * subst d. vm_compute in E. injection E as <-. reflexivity.
      * lia.
  - apply wrap_small. unfold is_uint. lia.
Qed.

Lemma terms_of_bounds_witness :
  let d := (clamp_digits 14182).1 in
  d = Z.min 14182 MAX_DIGITS ∧
  ∃ t, terms_of d = Ok t ∧
       d / 15 <= t <= d / 14 ∧
       (t = 0 ↔ d < 15) ∧
       wrap (t * 6) = t * 6.
Proof. apply (terms_of_bounds 14182). lia. Defined.

(** ** Storage: no store outside a buffer *)

Lemma store_ok cap k : 0 <= k < cap → store cap k = Ok ().
Proof.
  intros H. unfold store.
  destruct (Z.leb_spec 0 k), (Z.ltb_spec k cap); try lia. reflexivity.
Qed.

Lemma chain_in_fits s cap pw fuel :
  ∀ i base r,
    chain fuel s base pw = Ok r →
    0 <= i → i + Z.of_nat (length r) <= cap → cap < uint_mod →
    chain_in fuel s cap i base pw = Ok r.
Proof.
  induction fuel as [|fuel IH]; intros i base r; [discriminate|].
  cbn [chain chain_in]. destruct (0 <? base).
  - intros (e & -> & H)%bind_ok Hi Hlen Hcap. cbn [mbind res_bind].
    apply bind_ok in H as (r' & Hr' & [= <-]). cbn [length] in Hlen.
    rewrite store_ok by lia. cbn [mbind res_bind].
    rewrite (wrap_small (i + 1)) by (unfold is_uint; lia).
    rewrite (IH _ _ _ Hr') by lia. reflexivity.
  - intros [= <-] _ _ _. reflexivity.
Qed.

Lemma chain_length s fuel :
  ∀ base pw r,
    chain fuel s base pw = Ok r →
    ∃ r1, chain fuel s base 1 = Ok r1 ∧ length r1 = length r.
Proof.
  induction fuel as [|fuel IH]; intros base pw r; [discriminate|].
  cbn [chain]. destruct (0 <? base).
  - intros (e & -> & H)%bind_ok. cbn [mbind res_bind].
    apply bind_ok in H as (r' & Hr' & [= <-]).
    destruct (IH _ _ _ Hr') as (r1 & -> & Hl). cbn [mbind res_bind].
    eexists. split; [reflexivity|]. cbn [length]. lia.
  - intros [= <-]. exists []. auto.
Qed.

Lemma eval_ge_pow2 f :
  Forall (λ x, 2 <= x.1 ∧ 1 <= x.2) f → 2 ^ Z.of_nat (length f) <= eval f.
Proof.
  induction 1 as [|[x e] f [Hx He] _ IH]; [cbn; lia|].
  cbn [fst snd] in Hx, He. cbn [length eval].
  rewrite Nat2Z.inj_succ, Z.pow_succ_r by lia.
  assert (x ^ 1 <= x ^ e) by (apply Z.pow_le_mono_r; lia).
  assert (0 < 2 ^ Z.of_nat (length f)) by (apply Z.pow_pos_nonneg; lia).
  nia.
Qed.

(** [fac_set_bp]: on the finished sieve of an even bound [n], the chain
    walk of an odd [base] in [1, n] makes fewer than [INIT_FACS = 32]
    steps, so in every buffer of capacity [INIT_FACS] or more it stores
    inside the buffer and leaves there the factored form of [base^pw]. *)
Theorem fac_set_bp_within_capacity n :
  Z.even n = true → 2 <= n → n + 2 * Z.sqrt n < uint_mod →
  ∃ s, build_sieve (Z.to_nat n) n = Ok s ∧
       ∀ f base pw,
         Z.odd base = true → 1 <= base <= n →
         0 < pw → 32 * pw <= uint_mod →
         INIT_FACS <= max_facs f < uint_mod →
         ∃ r, fac_set_bp s base pw = Ok r ∧
              Z.of_nat (length r) < INIT_FACS ∧
              fac_set_bp_in s f base pw = Ok (FacBuf (max_facs f) r).
Proof.
  intros Hev Hn2 Hn. pose proof uint_mod_eq as HU.
  destruct (build_sieve_ok (Z.to_nat n) n Hev Hn2 Hn ltac:(lia)) as (s & Hb & Hs).
  assert (n < uint_mod) as Hlt by (pose proof (Z.sqrt_nonneg n); lia).
  exists s. split; [exact Hb|]. intros f base pw Ho Hbase Hpw Hpw32 Hcap.
  destruct (fac_set_bp_ok n s Hs Hlt base pw Hpw Hpw32 Hbase Ho)
    as (r & Er & _).
  destruct (fac_set_bp_ok n s Hs Hlt base 1 ltac:(lia) ltac:(lia) Hbase Ho)
    as (r1 & Er1 & W1 & E1 & B1).
  unfold fac_set_bp in Er, Er1.
  destruct (chain_length _ _ _ _ _ Er) as (r1' & Er1' & Hlen).
  assert (r1' = r1) as -> by congruence.
  assert (2 ^ Z.of_nat (length r1) <= base) as Hpow.
  { rewrite Z.pow_1_r in E1. rewrite <- E1. apply eval_ge_pow2.
    eapply List.Forall_impl; [|exact B1]. cbn beta. intros x (H1 & _ & H2).
    lia. }
  assert (Z.of_nat (length r) < 32) as Hl32.
  { rewrite <- Hlen. apply (Z.pow_lt_mono_r_iff 2); [lia|lia|].
    change (2 ^ 32) with 4294967296. lia. }
  exists r. split; [exact Er|]. split; [exact Hl32|].
  unfold fac_set_bp_in, INIT_FACS in *.
  rewrite (chain_in_fits _ _ _ _ _ _ _ Er) by lia. reflexivity.
Qed.

Lemma fac_set_bp_within_capacity_witness :
  ∃ s, build_sieve (Z.to_nat 100) 100 = Ok s ∧
       ∀ f base pw,
         Z.odd base = true → 1 <= base <= 100 →
         0 < pw → 32 * pw <= uint_mod →
         INIT_FACS <= max_facs f < uint_mod →
         ∃ r, fac_set_bp s base pw = Ok r ∧
              Z.of_nat (length r) < INIT_FACS ∧
              fac_set_bp_in s f base pw = Ok (FacBuf (max_facs f) r).
Proof.
  apply (fac_set_bp_within_capacity 100);
    [reflexivity|lia|vm_compute; reflexivity].
Defined.

Lemma copy_in_fits cap :
  ∀ l k, 0 <= k → k + Z.of_nat (length l) <= cap → cap < uint_mod →
         copy_in cap k l = Ok l.
Proof.
  induction l as [|x l IH]; intros k Hk Hlen Hcap; [reflexivity|].
  cbn [copy_in length] in *. rewrite store_ok by lia. cbn [mbind res_bind].
  rewrite (wrap_small (k + 1)) by (unfold is_uint; lia).
  rewrite IH by lia. reflexivity.
Qed.

Lemma fac_mul2_in_fits cap (f g : fac_t) :
  cap < uint_mod →
  ∀ k, 0 <= k → k + Z.of_nat (length f) + Z.of_nat (length g) <= cap →
       fac_mul2_in cap k f g = Ok (fac_mul2 f g).
Proof.
  intros Hcap. merge_induction f g.
  - intros g k Hk Hlen. cbn [fac_mul2_in fac_mul2].
    apply copy_in_fits; cbn [length] in Hlen; lia.
  - intros f k Hk Hlen. rewrite fac_mul2_nil_r. cbn [length] in Hlen.
    destruct f as [|[p e] f]; [reflexivity|].
    cbn [fac_mul2_in]. apply copy_in_fits; lia.
  - intros p e f q d g Heq Hlt Hgt k Hk Hlen.
    rewrite fac_mul2_cons. cbn [length] in Hlen.
    change (fac_mul2_in cap k ((p, e) :: f) ((q, d) :: g))
      with (_ ← store cap k;
            if p =? q then
              r ← fac_mul2_in cap (wrap (k + 1)) f g;
              Ok ((p, wrap (e + d)) :: r)
            else if p <? q then
              r ← fac_mul2_in cap (wrap (k + 1)) f ((q, d) :: g);
              Ok ((p, e) :: r)
            else
              r ← fac_mul2_in cap (wrap (k + 1)) ((p, e) :: f) g;
              Ok ((q, d) :: r)).
    rewrite store_ok by lia. cbn [mbind res_bind].
    rewrite (wrap_small (k + 1)) by (unfold is_uint; lia).
    destruct (Z.eqb_spec p q) as [->|Hne].
    + rewrite Heq by (try reflexivity; lia). reflexivity.
    + destruct (Z.ltb_spec p q) as [Hpq|Hpq].
      * rewrite Hlt by (try assumption; cbn [length]; lia). reflexivity.
      * rewrite Hgt by (try lia; cbn [length]; lia). reflexivity.
Qed.

(** [fac_mul (f, g, fmul)]: when the two lengths add up inside [uint_t],
    the resized [fmul] is large enough for every store of [fac_mul2]; after
    the swap [f] holds the product in the buffer that was [fmul], [fmul]
    is the old [f] with its entries, and every buffer still has capacity
    [INIT_FACS] or more. *)
Theorem fac_mul_within_capacity f g fmul :
  num_facs f + num_facs g < uint_mod →
  INIT_FACS <= max_facs f → INIT_FACS <= max_facs fmul < uint_mod →
  ∃ f', fac_mul_in f g fmul = Ok (f', f) ∧
        ents f' = fac_mul (ents f) (ents g) ∧
        num_facs f' <= num_facs f + num_facs g <= max_facs f' ∧
        INIT_FACS <= max_facs f' < uint_mod.
Proof.
  intros Hsum Hf Hfmul. pose proof uint_mod_eq as HU.
  unfold fac_mul_in, num_facs in *.
  rewrite wrap_small by (unfold is_uint; lia).
  set (N := Z.of_nat (length (ents f)) + Z.of_nat (length (ents g))) in *.
  set (fm := fac_resize fmul N).
  assert (N <= max_facs fm ∧ INIT_FACS <= max_facs fm < uint_mod) as [H1 H2].
  { unfold fm, fac_resize, fac_init_size, fac_reset, INIT_FACS in *.
    destruct (Z.ltb_spec (max_facs fmul) N); cbn [max_facs]; [|lia].
    destruct (Z.ltb_spec N 32); lia. }
  pose proof H1 as H1'. unfold N in H1'.
  rewrite fac_mul2_in_fits by lia. cbn [mbind res_bind].
  eexists. split; [reflexivity|]. cbn [ents max_facs].
  split; [reflexivity|]. split; [|exact H2]. split; [|exact H1].
  unfold fac_mul.
  assert (∀ a b : fac_t, (length (fac_mul2 a b) <= length a + length b)%nat)
    as Hlen.
  { intros a b. merge_induction a b.
    - intros b. cbn. lia.
    - intros a. rewrite fac_mul2_nil_r. lia.
    - intros p e a q d b Heq Hlt Hgt. rewrite fac_mul2_cons.
      destruct (Z.eqb_spec p q) as [->|Hne].
      + specialize (Heq eq_refl). cbn [length]. lia.
      + destruct (Z.ltb_spec p q) as [Hpq|Hpq].
        * specialize (Hlt Hpq). cbn [length] in *. lia.
        * specialize (Hgt ltac:(lia)). cbn [length] in *. lia. }
  specialize (Hlen (ents f) (ents g)). unfold N. lia.
Qed.

Lemma fac_mul_within_capacity_witness :
  ∃ f', fac_mul_in (FacBuf 32 [(3, 2); (5, 1)]) (FacBuf 32 [(3, 1); (7, 1)])
          fac_init
        = Ok (f', FacBuf 32 [(3, 2); (5, 1)]) ∧
        ents f' = fac_mul (ents (FacBuf 32 [(3, 2); (5, 1)]))
                    (ents (FacBuf 32 [(3, 1); (7, 1)])) ∧
        num_facs f' <= num_facs (FacBuf 32 [(3, 2); (5, 1)])
                       + num_facs (FacBuf 32 [(3, 1); (7, 1)])
                    <= max_facs f' ∧
        INIT_FACS <= max_facs f' < uint_mod.
Proof.
  apply (fac_mul_within_capacity (FacBuf 32 [(3, 2); (5, 1)])
           (FacBuf 32 [(3, 1); (7, 1)]) fac_init);
    [reflexivity|vm_compute; discriminate|
     vm_compute; split; [discriminate|reflexivity]].
Defined.

(** ** [commify] *)

Section Commify.

Variable comma : ascii.
Hypothesis Hcomma : (nat_of_ascii comma < 48 ∨ 57 < nat_of_ascii comma)%nat.

Lemma decimal_comma s acc : decimal comma (comma :: s) acc = decimal comma s acc.
Proof. cbn [decimal]. rewrite Ascii.eqb_refl. reflexivity. Qed.

Lemma decimal_digit d s acc :
  0 <= d <= 9 →
  decimal comma (digit_char d :: s) acc = decimal comma s (10 * acc + d).
Proof.
  intros Hd. cbn [decimal].
  assert (nat_of_ascii (digit_char d) = (48 + Z.to_nat d)%nat) as Hn
      by (apply nat_ascii_embedding; lia).
  destruct (Ascii.eqb_spec (digit_char d) comma) as [E|_].
  - rewrite <- E, Hn in Hcomma. lia.
  - unfold digit_val. rewrite Hn. do 2 f_equal. lia.
Qed.

(** The length of the text of a number of [i] digits. *)
Let len (i : Z) : Z := if i =? 0 then 0 else i + (i - 1) / 3.

Lemma commify_loop_spec fuel :
  ∀ i n out v,
    0 <= i <= 17 → 0 <= n → (i = 0 ∨ 0 < n) →
    Z.of_nat (length out) = len i →
    (∀ acc, decimal comma out acc = acc * 10 ^ i + v) →
    17 - i < Z.of_nat fuel →
    (n < 10 ^ (17 - i) →
     ∃ s, commify_loop fuel comma (22 - len i) i n out = Ok s ∧
          decimal comma s 0 = n * 10 ^ i + v ∧
          Z.of_nat (length s) <= 22) ∧
    (10 ^ (17 - i) <= n →
     commify_loop fuel comma (22 - len i) i n out = Undef).
Proof.
  induction fuel as [|fuel IH]; intros i n out v Hi Hn Hin Hlen Hdec Hf; [lia|].
  cbn [commify_loop].
  assert (0 <= n mod 10 <= 9) as Hmod by (pose proof (Z.mod_pos_bound n 10); lia).
  assert (len (i + 1) = len i + 1 + (if (i mod 3 =? 0) && negb (i =? 0)
                                      then 1 else 0)) as Hstep.
  { unfold len. destruct (Z.eqb_spec i 0) as [->|Hi0]; [reflexivity|].
    destruct (Z.eqb_spec (i + 1) 0); [lia|].
    destruct (Z.eqb_spec (i mod 3) 0); cbn [andb negb];
      Z.to_euclidean_division_equations; lia. }
  assert (len i <= 22 ∧ (i <= 16 → len (i + 1) <= 22) ∧ (i = 17 → len i = 22))
    as (Hl1 & Hl2 & Hl3).
  { unfold len. destruct (Z.eqb_spec i 0), (Z.eqb_spec (i + 1) 0);
      Z.to_euclidean_division_equations; lia. }
  destruct (Z.eq_dec i 17) as [->|Hi17].
  - (* the 18th digit does not fit *)
    split; [intros Hlt; change (10 ^ (17 - 17)) with 1 in Hlt; lia|].
    intros _. change (17 mod 3 =? 0) with false. cbn [andb mbind res_bind].
    rewrite Hl3 by reflexivity. reflexivity.
  - assert (10 ^ (17 - i) = 10 * 10 ^ (16 - i)) as Hpow
        by (rewrite <- Z.pow_succ_r by lia; f_equal; lia).
    assert (0 < 10 ^ (16 - i)) as Hpos by (apply Z.pow_pos_nonneg; lia).
    assert (0 < 10 ^ i) as Hpi by (apply Z.pow_pos_nonneg; lia).
    specialize (Hl2 ltac:(lia)).
    set (c := (i mod 3 =? 0) && negb (i =? 0)) in *.
    set (out1 := if c then comma :: out else out).
    assert ((if c then push (22 - len i) comma out else Ok (22 - len i, out))
            = Ok (22 - len i - (if c then 1 else 0), out1)) as ->.
    { unfold out1, push. destruct c; [|f_equal; f_equal; lia].
      destruct (Z.ltb_spec 0 (22 - len i)); [reflexivity|lia]. }
    cbn [mbind res_bind]. unfold push.
    destruct (Z.ltb_spec 0 (22 - len i - (if c then 1 else 0))) as [_|?];
      [|destruct c; lia].
    cbn [mbind res_bind].
    set (out2 := digit_char (n mod 10) :: out1).
    assert (Z.of_nat (length out2) = len (i + 1)) as Hlen2.
    { unfold out2, out1. destruct c; cbn [length]; lia. }
    assert (∀ acc, decimal comma out2 acc
                   = acc * 10 ^ (i + 1) + (n mod 10 * 10 ^ i + v)) as Hdec2.
    { intros acc. unfold out2. rewrite decimal_digit by lia.
      assert (decimal comma out1 (10 * acc + n mod 10)
              = decimal comma out (10 * acc + n mod 10)) as ->
          by (unfold out1; destruct c; [apply decimal_comma|reflexivity]).
      rewrite Hdec, Z.pow_add_r, Z.pow_1_r by lia. ring. }
    pose proof (Z.div_mod n 10 ltac:(lia)) as Hdm.
    destruct (Z.eqb_spec (n / 10) 0) as [Hz|Hnz].
    + split; [|intros; lia]. intros _. exists out2.
      split; [reflexivity|]. split; [|lia].
      rewrite Hdec2. replace n with (n mod 10) at 2 by lia. lia.
    + replace (22 - len i - (if c then 1 else 0) - 1)
        with (22 - len (i + 1)) by lia.
      assert (0 < n / 10) as Hq
          by (pose proof (Z.div_pos n 10 Hn ltac:(lia)); lia).
      destruct (IH (i + 1) (n / 10) out2 (n mod 10 * 10 ^ i + v))
        as [IH1 IH2]; try lia; try assumption.
      replace (17 - (i + 1)) with (16 - i) in IH1, IH2 by lia.
      split.
      * intros Hlt. destruct IH1 as (s & -> & Hs & Hls); [lia|].
        exists s. split; [reflexivity|]. split; [|exact Hls].
        rewrite Hs, Z.pow_add_r, Z.pow_1_r by lia.
        clear -Hdm. set (q := n / 10) in *. set (r := n mod 10) in *.
        clearbody q r. subst n. ring.
      * intros Hge. apply IH2. lia.
Qed.

(** [commify]: a number below [10^17] is written inside [retbuf]
    (at most 22 characters before the terminator), and its digits, read
    back without the separators, spell the number; from [10^17] on the
    text does not fit in the [__MAXDIGITS = 23] bytes and the 18th digit is
    stored below the buffer. *)
Theorem commify_fits_below_10_17 n :
  0 <= n < 2 ^ 64 →
  (n < 10 ^ 17 →
   ∃ s, commify comma n = Ok s ∧ decimal comma s 0 = n ∧
        Z.of_nat (length s) < MAXDIGITS) ∧
  (10 ^ 17 <= n → commify comma n = Undef).
Proof.
  intros Hn. unfold commify. change (MAXDIGITS - 1) with 22.
  destruct (commify_loop_spec 20 0 n [] 0) as [H1 H2]; try lia.
  { reflexivity. }
  { intros acc. cbn. lia. }
  change (22 - len 0) with 22 in H1, H2. change (17 - 0) with 17 in H1, H2.
  split; [|exact H2].
  intros Hlt. destruct (H1 Hlt) as (s & -> & Hs & Hl).
  exists s. split; [reflexivity|]. split; [lia|].
  change MAXDIGITS with 23. lia.
Qed.

End Commify.

Lemma commify_fits_below_10_17_witness :
  (10000000000 < 10 ^ 17 →
   ∃ s, commify ","%char 10000000000 = Ok s ∧
        decimal ","%char s 0 = 10000000000 ∧
        Z.of_nat (length s) < MAXDIGITS) ∧
  (10 ^ 17 <= 10000000000 → commify ","%char 10000000000 = Undef).
Proof.
  apply (commify_fits_below_10_17 ","%char);
    [left; vm_compute; lia|split; [lia|reflexivity]].
Defined.

(** ** The split point, exactly *)

(** [mid = a + (b-a)*0.54], computed in double precision and converted
    back to [uint_t], is [a + floor (27 (b - a) / 50)] for every range of
    32-bit bounds: neither the binary value of [0.54] nor the two
    roundings move the result across an integer. *)
Theorem bs_mid_exact a b :
  0 <= a → a <= b → b < uint_mod →
  bs_mid a b = Ok (a + 27 * (b - a) / 50).
Proof.
  intros Ha Hab Hb. pose proof uint_mod_eq as HU. unfold bs_mid.
  rewrite (wrap_small (b - a)) by (unfold is_uint; lia).
  rewrite !DoubleFacts.of_Z_small by lia.
  unfold Double.mul, split_ratio. cbn [Double.man Double.exp].
  set (n := b - a). set (c := 607985949695017).
  set (F := 27 * n / 50).
  assert (50 * F <= 27 * n < 50 * F + 50) as HF
      by (unfold F; Z.to_euclidean_division_equations; lia).
  assert (0 <= n < 4294967296) as Hn by (unfold n; lia).
  set (x := Double.round (n * c) (0 + -50)).
  assert (0 <= n * c) as Hnc by (unfold c; lia).
  pose proof (DoubleFacts.round_exp_ge (n * c) (0 + -50) Hnc) as Hex.
  fold x in Hex.
  assert (F * 2 ^ (0 - -50) <= Double.scaled x (-50)) as Hx1.
  { apply DoubleFacts.round_ge; unfold c; lia. }
  assert (Double.scaled x (-50)
          <= ((F + 1) * 1048576 - 1) * 2 ^ (-20 - -50)) as Hx2.
  { apply DoubleFacts.round_le; unfold c; lia. }
  change (2 ^ (0 - -50)) with 1125899906842624 in Hx1.
  change (2 ^ (-20 - -50)) with 1073741824 in Hx2.
  unfold Double.add. cbn [Double.man Double.exp].
  set (e' := Z.min 0 (Double.exp x)).
  set (M := a * 2 ^ (0 - e') + Double.man x * 2 ^ (Double.exp x - e')).
  assert (0 <= Double.man x) as Hmx.
  { unfold x. destruct (DoubleFacts.round_cases (n * c) (0 + -50) Hnc)
      as [->|(s & Hs & Hq & [->|[-> _]])]; cbn [Double.man]; lia. }
  assert (0 < 2 ^ (0 - e')) by (apply Z.pow_pos_nonneg; lia).
  assert (0 < 2 ^ (Double.exp x - e')) by (apply Z.pow_pos_nonneg; lia).
  assert (0 <= M) as HM by (unfold M; nia).
  assert (M * 2 ^ (e' - -50) =
            a * 1125899906842624 + Double.scaled x (-50)) as HMs.
  { unfold M, Double.scaled. rewrite Z.mul_add_distr_r.
    rewrite <- !Z.mul_assoc, <- !Z.pow_add_r by lia.
    replace (0 - e' + (e' - -50)) with 50 by lia.
    replace (Double.exp x - e' + (e' - -50)) with (Double.exp x - -50) by lia.
    reflexivity. }
  set (y := Double.round M e').
  pose proof (DoubleFacts.round_exp_ge M e' HM) as Hey. fold y in Hey.
  assert ((a + F) * 2 ^ (0 - -50) <= Double.scaled y (-50)) as Hy1.
  { apply DoubleFacts.round_ge; try rewrite HMs; lia. }
  assert (Double.scaled y (-50)
          <= ((a + F + 1) * 1048576 - 1) * 2 ^ (-20 - -50)) as Hy2.
  { apply DoubleFacts.round_le; try rewrite HMs; lia. }
  change (2 ^ (0 - -50)) with 1125899906842624 in Hy1.
  change (2 ^ (-20 - -50)) with 1073741824 in Hy2.
  unfold Double.to_uint.
  rewrite (DoubleFacts.to_Z_scaled y (-50)) by lia.
  change (2 ^ (- -50)) with 1125899906842624.
  assert (Double.scaled y (-50) / 1125899906842624 = a + F) as ->.
  { apply Z.le_antisymm.
    - apply Z.lt_succ_r, Z.div_lt_upper_bound; lia.
    - apply Z.div_le_lower_bound; lia. }
  destruct (Z.ltb_spec (a + F) uint_mod); [reflexivity|lia].
Qed.

Lemma bs_mid_exact_witness : bs_mid 0 1000 = Ok (0 + 27 * (1000 - 0) / 50).
Proof. apply (bs_mid_exact 0 1000); [lia|lia|reflexivity]. Defined.

(** ** The whole run against the series *)

(** [main]'s binary splitting on [threads] shards, for a term count with
    [150 * terms] inside [uint_t] and [1 <= threads <= terms]: the run
    returns, and the [P] and [Q] left in slot 0 are those of the series
    over the terms [1 .. terms], merged from the left, divided by one
    positive integer; [P] is positive. *)
Theorem split_computes_series terms threads :
  0 < terms → 150 * terms < uint_mod → 1 <= threads <= terms →
  ∃ r P Q d,
    split terms threads = Ok r ∧
    pstack r !! 0%nat = Some P ∧ qstack r !! 0%nat = Some Q ∧
    0 < d ∧ 0 < P ∧
    (series 0 terms).1.1 = d * P ∧ (series 0 terms).1.2 = d * Q.
Proof.
  intros Ht HT Hth. pose proof uint_mod_eq as HU.
  pose proof (terms_small _ HT) as HT'.
  destruct (split_ok terms threads Ht HT' Hth)
    as (r & d & P & Q & G & E & [Hp Hq] & (Hd & HP & HQ & _)).
  pose proof (series_bounds 0 terms ltac:(lia) ltac:(lia) ltac:(lia))
    as [[HP0 _] _].
  cbn [fst snd] in *. change (Z.to_nat 0) with 0%nat in *.
  exists r, P, Q, d. repeat match goal with |- _ ∧ _ => split end; auto.
  nia.
Qed.

Lemma split_computes_series_witness :
  ∃ r P Q d,
    split 1000 8 = Ok r ∧
    pstack r !! 0%nat = Some P ∧ qstack r !! 0%nat = Some Q ∧
    0 < d ∧ 0 < P ∧
    (series 0 1000).1.1 = d * P ∧ (series 0 1000).1.2 = d * Q.
Proof.
  apply (split_computes_series 1000 8); [lia|reflexivity|lia].
Defined.

(** ** The chain walk of an even base *)

(** [fac_set_bp] halves [base] to index the table of the odd numbers, so
    for an even [base] it walks the chain of [base + 1] and returns the
    factored form of [(base + 1)^pw], not of [base^pw]. *)
Theorem fac_set_bp_even_base n base pw :
  Z.even n = true → 2 <= n → n + 2 * Z.sqrt n < uint_mod →
  Z.even base = true → 0 <= base < n →
  0 < pw → 32 * pw <= uint_mod →
  ∃ s f, build_sieve (Z.to_nat n) n = Ok s ∧
         fac_set_bp s base pw = Ok f ∧
         fac_set_bp s (base + 1) pw = Ok f ∧
         eval f = (base + 1) ^ pw.
Proof.
  intros Hev Hn2 Hn Hb Hbase Hpw Hpw32.
  destruct (build_sieve_ok (Z.to_nat n) n Hev Hn2 Hn ltac:(lia)) as (s & Hs & Hok).
  assert (n < uint_mod) as Hlt by (pose proof (Z.sqrt_nonneg n); lia).
  assert (Z.odd (base + 1) = true) as Ho.
  { rewrite Z.odd_add, <- Z.negb_even, Hb. reflexivity. }
  destruct (fac_set_bp_ok n s Hok Hlt (base + 1) pw Hpw Hpw32 ltac:(lia) Ho)
    as (f & Ef & _ & Hev' & _).
  exists s, f. split; [exact Hs|]. split; [|split; assumption].
  unfold fac_set_bp in *.
  replace (base / 2) with ((base + 1) / 2); [exact Ef|].
  apply Z.even_spec in Hb as [k ->].
  Z.to_euclidean_division_equations. lia.
Qed.

Lemma fac_set_bp_even_base_witness :
  ∃ s f, build_sieve (Z.to_nat 100) 100 = Ok s ∧
         fac_set_bp s 44 1 = Ok f ∧
         fac_set_bp s (44 + 1) 1 = Ok f ∧
         eval f = (44 + 1) ^ 1.
Proof.
  apply (fac_set_bp_even_base 100 44 1);
    [reflexivity|lia|vm_compute; reflexivity|reflexivity|lia|lia|
     vm_compute; discriminate].
Defined.
